(** * LineLog: a shallow embedding of linelog.js and its specification

    The development follows [linelog.js] (class [LineLog], [diffLines],
    [splitLines]).  A LineLog stores the whole history of one text file as a
    small program of jumps and lines; executing the program under a pair of
    revisions rebuilds a snapshot or a union view of the file.

    Conventions of the embedding:
    - revisions and timestamps are JavaScript numbers used as integers: [Z];
    - program counters and line indices index arrays: [nat];
    - strings are sequences of code units; only the newline unit matters;
    - [tsMap] and [extraMap] are objects keyed by revision: [gmap Z _];
    - methods of the class run in a state-and-exception monad over the
      fields of the object, so a [throw] keeps the mutations done so far. *)

From Stdlib Require Import ZArith Lia Ascii String.
From stdpp Require Import base option list sorting strings gmap.



(** ** Data model *)

(** [type Rev = number], [type Pc = number], [type LineIdx = number]. *)
Abbreviation Rev := Z (only parsing).
Abbreviation Pc := nat (only parsing).
Abbreviation LineIdx := nat (only parsing).

(** [enum Op { J, JGE, JL, LINE, END }] with the fields each variant carries. *)
Inductive Inst : Type :=
  | J (pc : Pc)
  | JGE (rev : Rev) (pc : Pc)
  | JL (rev : Rev) (pc : Pc)
  | LINE (rev : Rev) (data : string)
  | END.

#[global] Instance Inst_eq_dec : EqDecision Inst.
Proof. solve_decision. Defined.

(** The integer discriminator [op] of an instruction. *)
Definition op_of (c : Inst) : Z :=
  match c with J _ => 0 | JGE _ _ => 1 | JL _ _ => 2 | LINE _ _ => 3 | END => 4 end%Z.

Module LineInfo.
Record t : Type := mk { data : string; rev : Rev; pc : Pc; deleted : bool }.
Definition set_pc (p : Pc) (l : t) : t := mk (data l) (rev l) p (deleted l).
Definition set_data (d : string) (l : t) : t := mk d (rev l) (pc l) (deleted l).
End LineInfo.

#[global] Instance LineInfo_eq_dec : EqDecision LineInfo.t.
Proof. solve_decision. Defined.

(** Values that survive [JSON.stringify]; an [extra] is an object. *)
#[local] Set Warnings "-register-all".
Inductive json : Type :=
  | JNull
  | JBool (b : bool)
  | JNum (z : Z)
  | JStr (s : string)
  | JArr (l : list json)
  | JObj (l : list (string * json)).
#[local] Set Warnings "register-all".

Definition Extra := list (string * json).

(** The literal [{}]. *)
Definition empty_extra : Extra := [].

Record LineLog : Type := mkLineLog {
  code : list Inst;
  tsMap : gmap Z Z;
  extraMap : gmap Z Extra;
  maxRev : Rev;
  lastCheckoutRev : Rev;
  lines : list LineInfo.t;
  content : string
}.

Definition set_code (c : list Inst) (st : LineLog) : LineLog :=
  mkLineLog c (tsMap st) (extraMap st) (maxRev st) (lastCheckoutRev st) (lines st) (content st).
Definition set_tsMap (m : gmap Z Z) (st : LineLog) : LineLog :=
  mkLineLog (code st) m (extraMap st) (maxRev st) (lastCheckoutRev st) (lines st) (content st).
Definition set_extraMap (m : gmap Z Extra) (st : LineLog) : LineLog :=
  mkLineLog (code st) (tsMap st) m (maxRev st) (lastCheckoutRev st) (lines st) (content st).
Definition set_maxRev (r : Rev) (st : LineLog) : LineLog :=
  mkLineLog (code st) (tsMap st) (extraMap st) r (lastCheckoutRev st) (lines st) (content st).
Definition set_lastCheckoutRev (r : Rev) (st : LineLog) : LineLog :=
  mkLineLog (code st) (tsMap st) (extraMap st) (maxRev st) r (lines st) (content st).
Definition set_lines (l : list LineInfo.t) (st : LineLog) : LineLog :=
  mkLineLog (code st) (tsMap st) (extraMap st) (maxRev st) (lastCheckoutRev st) l (content st).
Definition set_content (s : string) (st : LineLog) : LineLog :=
  mkLineLog (code st) (tsMap st) (extraMap st) (maxRev st) (lastCheckoutRev st) (lines st) s.

(** ** The monad of methods: state of the object, plus exceptions *)

Inductive outcome (A : Type) : Type :=
  | Ok (a : A)
  | Throw (msg : string).
Arguments Ok {A} a.
Arguments Throw {A} msg.

Definition M (A : Type) : Type := LineLog → LineLog * outcome A.

#[global] Instance M_ret : MRet M := λ A a st, (st, Ok a).
#[global] Instance M_bind : MBind M := λ A B f m st,
  match m st with
  | (st', Ok a) => f a st'
  | (st', Throw e) => (st', Throw e)
  end.

Definition get : M LineLog := λ st, (st, Ok st).
Definition modify (f : LineLog → LineLog) : M unit := λ st, (f st, Ok tt).
Definition throw {A : Type} (msg : string) : M A := λ st, (st, Throw msg).

(** [function assert(condition, message)]. *)
Definition assert (condition : bool) (message : string) : M unit :=
  if condition then mret tt else throw message.

(** Reading a property of [undefined]. *)
Definition type_error : string := "TypeError: cannot read properties of undefined".

Definition lift {A : Type} (o : outcome A) : M A := λ st, (st, o).

(** ** Strings *)

Definition nl : ascii := "010"%char.

(** [xs.join("")]. *)
Definition join (xs : list string) : string := foldr String.app "" xs.

(** One round of the loop of [splitLines] seen from position [pos]: the
    slice [s.slice(pos, nextPos + 1)] and the rest of the string from
    [nextPos + 1]; [s] here is the suffix of the input at [pos].  When no
    newline is left, [nextPos] is [s.length - 1] and the slice is the rest. *)
Fixpoint cut_line (s : string) : string * string :=
  match s with
  | EmptyString => (EmptyString, EmptyString)
  | String c s' =>
      if Ascii.eqb c nl then (String c EmptyString, s')
      else let '(l, r) := cut_line s' in (String c l, r)
  end.

(** The [while (pos < s.length)] loop; each round consumes at least one code
    unit, so [String.length s] rounds are enough. *)
Fixpoint splitLines_loop (rounds : nat) (s : string) : list string :=
  match rounds with
  | O => []
  | S rounds' =>
      match s with
      | EmptyString => []
      | _ => let '(l, r) := cut_line s in l :: splitLines_loop rounds' r
      end
  end.

Definition splitLines (s : string) : list string :=
  splitLines_loop (String.length s) s.

(** ** The interpreter *)

(** [present === null ? (() => false) : (pc) => !present[pc]]. *)
Definition deleted_of (present : option (gset Pc)) : Pc → bool :=
  match present with
  | None => λ _, false
  | Some p => λ pc, negb (bool_decide (pc ∈ p))
  end.

Definition timeout_msg : string := "bug: code does not end in time".

(** The [while (patience > 0)] loop of [execute].  [patience] counts the
    rounds still allowed; reaching [END] leaves the loop, running out of
    rounds is the failed assertion after the loop.  A [pc] outside the array
    reads [undefined.op]. *)
Fixpoint execute_loop (c : list Inst) (startRev endRev : Rev) (deleted : Pc → bool)
    (patience : nat) (pc : Pc) : outcome (list LineInfo.t) :=
  match patience with
  | O => Throw timeout_msg
  | S patience' =>
      match c !! pc with
      | None => Throw type_error
      | Some END => Ok [LineInfo.mk "" 0%Z pc (deleted pc)]
      | Some (LINE r d) =>
          match execute_loop c startRev endRev deleted patience' (pc + 1) with
          | Ok ls => Ok (LineInfo.mk d r pc (deleted pc) :: ls)
          | Throw e => Throw e
          end
      | Some (J t) => execute_loop c startRev endRev deleted patience' t
      | Some (JGE r t) =>
          execute_loop c startRev endRev deleted patience'
            (if bool_decide (r ≤ startRev)%Z then t else pc + 1)
      | Some (JL r t) =>
          execute_loop c startRev endRev deleted patience'
            (if bool_decide (endRev < r)%Z then t else pc + 1)
      end
  end.

(** [execute(startRev, endRev, present = null)] reads [this.code] only. *)
Definition execute (startRev endRev : Rev) (present : option (gset Pc)) : M (list LineInfo.t) :=
  st ← get;
  lift (execute_loop (code st) startRev endRev (deleted_of present)
          (length (code st) * 2) 0).

Definition reconstructContent (st : LineLog) : string :=
  join (LineInfo.data <$> lines st).

(** [checkOut(rev, start = null)]. *)
Definition checkOut (rev : Rev) (start : option Rev) : M unit :=
  st ← get;
  let rev := Z.min rev (maxRev st) in
  if bool_decide (rev = lastCheckoutRev st) && bool_decide (start = None) then mret tt
  else
    modify (set_lastCheckoutRev rev);;
    ls ← execute rev rev None;
    ls ← match start with
         | None => mret ls
         | Some s =>
             let present : gset Pc := list_to_set (LineInfo.pc <$> ls) in
             execute s rev (Some present)
         end;
    modify (set_lines ls);;
    modify (λ st, set_content (reconstructContent st) st).

(** ** Annotations *)

(** [getLineTimestamp(i)]; [None] is JavaScript's [undefined]. *)
Definition getLineTimestamp (i : LineIdx) (st : LineLog) : option Z :=
  if bool_decide (length (lines st) - 1 ≤ i) then Some 0%Z
  else l ← lines st !! i; tsMap st !! LineInfo.rev l.

(** [getLineExtra(i)]: every stored [extra] is an object, hence truthy. *)
Definition getLineExtra (i : LineIdx) (st : LineLog) : option Extra :=
  if bool_decide (length (lines st) - 1 ≤ i) then Some empty_extra
  else l ← lines st !! i; Some (default empty_extra (extraMap st !! LineInfo.rev l)).

(** ** The editor

    Two collaborators live outside the repository and are taken as
    parameters: the line diff of diff-match-patch, and the codec
    [gzipSync]/[gunzipSync] with [JSON.stringify]/[JSON.parse]. *)

Definition Block : Type := nat * nat * nat * nat.

(** The variables captured by the closure [push] inside [diffLines]. *)
Record DiffState : Type := mkDiffState {
  ds_a1 : nat; ds_a2 : nat; ds_b1 : nat; ds_b2 : nat; ds_blocks : list Block
}.

(** [const push = (len) => { ... }]. *)
Definition push (len : nat) (d : DiffState) : DiffState :=
  let blocks :=
    if negb (ds_a1 d =? ds_a2 d) || negb (ds_b1 d =? ds_b2 d)
    then ds_blocks d ++ [(ds_a1 d, ds_a2 d, ds_b1 d, ds_b2 d)]
    else ds_blocks d in
  mkDiffState (ds_a2 d + len) (ds_a2 d + len) (ds_b2 d + len) (ds_b2 d + len) blocks.

(** The body of the [forEach] over the diff: [x = [op, chars]]. *)
Definition diff_step (d : DiffState) (x : Z * list string) : DiffState :=
  let '(op, chars) := x in
  let len := length chars in
  let d := if bool_decide (op = 0)%Z then push len d else d in
  let d := if bool_decide (op < 0)%Z
           then mkDiffState (ds_a1 d) (ds_a2 d + len) (ds_b1 d) (ds_b2 d) (ds_blocks d) else d in
  if bool_decide (op > 0)%Z
  then mkDiffState (ds_a1 d) (ds_a2 d) (ds_b1 d) (ds_b2 d + len) (ds_blocks d) else d.

(** The object literal [{ code, tsMap, extraMap }] handed to [JSON.stringify]. *)
Record Exported : Type := mkExported {
  e_code : list Inst; e_tsMap : gmap Z Z; e_extraMap : gmap Z Extra
}.

(** What [JSON.parse] hands back: [tsMap] and [extraMap] may be missing. *)
Record Parsed : Type := mkParsed {
  p_code : list Inst; p_tsMap : option (gmap Z Z); p_extraMap : option (gmap Z Extra)
}.

(** [Math.max(0, ...code.map((c) => (c.op === JGE || c.op === JL) ? c.rev : 0))]. *)
Definition code_max_rev (c : list Inst) : Rev :=
  foldr Z.max 0%Z ((λ i, match i with JGE r _ | JL r _ => r | _ => 0%Z end) <$> c).

(** [timestamp || Date.now()]: a missing or zero timestamp is falsy. *)
Definition ts_or_now (timestamp : option Z) (now : Z) : Z :=
  match timestamp with
  | Some t => if bool_decide (t = 0)%Z then now else t
  | None => now
  end.

Section Editor.

(** [dmp.diff_main(chars1, chars2, false)] on the texts encoded by
    [dmp.diff_linesToChars_(a, b)]: a list of [[op, chars]] in which every
    character of [chars] stands for one line; the lines are kept here in
    place of their characters. *)
Variable dmp_diff : string → string → list (Z * list string).

(** The bytes of a Node [Buffer]. *)
Variable Buffer : Type.
(** [gzipSync(JSON.stringify(obj))]. *)
Variable gzip_stringify : Exported → Buffer.
(** [JSON.parse(gunzipSync(buf).toString())]; [None] when either throws. *)
Variable parse_gunzip : Buffer → option Parsed.

(** [function diffLines(a, b)]. *)
Definition diffLines (a b : string) : list Block :=
  ds_blocks (push 0 (foldl diff_step (mkDiffState 0 0 0 0 []) (dmp_diff a b))).

(** [editChunk(a1, a2, rev, lines)]; the argument [lines] of the source is
    [newLines] here, [this.lines] is the field [lines]. *)
Definition editChunk (a1 a2 : LineIdx) (rev : Rev) (newLines : list string) : M unit :=
  assert (bool_decide (a1 ≤ a2)) "illegal chunk (a1 < a2)";;
  st ← get;
  assert (bool_decide (a2 ≤ length (lines st))) "out of bound a2 (forgot checkOut?)";;
  let start := length (code st) in
  match lines st !! a1 with
  | None => throw type_error
  | Some l1 =>
    let a1Pc := LineInfo.pc l1 in
    (if bool_decide (0 < length newLines) then
       let b2Pc := start + length newLines + 1 in
       modify (λ st, set_code (code st ++ [JL rev b2Pc]) st);;
       modify (λ st, set_code (code st ++ (LINE rev <$> newLines)) st);;
       st ← get;
       assert (bool_decide (b2Pc = length (code st))) "bug: wrong pc"
     else mret tt);;
    (if bool_decide (a1 < a2) then
       st ← get;
       match lines st !! (a2 - 1) with
       | None => throw type_error
       | Some l2 =>
           let a2Pc := LineInfo.pc l2 + 1 in
           modify (λ st, set_code (code st ++ [JGE rev a2Pc]) st)
       end
     else mret tt);;
    modify (λ st, set_lines (<[a1 := LineInfo.set_pc (length (code st)) l1]> (lines st)) st);;
    st ← get;
    match code st !! a1Pc with
    | None =>
        (* the spread of [undefined] pushes an instruction without [op],
           which the instruction type leaves out; the [switch] then reads
           [undefined.op] *)
        throw type_error
    | Some orig =>
        modify (λ st, set_code (code st ++ [orig]) st);;
        match orig with
        | J _ | END => mret tt
        | _ => modify (λ st, set_code (code st ++ [J (a1Pc + 1)]) st)
        end;;
        modify (λ st, set_code (<[a1Pc := J start]> (code st)) st);;
        let inserted :=
          imap (λ i s, LineInfo.mk s rev (start + 1 + i) false) newLines in
        (* [this.lines.splice(a1, a2 - a1, ...newLines)] *)
        modify (λ st, set_lines (take a1 (lines st) ++ inserted ++ drop a2 (lines st)) st);;
        st ← get;
        (if bool_decide (maxRev st < rev)%Z then modify (set_maxRev rev) else mret tt);;
        modify (set_lastCheckoutRev rev)
    end
  end.

(** [blocks.reverse().forEach(([a1, a2, b1, b2]) => editChunk(...))]. *)
Fixpoint editChunks (rev : Rev) (blines : list string) (blocks : list Block) : M unit :=
  match blocks with
  | [] => mret tt
  | (a1, a2, b1, b2) :: rest =>
      (* [lines.slice(b1, b2)] *)
      editChunk a1 a2 rev (take (b2 - b1) (drop b1 blines));;
      editChunks rev blines rest
  end.

(** [recordText(text, timestamp = null, extra = null)]; [now] is the value
    [Date.now()] would return during the call. *)
Definition recordText (text : string) (timestamp : option Z) (extra : option Extra)
    (now : Z) : M Rev :=
  st ← get;
  let a := content st in
  let b := text in
  if bool_decide (a = b) then mret (maxRev st)
  else
    let blines := splitLines b in
    checkOut (maxRev st) None;;
    let blocks := diffLines a b in
    let ts := ts_or_now timestamp now in
    st ← get;
    let trivial : option (LineIdx * nat) :=
      match blocks with
      | [(a1, a2, b1, b2)] =>
          if bool_decide (a2 - a1 = 1) && bool_decide (b2 - b1 = 1) then Some (a1, b1) else None
      | _ => None
      end in
    fast ← match trivial with
           | None => mret None
           | Some (a1, b1) =>
               let rev := maxRev st in
               match lines st !! a1 with
               | None => throw type_error
               | Some l1 =>
                   if bool_decide (LineInfo.rev l1 = rev)
                      && bool_decide (length (filter (λ l, LineInfo.rev l = rev) (lines st)) = 1)
                   then
                     (* Trivial change. Update directly without keeping the old history. *)
                     modify (λ st, set_tsMap (<[rev := ts]> (tsMap st)) st);;
                     st ← get;
                     match code st !! LineInfo.pc l1 with
                     | None => throw type_error
                     | Some (LINE r _) =>
                         (* [lines[b1]] is a line of [b] whenever the diff
                            is a diff of the lines of [a] and [b] *)
                         let newLine := default "" (blines !! b1) in
                         modify (λ st, set_code (<[LineInfo.pc l1 := LINE r newLine]> (code st)) st);;
                         modify (λ st, set_lines (<[a1 := LineInfo.set_data newLine l1]> (lines st)) st);;
                         modify (set_content b);;
                         mret (Some rev)
                     | Some _ => throw "bug: inconsistent op"
                     end
                   else mret None
               end
           end;
    match fast with
    | Some rev => mret rev
    | None =>
        (* Non-trivial change. *)
        st ← get;
        let rev := (maxRev st + 1)%Z in
        modify (λ st, set_tsMap (<[rev := ts]> (tsMap st)) st);;
        match extra with
        | Some e => modify (λ st, set_extraMap (<[rev := e]> (extraMap st)) st)
        | None => mret tt
        end;;
        editChunks rev blines (reverse blocks);;
        modify (set_content b);;
        mret rev
    end.

(** [export()]. *)
Definition export : M Buffer :=
  st ← get;
  mret (gzip_stringify (mkExported (code st) (tsMap st) (extraMap st))).

(** [import(buf)]. *)
Definition import (buf : Buffer) : M unit :=
  match parse_gunzip buf with
  | None => throw "decode error"
  | Some obj =>
      modify (set_code (p_code obj));;
      modify (set_tsMap (default ∅ (p_tsMap obj)));;
      modify (set_extraMap (default ∅ (p_extraMap obj)));;
      st ← get;
      modify (set_maxRev (code_max_rev (code st)));;
      st ← get;
      checkOut (maxRev st) None
  end.

End Editor.

(** [constructor()]: the fields as initialised, then [this.checkOut(0)]. *)
Definition initial : LineLog :=
  mkLineLog [END] ∅ ∅ 0%Z (-1)%Z [] "".

Definition new_LineLog : LineLog * outcome unit := checkOut 0%Z None initial.

(** ** A reference line differ

    diff-match-patch is a parameter of the editor.  To run the model on
    concrete texts, and to show that what is assumed of the differ can be
    met, this is a small differ of the same interface: it walks both line
    lists, keeps equal lines, inserts the line of [b] when the line of [a]
    still occurs later in [b], and deletes the line of [a] otherwise. *)

Fixpoint line_diff (a b : list string) {struct a} : list (Z * list string) :=
  match a with
  | [] => (λ y, (1%Z, [y])) <$> b
  | x :: a' =>
      (fix go (b : list string) : list (Z * list string) :=
         match b with
         | [] => (λ x, ((-1)%Z, [x])) <$> a
         | y :: b' =>
             if decide (x = y) then (0%Z, [x]) :: line_diff a' b'
             else if bool_decide (x ∈ b') then (1%Z, [y]) :: go b'
             else ((-1)%Z, [x]) :: line_diff a' b
         end) b
  end.

Definition ref_diff (a b : string) : list (Z * list string) :=
  line_diff (splitLines a) (splitLines b).

(** A codec that stores the exported object as it is. *)
Definition ref_gzip_stringify (o : Exported) : Exported := o.
Definition ref_parse_gunzip (o : Exported) : option Parsed :=
  Some (mkParsed (e_code o) (Some (e_tsMap o)) (Some (e_extraMap o))).

(** What is assumed of diff-match-patch: read on the side of [a] (deletions
    and equalities) the diff spells the lines of [a], read on the side of [b]
    (insertions and equalities) it spells the lines of [b].  This is what a
    diff is; diff-match-patch meets it as long as its encoding of lines as
    characters does not run out of characters. *)
Definition script_a (ds : list (Z * list string)) : list string :=
  mjoin (snd <$> filter (λ x, (fst x ≤ 0)%Z) ds).
Definition script_b (ds : list (Z * list string)) : list string :=
  mjoin (snd <$> filter (λ x, (0 ≤ fst x)%Z) ds).

Definition diff_sound (dmp_diff : string → string → list (Z * list string)) : Prop :=
  ∀ a b, script_a (dmp_diff a b) = splitLines a ∧ script_b (dmp_diff a b) = splitLines b.

(** What is assumed of the codec: parsing what was exported gives it back. *)
Definition codec_sound {Buffer : Type} (gzip_stringify : Exported → Buffer)
    (parse_gunzip : Buffer → option Parsed) : Prop :=
  ∀ o, parse_gunzip (gzip_stringify o)
       = Some (mkParsed (e_code o) (Some (e_tsMap o)) (Some (e_extraMap o))).

(** Texts used in the examples. *)
Definition NL : string := String nl "".
Definition text_of (ls : list string) : string := join ((λ l, l +:+ NL) <$> ls).

(** The fields that hold the history, as opposed to the cached view. *)
Definition same_history (st st' : LineLog) : Prop :=
  code st' = code st ∧ tsMap st' = tsMap st ∧ extraMap st' = extraMap st
  ∧ maxRev st' = maxRev st.

(** [checkOut] spelled out on the fields. *)
Definition checkOut_result (rev : Rev) (start : option Rev) (st : LineLog)
    : LineLog * outcome unit :=
  let rev := Z.min rev (maxRev st) in
  if bool_decide (rev = lastCheckoutRev st) && bool_decide (start = None) then (st, Ok tt)
  else
    let st1 := set_lastCheckoutRev rev st in
    let fuel := length (code st) * 2 in
    match execute_loop (code st) rev rev (deleted_of None) fuel 0 with
    | Throw e => (st1, Throw e)
    | Ok ls =>
        match start with
        | None => (set_content (join (LineInfo.data <$> ls)) (set_lines ls st1), Ok tt)
        | Some s =>
            match execute_loop (code st) s rev
                    (deleted_of (Some (list_to_set (LineInfo.pc <$> ls)))) fuel 0 with
            | Throw e => (st1, Throw e)
            | Ok ls2 => (set_content (join (LineInfo.data <$> ls2)) (set_lines ls2 st1), Ok tt)
            end
        end
    end.

(** ** Executions as paths

    The loop of [execute] is deterministic: the instruction at [pc] and the
    two revisions fix the next program counter.  An execution is recorded as
    the list of program counters it visits; what it emits is read off that
    list. *)

Definition next_pc (startRev endRev : Rev) (pc : Pc) (i : Inst) : option Pc :=
  match i with
  | END => None
  | LINE _ _ => Some (pc + 1)
  | J t => Some t
  | JGE r t => Some (if bool_decide (r ≤ startRev)%Z then t else pc + 1)
  | JL r t => Some (if bool_decide (endRev < r)%Z then t else pc + 1)
  end.

(** [path c s e pc vs q]: starting at [pc] the loop visits [vs] and is then
    about to read the instruction at [q]. *)
Inductive path (c : list Inst) (s e : Rev) : Pc → list Pc → Pc → Prop :=
  | path_nil pc : path c s e pc [] pc
  | path_step pc i pc' vs q :
      c !! pc = Some i → next_pc s e pc i = Some pc' →
      path c s e pc' vs q → path c s e pc (pc :: vs) q.

(** [run c s e pc vs]: starting at [pc] the loop visits [vs], the last of
    which is an [END]. *)
Inductive run (c : list Inst) (s e : Rev) : Pc → list Pc → Prop :=
  | run_end pc : c !! pc = Some END → run c s e pc [pc]
  | run_step pc i pc' vs :
      c !! pc = Some i → next_pc s e pc i = Some pc' →
      run c s e pc' vs → run c s e pc (pc :: vs).

(** The entry of [lines] pushed when [pc] is visited, if any. *)
Definition emit_line (c : list Inst) (deleted : Pc → bool) (pc : Pc) : option LineInfo.t :=
  match c !! pc with
  | Some (LINE r d) => Some (LineInfo.mk d r pc (deleted pc))
  | Some END => Some (LineInfo.mk "" 0%Z pc (deleted pc))
  | _ => None
  end.

Definition emit (c : list Inst) (deleted : Pc → bool) (vs : list Pc) : list LineInfo.t :=
  omap (emit_line c deleted) vs.

(** The program counters the loop may move to from [pc]. *)
Definition succs (pc : Pc) (i : Inst) : list Pc :=
  match i with
  | END => []
  | LINE _ _ => [pc + 1]
  | J t => [t]
  | JGE _ t | JL _ t => [t; pc + 1]
  end.

(** A program is ranked when every move stays inside the program and
    climbs in rank: the instructions have a logical order in which all
    jumps go forward, although the array order is the order of arrival. *)
Definition ranked (rank : Pc → nat) (c : list Inst) : Prop :=
  ∀ pc i q, c !! pc = Some i → q ∈ succs pc i → q < length c ∧ rank pc < rank q.

(** No jump of the program tests a revision above [m]. *)
Definition jump_revs_le (c : list Inst) (m : Rev) : Prop :=
  ∀ pc i, c !! pc = Some i →
    match i with JGE r _ | JL r _ => (r ≤ m)%Z | _ => True end.

(** ** Blocks of a diff

    [aligned pa pb la lb blocks]: [la] and [lb] are what is left of the two
    line lists from positions [pa] and [pb]; they share the stretch [e],
    then [la] has [d] where [lb] has [i] (one of them at least is not
    empty), and so on; each block records where [d] and [i] sit. *)
Inductive aligned : nat → nat → list string → list string → list Block → Prop :=
  | aligned_nil pa pb e : aligned pa pb e e []
  | aligned_cons pa pb e d i la lb blocks :
      d ≠ [] ∨ i ≠ [] →
      aligned (pa + length e + length d) (pb + length e + length i) la lb blocks →
      aligned pa pb (e ++ d ++ la) (e ++ i ++ lb)
        ((pa + length e, pa + length e + length d,
          pb + length e, pb + length e + length i) :: blocks).

(** ** What [editChunk] does to the program

    The instructions appended by one call, in three parts, and the program
    after the call: [a1Pc] is the program counter of the line at [a1],
    [orig] the instruction found there, [a2Pc] the target of the [JGE]
    when lines are deleted. *)

Definition ins_part (rev : Rev) (start : Pc) (newLines : list string) : list Inst :=
  if bool_decide (0 < length newLines)
  then JL rev (start + length newLines + 1) :: (LINE rev <$> newLines)
  else [].

Definition del_part (rev : Rev) (a2Pc : option Pc) : list Inst :=
  match a2Pc with Some t => [JGE rev t] | None => [] end.

Definition tail_part (a1Pc : Pc) (orig : Inst) : list Inst :=
  orig :: match orig with J _ | END => [] | _ => [J (a1Pc + 1)] end.

Definition edited_code (c : list Inst) (rev : Rev) (a1Pc : Pc) (orig : Inst)
    (newLines : list string) (a2Pc : option Pc) : list Inst :=
  <[a1Pc := J (length c)]>
    (c ++ ins_part rev (length c) newLines ++ del_part rev a2Pc ++ tail_part a1Pc orig).

(** The program counter of the relocated copy of [orig]. *)
Definition tail_pc (c : list Inst) (rev : Rev) (newLines : list string) (a2Pc : option Pc) : Pc :=
  length c + length (ins_part rev (length c) newLines) + length (del_part rev a2Pc).

(** The entries of [lines] for the inserted lines. *)
Definition inserted (rev : Rev) (start : Pc) (newLines : list string) : list LineInfo.t :=
  imap (λ i s, LineInfo.mk s rev (start + 1 + i) false) newLines.

(** The state after a call of [editChunk] that does not throw. *)
Definition editChunk_result (a1 a2 : LineIdx) (rev : Rev) (newLines : list string)
    (l1 : LineInfo.t) (orig : Inst) (a2Pc : option Pc) (st : LineLog) : LineLog :=
  let ls := <[a1 := LineInfo.set_pc (tail_pc (code st) rev newLines a2Pc) l1]> (lines st) in
  mkLineLog
    (edited_code (code st) rev (LineInfo.pc l1) orig newLines a2Pc)
    (tsMap st) (extraMap st)
    (if bool_decide (maxRev st < rev)%Z then rev else maxRev st)
    rev
    (take a1 ls ++ inserted rev (length (code st)) newLines ++ drop a2 ls)
    (content st).

(** The part of a path that crosses the inserted lines. *)
Definition ins_path (rev e : Rev) (start : Pc) (newLines : list string) : list Pc :=
  if bool_decide (0 < length newLines) then
    if bool_decide (e < rev)%Z then [start] else seq start (S (length newLines))
  else [].

(** The rank of the instructions after a call of [editChunk]: the program
    so far keeps its order, stretched, and the appended instructions sit in
    order right after [a1Pc]. *)
Definition edited_rank (rank : Pc → nat) (n : nat) (k : nat) (a1Pc : Pc) : Pc → nat :=
  λ x, if bool_decide (x < n) then k * rank x else k * rank a1Pc + (x - n) + 1.

(** The part of a path on the [JGE] of the chunk, when there is one. *)
Definition del_path (n1 : Pc) (a2Pc : option Pc) : list Pc :=
  match a2Pc with Some _ => [n1] | None => [] end.

(** The part of a path on the relocated instruction and the jump back. *)
Definition tail_path (tl : Pc) (orig : Inst) : list Pc :=
  tl :: match orig with J _ | END => [] | _ => [tl + 1] end.

(** ** Invariants of the programs built by [recordText] *)

(** [pc] holds a [LINE] or an [END]. *)
Definition is_line (c : list Inst) (x : Pc) : Prop :=
  is_Some (emit_line c (deleted_of None) x).

(** [ls] is what [execute(m, m)] returns. *)
Definition head_view (c : list Inst) (m : Rev) (ls : list LineInfo.t) : Prop :=
  ∃ vs, run c m m 0 vs ∧ ls = emit c (deleted_of None) vs.

(** The snapshot of revision [r] is [text]: [execute(r, r)] returns the
    lines of [text], then the sentinel. *)
Definition snapshot_is (c : list Inst) (r : Rev) (text : string) : Prop :=
  ∃ vs, run c r r 0 vs
        ∧ LineInfo.data <$> emit c (deleted_of None) vs = splitLines text ++ [""].

(** A line of revision [r] is only visited when [endRev] has reached [r]. *)
Definition guarded (c : list Inst) : Prop :=
  ∀ s e vs x r d, (s ≤ e)%Z → run c s e 0 vs → x ∈ vs →
    c !! x = Some (LINE r d) → (r ≤ e)%Z.

(** Every line of the snapshot of [e] is visited by the executions that
    start the range earlier. *)
Definition union_covers (c : list Inst) : Prop :=
  ∀ s e vs vr x, (s ≤ e)%Z → run c e e 0 vs → run c s e 0 vr →
    x ∈ vs → is_line c x → x ∈ vr.

(** What holds of the program and of [lines] between two calls of
    [editChunk] for revision [m]; [h] maps the revisions recorded so far to
    their texts. *)
Record chunk_inv (c : list Inst) (m : Rev) (ls : list LineInfo.t)
    (h : gmap Z string) : Prop := mk_chunk_inv {
  ki_ranked : ∃ rank, ranked rank c;
  ki_revs : jump_revs_le c m;
  ki_head : head_view c m ls;
  ki_guarded : guarded c;
  ki_union : union_covers c;
  ki_hist : ∀ r t, h !! r = Some t → (r < m)%Z ∧ snapshot_is c r t
}.

(** What holds of a LineLog between two calls of [recordText]. *)
Record inv (st : LineLog) (h : gmap Z string) : Prop := mk_inv {
  inv_ranked : ∃ rank, ranked rank (code st);
  inv_revs : jump_revs_le (code st) (maxRev st);
  inv_max : code_max_rev (code st) = maxRev st;
  inv_head : head_view (code st) (maxRev st) (lines st);
  inv_guarded : guarded (code st);
  inv_union : union_covers (code st);
  inv_last : lastCheckoutRev st = maxRev st;
  inv_content : LineInfo.data <$> lines st = splitLines (content st) ++ [""];
  inv_hist : ∀ r t, h !! r = Some t → (r ≤ maxRev st)%Z ∧ snapshot_is (code st) r t
}.

(** The LineLogs built from a new one by calls of [recordText], with the
    text last recorded under each revision returned. *)
Inductive built (dmp_diff : string → string → list (Z * list string))
    : LineLog → gmap Z string → Prop :=
  | built_new : built dmp_diff new_LineLog.1 {[ 0%Z := "" ]}
  | built_record st h text timestamp extra now st' r :
      built dmp_diff st h →
      recordText dmp_diff text timestamp extra now st = (st', Ok r) →
      built dmp_diff st' (<[r := text]> h).

(** [st] holds the history of [st0] and a view of one of its revisions:
    the cache is what [checkOut(lastCheckoutRev)] computes. *)
Definition view_of (st0 st : LineLog) : Prop :=
  same_history st0 st
  ∧ (lastCheckoutRev st ≤ maxRev st)%Z
  ∧ head_view (code st) (lastCheckoutRev st) (lines st)
  ∧ content st = join (LineInfo.data <$> lines st).

(** The LineLogs reached from a new one by calls of [recordText] and of
    [checkOut] with one argument, where [recordText] is only called while
    [maxRev] is the revision checked out, as it is in a new LineLog and
    after every [recordText]. *)
Inductive reached (dmp_diff : string → string → list (Z * list string))
    : LineLog → gmap Z string → Prop :=
  | reached_new : reached dmp_diff new_LineLog.1 {[ 0%Z := "" ]}
  | reached_recordText st h text timestamp extra now st' r :
      reached dmp_diff st h →
      lastCheckoutRev st = maxRev st →
      recordText dmp_diff text timestamp extra now st = (st', Ok r) →
      reached dmp_diff st' (<[r := text]> h)
  | reached_checkOut st h rev st' :
      reached dmp_diff st h →
      checkOut rev None st = (st', Ok tt) →
      reached dmp_diff st' h.

(** ** A small history, used to instantiate the theorems

    Two lines recorded, then the second one removed. *)
Definition example_log1 : LineLog :=
  (recordText ref_diff (text_of ["a"; "b"]) (Some 10%Z) None 0%Z new_LineLog.1).1.
Definition example_log : LineLog :=
  (recordText ref_diff (text_of ["a"]) (Some 20%Z) None 0%Z example_log1).1.
Definition example_history : gmap Z string :=
  <[2%Z := text_of ["a"]]> (<[1%Z := text_of ["a"; "b"]]> {[ 0%Z := "" ]}).
(** The same history with revision 1 checked out. *)
Definition example_view : LineLog := (checkOut 1%Z None example_log).1.

(** ** Lines of a text *)

(** [s.indexOf('\n') !== -1]. *)
Fixpoint has_nl (s : string) : bool :=
  match s with
  | EmptyString => false
  | String c s' => Ascii.eqb c nl || has_nl s'
  end.

(** A line that ends with its only newline. *)
Definition full_line (l : string) : Prop :=
  ∃ body, l = body +:+ NL ∧ has_nl body = false.

(** ** [editChunk] on any LineLog

    The outcome of [editChunk] in full.  The two assertions come first; the
    line at [a1] and, after the instructions are appended, the instruction
    it points at are read next, and reading either may fail. *)

(** The target of the [JGE]: [this.lines[a2 - 1].pc + 1] when [a1 < a2]. *)
Definition a2Pc_of (a1 a2 : LineIdx) (st : LineLog) : option Pc :=
  if bool_decide (a1 < a2)
  then (λ l2, LineInfo.pc l2 + 1) <$> lines st !! (a2 - 1) else None.

(** The program when [this.code[a1Pc]] is read. *)
Definition appended_code (a1 a2 : LineIdx) (rev : Rev) (newLines : list string)
    (st : LineLog) : list Inst :=
  code st ++ ins_part rev (length (code st)) newLines ++ del_part rev (a2Pc_of a1 a2 st).

Definition editChunk_outcome (a1 a2 : LineIdx) (rev : Rev) (newLines : list string)
    (st : LineLog) : LineLog * outcome unit :=
  if negb (bool_decide (a1 ≤ a2)) then (st, Throw "illegal chunk (a1 < a2)")
  else if negb (bool_decide (a2 ≤ length (lines st)))
  then (st, Throw "out of bound a2 (forgot checkOut?)")
  else
    match lines st !! a1 with
    | None => (st, Throw type_error)
    | Some l1 =>
        let ext := appended_code a1 a2 rev newLines st in
        match ext !! LineInfo.pc l1 with
        | None =>
            (set_lines (<[a1 := LineInfo.set_pc (length ext) l1]> (lines st))
               (set_code ext st), Throw type_error)
        | Some orig =>
            (editChunk_result a1 a2 rev newLines l1 orig (a2Pc_of a1 a2 st) st, Ok tt)
        end
    end.

(** ** The two paths of [recordText] that change the LineLog *)

(** The state on which the general path calls [editChunk]: the new
    timestamp and, when given, the new [extra] are stored first. *)
Definition annotated (rev : Rev) (ts : Z) (extra : option Extra) (st : LineLog) : LineLog :=
  match extra with
  | Some e => set_extraMap (<[rev := e]> (extraMap st)) (set_tsMap (<[rev := ts]> (tsMap st)) st)
  | None => set_tsMap (<[rev := ts]> (tsMap st)) st
  end.

(** The state the trivial path leaves. *)
Definition trivial_result (text : string) (ts : Z) (a1 : LineIdx) (l1 : LineInfo.t)
    (r : Rev) (newLine : string) (st : LineLog) : LineLog :=
  set_content text
    (set_lines (<[a1 := LineInfo.set_data newLine l1]> (lines st))
       (set_code (<[LineInfo.pc l1 := LINE r newLine]> (code st))
          (set_tsMap (<[maxRev st := ts]> (tsMap st)) st))).

(** ** States used to instantiate the theorems on any LineLog *)

(** A program that never reaches [END]. *)
Definition looping_log : LineLog := mkLineLog [J 0] ∅ ∅ 0%Z (-1)%Z [] "".

(** The lines [execute] returns, [[]] when it throws. *)
Definition lines_of (r : LineLog * outcome (list LineInfo.t)) : list LineInfo.t :=
  match r.2 with Ok ls => ls | Throw _ => [] end.

(** ** Timestamps *)

(** The revision of every [LINE] of the program has a timestamp. *)
Definition stamped (st : LineLog) : Prop :=
  ∀ pc r d, code st !! pc = Some (LINE r d) → is_Some (tsMap st !! r).

(** ** Blocks as a patch *)

(** In [recordText] the blocks are applied from the last to the first, and
    each call of [editChunk] splices the data of [lines]:
    [lines.splice(a1, a2 - a1, ...blines.slice(b1, b2))]. *)
Definition splice_block (blines : list string) (acc : list string) (b : Block) : list string :=
  let '(a1, a2, b1, b2) := b in
  take a1 acc ++ take (b2 - b1) (drop b1 blines) ++ drop a2 acc.

Definition splice_blocks (alines blines : list string) (blocks : list Block) : list string :=
  foldl (splice_block blines) alines (reverse blocks).

(** A block comes before another, on both sides. *)
Definition block_before (b b' : Block) : Prop :=
  let '(_, a2, _, b2) := b in
  let '(a1', _, b1', _) := b' in
  a2 ≤ a1' ∧ b2 ≤ b1'.

(** ** The history of a file in git (git.js)

    [logFile] runs [git log] and scans its output line by line;
    [buildLineLogFromGitHistory] records the versions of the file from the
    oldest to the newest.  What the git processes return is input here. *)

(** [enum State { COMMIT, PATH, NEWLINE }]. *)
Inductive LogState : Type := COMMIT | PATH | NEWLINE.

(** [interface CommitPath { commit: string, path: string }]. *)
Record CommitPath : Type := mkCommitPath { cp_commit : string; cp_path : string }.

(** The variables [state], [commit] and [result] of the scan. *)
Record LogScan : Type := mkLogScan {
  ls_state : LogState; ls_commit : string; ls_result : list CommitPath
}.

(** The body of [for (const line of logOutput.split(/\r?\n/))]. *)
Definition logFile_line (sc : LogScan) (line : string) : LogScan :=
  match ls_state sc with
  | COMMIT =>
      if bool_decide (String.length line = 40)
      then mkLogScan PATH line (ls_result sc) else sc
  | PATH =>
      if bool_decide (0 < String.length line)
      then mkLogScan NEWLINE (ls_commit sc)
             (ls_result sc ++ [mkCommitPath (ls_commit sc) line])
      else mkLogScan COMMIT (ls_commit sc) (ls_result sc)
  | NEWLINE =>
      if bool_decide (line = "")
      then mkLogScan COMMIT (ls_commit sc) (ls_result sc) else sc
  end.

(** The scan of [logFile] over the pieces of [logOutput]. *)
Definition logFile_scan (pieces : list string) : list CommitPath :=
  ls_result (foldl logFile_line (mkLogScan COMMIT "" []) pieces).

(** What [git log --format=format:%H --name-only] prints for one commit:
    the hash, the path, an empty line. *)
Definition log_lines (e : CommitPath) : list string := [cp_commit e; cp_path e; ""].

(** [interface CommitInfo]; [timestamp] is the integer that [getCommit]
    read with [parseInt], in seconds. *)
Record CommitInfo : Type := mkCommitInfo {
  ci_commit : string; ci_author : string; ci_message : string; ci_timestamp : Z
}.

(** The object [{ commit: commitInfo, path }] given as [extra]. *)
Definition path_info (ci : CommitInfo) (path : string) : Extra :=
  [("commit", JObj [("commit", JStr (ci_commit ci)); ("author", JStr (ci_author ci));
                    ("message", JStr (ci_message ci));
                    ("timestamp", JNum (ci_timestamp ci))]);
   ("path", JStr path)].

Section Git.

Variable dmp_diff : string → string → list (Z * list string).
(** [reader.catFile(commit, path)] and [reader.getCommit(commit)]; [None]
    when either is rejected. *)
Variable fetch : CommitPath → option (string * CommitInfo).
(** [Date.now()] during the call of [recordText] for an entry. *)
Variable clock : CommitPath → Z.

(** The body of [for (const { commit, path } of history.reverse())]: what
    is thrown inside is caught and the loop goes on. *)
Definition build_step (st : LineLog) (e : CommitPath) : LineLog :=
  match fetch e with
  | None => st
  | Some (text, ci) =>
      (recordText dmp_diff text (Some (ci_timestamp ci * 1000)%Z)
         (Some (path_info ci (cp_path e))) (clock e) st).1
  end.

(** [buildLineLogFromGitHistory], from the history [logFile] returned. *)
Definition buildLineLog (history : list CommitPath) : LineLog :=
  foldl build_step new_LineLog.1 (reverse history).

End Git.

(** Hashes and a reader used to instantiate the theorems. *)
Definition hash_a : string := "aaaaaaaaaaaaaaaaaaaaaaaaaaaaaaaaaaaaaaaa".
Definition hash_b : string := "bbbbbbbbbbbbbbbbbbbbbbbbbbbbbbbbbbbbbbbb".
Definition example_fetch (e : CommitPath) : option (string * CommitInfo) :=
  if bool_decide (cp_commit e = hash_a)
  then Some (text_of ["a"; "b"], mkCommitInfo hash_a "ann" "Add f" 10%Z)
  else if bool_decide (cp_commit e = hash_b)
  then Some (text_of ["a"], mkCommitInfo hash_b "bob" "Edit f" 20%Z)
  else None.

(** * Properties *)

(* stdpp's solvers clear hypotheses that a section may have dropped *)
#[local] Set Warnings "-clear-no-such-hyp".

(** ** Reasoning in the monad *)

Lemma bind_Ok {A B : Type} (m : M A) (f : A → M B) st st' b :
  (m ≫= f) st = (st', Ok b) ↔ ∃ a st1, m st = (st1, Ok a) ∧ f a st1 = (st', Ok b).
Proof.
  unfold mbind, M_bind. destruct (m st) as [st1 [a|e]]; split.
  - eauto.
  - intros (a' & st1' & [= <- <-] & ?); done.
  - done.
  - intros (a' & st1' & ? & ?); done.
Qed.

Lemma bind_eq {A B : Type} (m : M A) (f : A → M B) st st1 a :
  m st = (st1, Ok a) → (m ≫= f) st = f a st1.
Proof. unfold mbind, M_bind. by intros ->. Qed.

Lemma bind_throw {A B : Type} (m : M A) (f : A → M B) st st1 e :
  m st = (st1, Throw e) → (m ≫= f) st = (st1, Throw e).
Proof. unfold mbind, M_bind. by intros ->. Qed.

Lemma assert_true msg st : assert true msg st = (st, Ok tt).
Proof. done. Qed.

Lemma bind_get {B : Type} (f : LineLog → M B) st : (get ≫= f) st = f st st.
Proof. done. Qed.

Lemma bind_modify {B : Type} g (f : unit → M B) st : (modify g ≫= f) st = f tt (g st).
Proof. done. Qed.

Lemma bind_ret {A B : Type} (a : A) (f : A → M B) st : (mret a ≫= f) st = f a st.
Proof. done. Qed.

Lemma bind_throw_now {A B : Type} e (f : A → M B) st : (throw e ≫= f) st = (st, Throw e).
Proof. done. Qed.

Lemma bind_lift {A B : Type} (o : outcome A) (f : A → M B) st :
  (lift o ≫= f) st = match o with Ok a => f a st | Throw e => (st, Throw e) end.
Proof. by destruct o. Qed.

Lemma bind_assoc {A B C : Type} (m : M A) (f : A → M B) (g : B → M C) st :
  ((m ≫= f) ≫= g) st = (m ≫= (λ a, f a ≫= g)) st.
Proof. unfold mbind, M_bind. by destruct (m st) as [? [?|?]]. Qed.

Lemma bind_execute {B : Type} startRev endRev present (f : list LineInfo.t → M B) st :
  (execute startRev endRev present ≫= f) st
  = match execute_loop (code st) startRev endRev (deleted_of present)
            (length (code st) * 2) 0 with
    | Ok ls => f ls st
    | Throw e => (st, Throw e)
    end.
Proof. unfold execute. by rewrite bind_assoc, bind_get, bind_lift. Qed.

Lemma bind_assert {B : Type} (b : bool) msg (f : unit → M B) st :
  (assert b msg ≫= f) st = if b then f tt st else (st, Throw msg).
Proof. by destruct b. Qed.

Ltac msimpl :=
  repeat first
    [ rewrite bind_get | rewrite bind_modify | rewrite bind_ret
    | rewrite bind_throw_now | rewrite bind_execute | rewrite bind_assert
    | rewrite assert_true | rewrite bind_assoc ];
  cbn beta.

(** ** The interpreter and [checkOut] are views *)

Lemma execute_state startRev endRev present st :
  (execute startRev endRev present st).1 = st.
Proof.
  unfold execute. rewrite (bind_eq get _ st st st); [|done]. done.
Qed.

Lemma execute_unfold startRev endRev present st :
  execute startRev endRev present st
  = (st, execute_loop (code st) startRev endRev (deleted_of present)
           (length (code st) * 2) 0).
Proof. done. Qed.

Lemma checkOut_unfold rev start st :
  checkOut rev start st = checkOut_result rev start st.
Proof.
  unfold checkOut, checkOut_result. msimpl. cbv zeta.
  destruct (bool_decide _ && bool_decide _); [done|].
  msimpl. cbn [code set_lastCheckoutRev].
  destruct (execute_loop (code st) _ _ _ _ _) as [ls|e]; [|done].
  destruct start as [s|]; msimpl; [|done].
  cbn [code set_lastCheckoutRev].
  destruct (execute_loop (code st) _ _ _ _ _) as [ls2|e]; done.
Qed.

Lemma checkOut_same_history rev start st :
  same_history st (checkOut rev start st).1.
Proof.
  rewrite checkOut_unfold. unfold checkOut_result, same_history.
  repeat (case_match; simpl); done.
Qed.

Lemma LineLog_eq (a b : LineLog) :
  code a = code b → tsMap a = tsMap b → extraMap a = extraMap b →
  maxRev a = maxRev b → lastCheckoutRev a = lastCheckoutRev b →
  lines a = lines b → content a = content b → a = b.
Proof. destruct a, b; simpl; by intros -> -> -> -> -> -> ->. Qed.

(** Reading a field after the setters; the setters are never unfolded on
    their own, which would copy the state once per field. *)
Ltac fields :=
  cbn [code tsMap extraMap maxRev lastCheckoutRev lines content
       set_code set_tsMap set_extraMap set_maxRev set_lastCheckoutRev
       set_lines set_content].

(** One step of a bind whose first computation is known by a lemma. *)
Tactic Notation "mstep" uconstr(lem) :=
  lazymatch goal with
  | |- (?m ≫= ?f) ?s = _ => rewrite (bind_eq m f s _ _ lem)
  end.

(** Case analysis on the first computation of a bind. *)
Ltac mcase H :=
  lazymatch goal with
  | |- context [ (?m ≫= ?f) ?st ] =>
      let st1 := fresh "st" in let a := fresh "a" in let e := fresh "e" in
      destruct (m st) as [st1 [a|e]] eqn:H;
      [ rewrite (bind_eq m f st st1 a H) | rewrite (bind_throw m f st st1 e H) ]
  end.

Section Basic.
Context (dmp_diff : string → string → list (Z * list string)).

Lemma recordText_content text timestamp extra now st st' r :
  recordText dmp_diff text timestamp extra now st = (st', Ok r) →
  content st' = text.
Proof.
  unfold recordText. msimpl. cbv zeta.
  case_bool_decide as Htext; [by intros [= <- _]|].
  mcase Hco; [|done]. msimpl.
  mcase Hfast; [|done].
  destruct a0 as [rev|].
  - (* the trivial update *)
    msimpl. intros [= <- <-]. revert Hfast.
    repeat first [ case_match | progress msimpl ]; try done.
    all: unfold mret, M_ret; by intros [= <- _].
  - msimpl. cbv zeta.
    destruct extra as [e|]; msimpl.
    + mcase Hed; [|done]. msimpl. by intros [= <- <-].
    + mcase Hed; [|done]. msimpl. by intros [= <- <-].
Qed.

End Basic.

(** ** Lines and the reference collaborators *)

Lemma string_app_cons c s t : String c s +:+ t = String c (s +:+ t).
Proof. done. Qed.

Lemma string_app_nil s : "" +:+ s = s.
Proof. done. Qed.

Lemma string_app_assoc s t u : (s +:+ t) +:+ u = s +:+ (t +:+ u).
Proof.
  induction s as [|c s IH]; [done|].
  by rewrite !string_app_cons, IH.
Qed.

Lemma string_app_nil_r s : s +:+ "" = s.
Proof. induction s as [|c s IH]; [done|]. by rewrite string_app_cons, IH. Qed.

Lemma cut_line_app s l r : cut_line s = (l, r) → s = l +:+ r.
Proof.
  revert l r. induction s as [|c s IH]; intros l r; simpl.
  - by intros [= <- <-].
  - destruct (Ascii.eqb c nl).
    + by intros [= <- <-].
    + destruct (cut_line s) as [l' r']. intros [= <- <-].
      rewrite string_app_cons. f_equal. by apply IH.
Qed.

Lemma cut_line_length s l r :
  cut_line s = (l, r) → s ≠ "" → String.length r < String.length s.
Proof.
  revert l r. induction s as [|c s IH]; intros l r; simpl; [done|].
  destruct (Ascii.eqb c nl).
  - intros [= <- <-] _. lia.
  - destruct (cut_line s) as [l' r'] eqn:Hs. intros [= <- <-] _.
    destruct s as [|c' s'].
    + simpl in Hs. injection Hs as <- <-. simpl. lia.
    + specialize (IH _ _ eq_refl ltac:(done)). lia.
Qed.

Lemma splitLines_loop_join n s :
  String.length s ≤ n → join (splitLines_loop n s) = s.
Proof.
  revert s. induction n as [|n IH]; intros s Hn.
  - destruct s; simpl in *; [done|lia].
  - destruct s as [|c s]; [done|].
    cbn [splitLines_loop]. destruct (cut_line (String c s)) as [l r] eqn:Hcut.
    cbn [join foldr]. fold (join (splitLines_loop n r)).
    rewrite IH.
    + symmetry. by apply cut_line_app.
    + apply cut_line_length in Hcut; [|done]. simpl in *. lia.
Qed.

(** Joining the lines of a text gives the text back. *)
Lemma splitLines_join s : join (splitLines s) = s.
Proof. by apply splitLines_loop_join. Qed.

Lemma join_app xs ys : join (xs ++ ys) = join xs +:+ join ys.
Proof.
  induction xs as [|x xs IH]; simpl; [done|].
  unfold join in *. simpl. rewrite IH.
  by rewrite string_app_assoc.
Qed.

Lemma splitLines_inj a b : splitLines a = splitLines b → a = b.
Proof. intros H. by rewrite <-(splitLines_join a), <-(splitLines_join b), H. Qed.

Lemma script_a_cons op cs ds :
  script_a ((op, cs) :: ds)
  = if bool_decide (op ≤ 0)%Z then cs ++ script_a ds else script_a ds.
Proof.
  unfold script_a. case_bool_decide.
  - by rewrite filter_cons_True.
  - by rewrite filter_cons_False.
Qed.

Lemma script_b_cons op cs ds :
  script_b ((op, cs) :: ds)
  = if bool_decide (0 ≤ op)%Z then cs ++ script_b ds else script_b ds.
Proof.
  unfold script_b. case_bool_decide.
  - by rewrite filter_cons_True.
  - by rewrite filter_cons_False.
Qed.

Lemma line_diff_nil_l b :
  script_a (line_diff [] b) = [] ∧ script_b (line_diff [] b) = b.
Proof.
  cbn [line_diff]. induction b as [|y b [IH1 IH2]]; [done|].
  rewrite fmap_cons, script_a_cons, script_b_cons. cbn. by rewrite IH1, IH2.
Qed.

Lemma line_diff_nil_r (a : list string) :
  script_a ((λ x, ((-1)%Z, [x])) <$> a) = a
  ∧ script_b ((λ x, ((-1)%Z, [x])) <$> a) = [].
Proof.
  induction a as [|x a [IH1 IH2]]; [done|].
  rewrite fmap_cons, script_a_cons, script_b_cons. cbn. by rewrite IH1, IH2.
Qed.

Lemma line_diff_cons x a y b :
  line_diff (x :: a) (y :: b)
  = if decide (x = y) then (0%Z, [x]) :: line_diff a b
    else if bool_decide (x ∈ b) then (1%Z, [y]) :: line_diff (x :: a) b
    else ((-1)%Z, [x]) :: line_diff a (y :: b).
Proof. done. Qed.

Lemma line_diff_sound a b :
  script_a (line_diff a b) = a ∧ script_b (line_diff a b) = b.
Proof.
  revert b. induction a as [|x a IHa]; intros b; [apply line_diff_nil_l|].
  induction b as [|y b [IHb1 IHb2]].
  - apply (line_diff_nil_r (x :: a)).
  - rewrite line_diff_cons. destruct (decide (x = y)) as [<-|Hxy].
    + destruct (IHa b) as [IH1 IH2].
      rewrite script_a_cons, script_b_cons.
      repeat (case_bool_decide; try lia). by rewrite IH1, IH2.
    + case_bool_decide.
      * rewrite script_a_cons, script_b_cons.
        repeat (case_bool_decide; try lia). by rewrite IHb1, IHb2.
      * destruct (IHa (y :: b)) as [IH1 IH2].
        rewrite script_a_cons, script_b_cons.
        repeat (case_bool_decide; try lia). by rewrite IH1, IH2.
Qed.

Lemma ref_diff_sound : diff_sound ref_diff.
Proof. intros a b. apply line_diff_sound. Qed.

Lemma ref_codec_sound : codec_sound ref_gzip_stringify ref_parse_gunzip.
Proof. done. Qed.

(** ** [diffLines] yields the blocks of an alignment *)

Lemma aligned_cons' pa pb e d i la lb blocks a1 a2 b1 b2 xa xb :
  xa = e ++ d ++ la → xb = e ++ i ++ lb →
  a1 = pa + length e → a2 = a1 + length d →
  b1 = pb + length e → b2 = b1 + length i →
  d ≠ [] ∨ i ≠ [] →
  aligned a2 b2 la lb blocks →
  aligned pa pb xa xb ((a1, a2, b1, b2) :: blocks).
Proof. intros -> -> -> -> -> -> ? ?. by constructor. Qed.

Lemma aligned_prepend e pa pb la lb blocks :
  aligned (pa + length e) (pb + length e) la lb blocks →
  aligned pa pb (e ++ la) (e ++ lb) blocks.
Proof.
  inversion 1 as [? ? e0|? ? e0 d i la0 lb0 blocks0 Hne Hrest]; subst.
  - apply aligned_nil.
  - eapply (aligned_cons' _ _ (e ++ e0) d i la0 lb0); try done.
    + by rewrite <-!app_assoc.
    + by rewrite <-!app_assoc.
    + rewrite length_app. lia.
    + rewrite length_app. lia.
Qed.

Lemma push_blocks len d :
  ds_blocks (push len d)
  = ds_blocks d ++
    (if bool_decide (ds_a1 d = ds_a2 d ∧ ds_b1 d = ds_b2 d) then []
     else [(ds_a1 d, ds_a2 d, ds_b1 d, ds_b2 d)]).
Proof.
  unfold push. cbn [ds_blocks].
  destruct (Nat.eqb_spec (ds_a1 d) (ds_a2 d)), (Nat.eqb_spec (ds_b1 d) (ds_b2 d));
    cbn; case_bool_decide; try done; try (by rewrite app_nil_r); naive_solver.
  (* four cases on the two comparisons *)
Qed.

Lemma diff_step_del d op chars :
  (op < 0)%Z →
  diff_step d (op, chars)
  = mkDiffState (ds_a1 d) (ds_a2 d + length chars) (ds_b1 d) (ds_b2 d) (ds_blocks d).
Proof.
  intros. unfold diff_step.
  by rewrite (bool_decide_eq_false_2 (op = 0)%Z), (bool_decide_eq_true_2 (op < 0)%Z),
    (bool_decide_eq_false_2 (op > 0)%Z) by lia.
Qed.

Lemma diff_step_ins d op chars :
  (0 < op)%Z →
  diff_step d (op, chars)
  = mkDiffState (ds_a1 d) (ds_a2 d) (ds_b1 d) (ds_b2 d + length chars) (ds_blocks d).
Proof.
  intros. unfold diff_step.
  by rewrite (bool_decide_eq_false_2 (op = 0)%Z), (bool_decide_eq_false_2 (op < 0)%Z),
    (bool_decide_eq_true_2 (op > 0)%Z) by lia.
Qed.

Lemma diff_step_eq d chars : diff_step d (0%Z, chars) = push (length chars) d.
Proof. done. Qed.

Lemma diff_fold_aligned ds : ∀ d pd pi,
  ds_a2 d = ds_a1 d + length pd → ds_b2 d = ds_b1 d + length pi →
  ∃ tl, ds_blocks (push 0 (foldl diff_step d ds)) = ds_blocks d ++ tl
        ∧ aligned (ds_a1 d) (ds_b1 d) (pd ++ script_a ds) (pi ++ script_b ds) tl.
Proof.
  induction ds as [|[op chars] ds IH]; intros d pd pi Ha Hb.
  - cbn [foldl]. rewrite push_blocks. eexists; split; [done|].
    unfold script_a, script_b; cbn. rewrite !app_nil_r.
    case_bool_decide as Heq.
    + destruct Heq as [Heq1 Heq2].
      destruct pd; [|simpl in *; lia]. destruct pi; [|simpl in *; lia].
      apply aligned_nil.
    + eapply (aligned_cons' _ _ [] pd pi [] []);
        [by rewrite ?app_nil_r | by rewrite ?app_nil_r
        | cbn; lia | cbn; lia | cbn; lia | cbn; lia | | apply aligned_nil].
      destruct pd, pi; auto. simpl in *. destruct Heq. lia.
  - cbn [foldl]. rewrite script_a_cons, script_b_cons.
    destruct (Z.lt_trichotomy op 0) as [Hop|[->|Hop]].
    + (* a deletion *)
      rewrite diff_step_del by done.
      rewrite (bool_decide_eq_true_2 (op ≤ 0)%Z), (bool_decide_eq_false_2 (0 ≤ op)%Z) by lia.
      destruct (IH (mkDiffState (ds_a1 d) (ds_a2 d + length chars) (ds_b1 d) (ds_b2 d)
                      (ds_blocks d)) (pd ++ chars) pi) as (tl & Htl & Hal).
      { cbn. rewrite length_app. lia. }
      { done. }
      exists tl. split; [done|]. cbn in Hal. by rewrite <-app_assoc in Hal.
    + (* an equality *)
      rewrite diff_step_eq.
      rewrite (bool_decide_eq_true_2 (0 ≤ 0)%Z) by lia.
      destruct (IH (push (length chars) d) [] []) as (tl & Htl & Hal).
      { unfold push; cbn. lia. }
      { unfold push; cbn. lia. }
      rewrite Htl, push_blocks, <-app_assoc. eexists; split; [done|].
      cbn in Hal.
      case_bool_decide as Heq.
      * destruct Heq as [Heq1 Heq2].
        destruct pd; [|simpl in *; lia]. destruct pi; [|simpl in *; lia].
        cbn. apply aligned_prepend.
        rewrite Heq1, Heq2. exact Hal.
      * eapply (aligned_cons' _ _ [] pd pi);
          [done | done | cbn; lia | cbn; lia | cbn; lia | cbn; lia | | ].
        -- destruct pd, pi; auto. simpl in *. destruct Heq. lia.
        -- apply aligned_prepend. exact Hal.
    + (* an insertion *)
      rewrite diff_step_ins by done.
      rewrite (bool_decide_eq_false_2 (op ≤ 0)%Z), (bool_decide_eq_true_2 (0 ≤ op)%Z) by lia.
      destruct (IH (mkDiffState (ds_a1 d) (ds_a2 d) (ds_b1 d) (ds_b2 d + length chars)
                      (ds_blocks d)) pd (pi ++ chars)) as (tl & Htl & Hal).
      { done. }
      { cbn. rewrite length_app. lia. }
      exists tl. split; [done|]. cbn in Hal. by rewrite <-app_assoc in Hal.
Qed.

(** The blocks of [diffLines] align the lines of [a] with the lines of [b]. *)
Lemma diffLines_aligned dmp_diff a b :
  diff_sound dmp_diff →
  aligned 0 0 (splitLines a) (splitLines b) (diffLines dmp_diff a b).
Proof.
  intros Hd. destruct (Hd a b) as [Ha Hb]. unfold diffLines.
  destruct (diff_fold_aligned (dmp_diff a b) (mkDiffState 0 0 0 0 []) [] [])
    as (tl & Htl & Hal); [done..|].
  rewrite Htl. cbn in *. by rewrite Ha, Hb in Hal.
Qed.

Lemma aligned_nil_inv pa pb la lb : aligned pa pb la lb [] → la = lb.
Proof. by inversion 1. Qed.

Lemma diffLines_nonempty dmp_diff a b :
  diff_sound dmp_diff → a ≠ b → diffLines dmp_diff a b ≠ [].
Proof.
  intros Hd Hab Hnil. apply Hab, splitLines_inj.
  pose proof (diffLines_aligned dmp_diff a b Hd) as Hal.
  rewrite Hnil in Hal. by eapply aligned_nil_inv.
Qed.

(** ** Executions *)

Lemma next_pc_succs s e pc i q : next_pc s e pc i = Some q → q ∈ succs pc i.
Proof.
  destruct i; simpl; intros [= <-]; try case_bool_decide; set_solver.
Qed.

Lemma run_det c s e pc vs vs' : run c s e pc vs → run c s e pc vs' → vs = vs'.
Proof.
  intros Hrun. revert vs'.
  induction Hrun as [pc Hpc|pc i pc' vs Hpc Hnext _ IH]; intros vs' Hrun'.
  - inversion Hrun' as [|? i' ? ? Hpc' Hnext']; subst; [done|].
    rewrite Hpc in Hpc'. by injection Hpc' as <-.
  - inversion Hrun' as [? Hpc'|? i' ? ? Hpc' Hnext' Hrest]; subst.
    + rewrite Hpc in Hpc'. by injection Hpc' as ->.
    + rewrite Hpc in Hpc'. injection Hpc' as <-.
      rewrite Hnext in Hnext'. injection Hnext' as <-.
      f_equal. by apply IH.
Qed.

Lemma run_head c s e pc vs : run c s e pc vs → ∃ vs', vs = pc :: vs'.
Proof. destruct 1; eauto. Qed.

Lemma run_lookup c s e pc vs x : run c s e pc vs → x ∈ vs → is_Some (c !! x).
Proof.
  induction 1 as [pc Hpc|pc i pc' vs Hpc Hnext _ IH]; intros Hx.
  - apply list_elem_of_singleton in Hx as ->. eauto.
  - apply elem_of_cons in Hx as [->|Hx]; eauto.
Qed.

Lemma emit_cons c del pc vs :
  emit c del (pc :: vs)
  = match emit_line c del pc with Some l => l :: emit c del vs | None => emit c del vs end.
Proof. done. Qed.

Lemma emit_app c del vs vs' : emit c del (vs ++ vs') = emit c del vs ++ emit c del vs'.
Proof. apply omap_app. Qed.

(** The loop of [execute] performs the run, if its patience lasts. *)
Lemma execute_loop_run c s e del pc vs n :
  run c s e pc vs → length vs ≤ n →
  execute_loop c s e del n pc = Ok (emit c del vs).
Proof.
  intros Hrun. revert n.
  induction Hrun as [pc Hpc|pc i pc' vs Hpc Hnext _ IH]; intros n Hn.
  - destruct n as [|n]; [simpl in Hn; lia|].
    cbn [execute_loop]. rewrite Hpc. rewrite emit_cons. unfold emit_line. by rewrite Hpc.
  - destruct n as [|n]; [simpl in Hn; lia|]. simpl in Hn.
    specialize (IH n ltac:(lia)).
    cbn [execute_loop]. rewrite Hpc. rewrite emit_cons. unfold emit_line. rewrite Hpc.
    destruct i; simpl in Hnext; try done; injection Hnext as <-; by rewrite IH.
Qed.

Lemma execute_loop_timeout c s e del pc vs n :
  run c s e pc vs → n < length vs →
  execute_loop c s e del n pc = Throw timeout_msg.
Proof.
  intros Hrun. revert n.
  induction Hrun as [pc Hpc|pc i pc' vs Hpc Hnext _ IH]; intros n Hn.
  - destruct n as [|n]; [done|simpl in Hn; lia].
  - destruct n as [|n]; [done|]. simpl in Hn.
    specialize (IH n ltac:(lia)).
    cbn [execute_loop]. rewrite Hpc.
    destruct i; simpl in Hnext; try done; injection Hnext as <-; by rewrite IH.
Qed.

Lemma execute_loop_Ok c s e del n pc ls :
  execute_loop c s e del n pc = Ok ls →
  ∃ vs, run c s e pc vs ∧ length vs ≤ n ∧ ls = emit c del vs.
Proof.
  revert pc ls. induction n as [|n IH]; intros pc ls; [done|].
  simpl. destruct (c !! pc) as [i|] eqn:Hpc; [|done].
  destruct i as [t|r t|r t|r d|]; intros Hex.
  - destruct (IH _ _ Hex) as (vs & Hrun & Hlen & ->).
    exists (pc :: vs). split_and!; [by eapply run_step|simpl; lia|].
    rewrite emit_cons. unfold emit_line. by rewrite Hpc.
  - destruct (IH _ _ Hex) as (vs & Hrun & Hlen & ->).
    exists (pc :: vs). split_and!; [by eapply run_step|simpl; lia|].
    rewrite emit_cons. unfold emit_line. by rewrite Hpc.
  - destruct (IH _ _ Hex) as (vs & Hrun & Hlen & ->).
    exists (pc :: vs). split_and!; [by eapply run_step|simpl; lia|].
    rewrite emit_cons. unfold emit_line. by rewrite Hpc.
  - destruct (execute_loop c s e del n (pc + 1)) as [ls'|] eqn:Hex'; [|done].
    injection Hex as <-.
    destruct (IH _ _ Hex') as (vs & Hrun & Hlen & ->).
    exists (pc :: vs). split_and!; [by eapply run_step|simpl; lia|].
    rewrite emit_cons. unfold emit_line. by rewrite Hpc.
  - injection Hex as <-. exists [pc]. split_and!; [by apply run_end|simpl; lia|].
    rewrite emit_cons. unfold emit_line. by rewrite Hpc.
Qed.

(** The loop runs out of patience exactly when it can make that many
    rounds without reading an [END]. *)
Lemma execute_loop_patience c s e del pc vs q :
  path c s e pc vs q → execute_loop c s e del (length vs) pc = Throw timeout_msg.
Proof.
  induction 1 as [pc|pc i pc' vs q Hpc Hnext _ IH]; [done|].
  cbn [length execute_loop]. rewrite Hpc.
  destruct i; simpl in Hnext; try done; injection Hnext as <-; by rewrite IH.
Qed.

Lemma execute_loop_out_of_patience c s e del n pc :
  execute_loop c s e del n pc = Throw timeout_msg →
  ∃ vs q, path c s e pc vs q ∧ length vs = n.
Proof.
  revert pc. induction n as [|n IH]; intros pc Hex.
  { exists [], pc. split; [constructor|done]. }
  cbn [execute_loop] in Hex. destruct (c !! pc) as [i|] eqn:Hpc; [|done].
  assert (∀ pc', next_pc s e pc i = Some pc' →
            execute_loop c s e del n pc' = Throw timeout_msg →
            ∃ vs q, path c s e pc vs q ∧ length vs = S n) as Hstep.
  { intros pc' Hnext Hex'. destruct (IH _ Hex') as (vs & q & Hpath & Hlen).
    exists (pc :: vs), q. split; [by eapply path_step|]. by rewrite <-Hlen. }
  destruct i as [t|r t|r t|r d|]; [by eapply Hstep..| |done].
  destruct (execute_loop c s e del n (pc + 1)) as [ls|msg] eqn:Hex'; [done|].
  injection Hex as ->. by eapply Hstep.
Qed.

(** ** Paths *)

Lemma path_app c s e pc vs q vs' q' :
  path c s e pc vs q → path c s e q vs' q' → path c s e pc (vs ++ vs') q'.
Proof.
  induction 1 as [|pc i pc' vs q Hpc Hnext _ IH]; intros Hp; [done|].
  simpl. eapply path_step; eauto.
Qed.

Lemma path_run c s e pc vs q vs' :
  path c s e pc vs q → run c s e q vs' → run c s e pc (vs ++ vs').
Proof.
  induction 1 as [|pc i pc' vs q Hpc Hnext _ IH]; intros Hr; [done|].
  simpl. eapply run_step; eauto.
Qed.

Lemma run_split c s e pc vs1 x vs2 :
  run c s e pc (vs1 ++ x :: vs2) →
  path c s e pc vs1 x ∧ run c s e x (x :: vs2).
Proof.
  revert pc. induction vs1 as [|y vs1 IH]; intros pc Hrun.
  - simpl in Hrun. destruct (run_head _ _ _ _ _ Hrun) as (? & [= -> _]).
    split; [constructor|done].
  - simpl in Hrun.
    inversion Hrun as [? Hpc Heq|? i pc' ? Hpc Hnext Hrest]; subst.
    + by destruct vs1.
    + destruct (IH _ Hrest) as [Hp Hr]. split; [|done].
      eapply path_step; eauto.
Qed.

Lemma path_one c s e pc i q :
  c !! pc = Some i → next_pc s e pc i = Some q → path c s e pc [pc] q.
Proof. intros. eapply path_step; eauto. constructor. Qed.

(** A run or a path only depends on the instructions it visits. *)
Lemma run_frame c c' s e pc vs :
  run c s e pc vs → (∀ x, x ∈ vs → c' !! x = c !! x) → run c' s e pc vs.
Proof.
  induction 1 as [pc Hpc|pc i pc' vs Hpc Hnext _ IH]; intros Hsame.
  - apply run_end. rewrite Hsame; [done|set_solver].
  - eapply run_step; [|done|].
    + rewrite Hsame; [done|set_solver].
    + apply IH. intros x Hx. apply Hsame. set_solver.
Qed.

Lemma path_frame c c' s e pc vs q :
  path c s e pc vs q → (∀ x, x ∈ vs → c' !! x = c !! x) → path c' s e pc vs q.
Proof.
  induction 1 as [|pc i pc' vs q Hpc Hnext _ IH]; intros Hsame; [constructor|].
  eapply path_step; [|done|].
  - rewrite Hsame; [done|set_solver].
  - apply IH. intros x Hx. apply Hsame. set_solver.
Qed.

Lemma emit_frame c c' del vs :
  (∀ x, x ∈ vs → c' !! x = c !! x) → emit c' del vs = emit c del vs.
Proof.
  induction vs as [|x vs IH]; intros Hsame; [done|].
  rewrite !emit_cons. unfold emit_line. rewrite Hsame by set_solver.
  rewrite IH; [done|]. intros y Hy. apply Hsame. set_solver.
Qed.

(** Revisions at or above every revision tested by a jump all give the
    same execution. *)
Lemma next_pc_saturated m s e s' e' pc i :
  match i with JGE r _ | JL r _ => (r ≤ m)%Z | _ => True end →
  (m ≤ s)%Z → (m ≤ e)%Z → (m ≤ s')%Z → (m ≤ e')%Z →
  next_pc s' e' pc i = next_pc s e pc i.
Proof.
  intros Hi ????. destruct i; simpl; try done;
    repeat case_bool_decide; try done; lia.
Qed.

Lemma run_saturated c m s e s' e' pc vs :
  jump_revs_le c m → (m ≤ s)%Z → (m ≤ e)%Z → (m ≤ s')%Z → (m ≤ e')%Z →
  run c s e pc vs → run c s' e' pc vs.
Proof.
  intros Hle ????. induction 1 as [pc Hpc|pc i pc' vs Hpc Hnext _ IH].
  - by apply run_end.
  - eapply run_step; [done| |done].
    rewrite <-Hnext. eapply next_pc_saturated; eauto. by apply (Hle pc).
Qed.

(** ** Ranked programs always reach [END] *)

Section Ranked.
Context (rank : nat → nat) (c : list Inst) (Hranked : ranked rank c).
Context (s e : Z).

Local Abbreviation R := (λ x y : nat, rank x < rank y).

Lemma ranked_next pc i q :
  c !! pc = Some i → next_pc s e pc i = Some q → q < length c ∧ rank pc < rank q.
Proof. intros Hpc Hnext. eapply Hranked; eauto using next_pc_succs. Qed.

Lemma run_rank_le pc vs x : run c s e pc vs → x ∈ vs → rank pc ≤ rank x.
Proof.
  induction 1 as [pc Hpc|pc i pc' vs Hpc Hnext _ IH]; intros Hx.
  - apply list_elem_of_singleton in Hx as ->. lia.
  - apply elem_of_cons in Hx as [->|Hx]; [lia|].
    destruct (ranked_next _ _ _ Hpc Hnext). specialize (IH Hx). lia.
Qed.

Lemma run_sorted pc vs : run c s e pc vs → StronglySorted R vs.
Proof.
  induction 1 as [pc Hpc|pc i pc' vs Hpc Hnext Hrun IH].
  - repeat constructor.
  - constructor; [done|]. apply Forall_forall. intros x Hx.
    destruct (ranked_next _ _ _ Hpc Hnext).
    pose proof (run_rank_le _ _ _ Hrun Hx). lia.
Qed.

Lemma path_rank pc vs q :
  path c s e pc vs q →
  rank pc ≤ rank q ∧ ∀ x, x ∈ vs → rank pc ≤ rank x ∧ rank x < rank q.
Proof.
  induction 1 as [|pc i pc' vs q Hpc Hnext _ [IH1 IH2]].
  - split; [lia|]. intros x Hx. by apply elem_of_nil in Hx.
  - destruct (ranked_next _ _ _ Hpc Hnext). split; [lia|].
    intros x [->|Hx]%elem_of_cons; [lia|]. specialize (IH2 _ Hx). lia.
Qed.

Lemma sorted_NoDup (vs : list nat) : StronglySorted R vs → NoDup vs.
Proof.
  induction 1 as [|x vs _ IH Hall]; constructor; [|done].
  intros Hx. rewrite Forall_forall in Hall. specialize (Hall _ Hx). lia.
Qed.

Lemma run_NoDup pc vs : run c s e pc vs → NoDup vs.
Proof. intros. eapply sorted_NoDup, run_sorted; eauto. Qed.

Lemma run_bound pc vs x : run c s e pc vs → x ∈ vs → x < length c.
Proof. intros Hrun Hx. eapply lookup_lt_is_Some, run_lookup; eauto. Qed.

(** A run visits no program counter twice, so it is no longer than the
    program. *)
Lemma run_length pc vs : run c s e pc vs → length vs ≤ length c.
Proof.
  intros Hrun. trans (length (seq 0 (length c))); [|by rewrite length_seq].
  apply submseteq_length, NoDup_submseteq; [by eapply run_NoDup|].
  intros x Hx. apply elem_of_seq. pose proof (run_bound _ _ _ Hrun Hx). lia.
Qed.

Lemma rank_bounded : ∃ b, ∀ x, x < length c → rank x < b.
Proof.
  exists (S (max_list (rank <$> seq 0 (length c)))). intros x Hx.
  apply Nat.lt_succ_r, max_list_elem_of_le, list_elem_of_fmap.
  exists x. split; [done|]. apply elem_of_seq. lia.
Qed.

Lemma run_total pc : pc < length c → ∃ vs, run c s e pc vs.
Proof.
  destruct rank_bounded as [b Hb]. intros Hpc.
  remember (b - rank pc) as n eqn:Hn.
  assert (b - rank pc ≤ n) as Hle by lia. clear Hn.
  revert pc Hpc Hle. induction n as [|n IH]; intros pc Hpc Hle.
  { specialize (Hb _ Hpc). lia. }
  destruct (lookup_lt_is_Some_2 c pc Hpc) as [i Hi].
  destruct (next_pc s e pc i) as [q|] eqn:Hnext.
  - destruct (ranked_next _ _ _ Hi Hnext) as [Hq Hrk].
    destruct (IH q Hq) as [vs Hvs]; [lia|].
    exists (pc :: vs). by eapply run_step.
  - destruct i; try done. exists [pc]. by apply run_end.
Qed.

End Ranked.

(** On a ranked program [execute] returns, whatever the revisions asked
    for, after at most as many rounds as the program has instructions. *)
Lemma ranked_execute_loop rank c s e del :
  ranked rank c → c ≠ [] →
  ∃ vs, run c s e 0 vs ∧ length vs ≤ length c
        ∧ execute_loop c s e del (length c * 2) 0 = Ok (emit c del vs).
Proof.
  intros Hr Hne. destruct (run_total rank c Hr s e 0) as [vs Hvs].
  { destruct c; [done|simpl; lia]. }
  pose proof (run_length rank c Hr s e _ _ Hvs).
  exists vs. split_and!; [done..|]. apply execute_loop_run; [done|lia].
Qed.

(** ** One call of [editChunk] *)

Lemma set_code_id st : set_code (code st) st = st.
Proof. by destruct st. Qed.

Lemma ins_block_ok rev newLines st :
  (if bool_decide (0 < length newLines) then
     modify (λ st0, set_code
        (code st0 ++ [JL rev (length (code st) + length newLines + 1)]) st0);;
     modify (λ st0, set_code (code st0 ++ (LINE rev <$> newLines)) st0);;
     st0 ← get;
     assert (bool_decide (length (code st) + length newLines + 1 = length (code st0)))
       "bug: wrong pc"
   else mret tt) st
  = (set_code (code st ++ ins_part rev (length (code st)) newLines) st, Ok tt).
Proof.
  unfold ins_part. case_bool_decide.
  - msimpl. fields.
    rewrite bool_decide_eq_true_2
      by (rewrite !length_app, length_fmap; simpl; lia).
    rewrite assert_true. f_equal.
    apply LineLog_eq; fields; try done. by rewrite <-app_assoc.
  - by rewrite app_nil_r, set_code_id.
Qed.

Lemma del_block_ok (a1 a2 : nat) rev st :
  a2 ≤ length (lines st) →
  (if bool_decide (a1 < a2) then
     st0 ← get;
     match lines st0 !! (a2 - 1) with
     | None => throw type_error
     | Some l2 =>
         modify (λ st1, set_code (code st1 ++ [JGE rev (LineInfo.pc l2 + 1)]) st1)
     end
   else mret tt) st
  = (set_code (code st ++ del_part rev
       (if bool_decide (a1 < a2)
        then (λ l2, LineInfo.pc l2 + 1) <$> lines st !! (a2 - 1) else None)) st, Ok tt).
Proof.
  intros H2. case_bool_decide.
  - msimpl. destruct (lookup_lt_is_Some_2 (lines st) (a2 - 1)) as [l2 ->]; [lia|].
    done.
  - cbn. by rewrite app_nil_r, set_code_id.
Qed.

Lemma tail_block_ok orig (a1Pc : nat) st :
  (match orig with
   | J _ | END => mret tt
   | _ => modify (λ st0, set_code (code st0 ++ [J (a1Pc + 1)]) st0)
   end) st
  = (set_code (code st ++ match orig with J _ | END => [] | _ => [J (a1Pc + 1)] end) st,
     Ok tt).
Proof. destruct orig; try done; by rewrite app_nil_r, set_code_id. Qed.

Lemma maxRev_block_ok rev st :
  (if bool_decide (maxRev st < rev)%Z then modify (set_maxRev rev) else mret tt) st
  = (set_maxRev (if bool_decide (maxRev st < rev)%Z then rev else maxRev st) st, Ok tt).
Proof. case_bool_decide; [done|]. by destruct st. Qed.

Lemma editChunk_ok a1 a2 rev newLines st l1 orig :
  a1 ≤ a2 → a2 ≤ length (lines st) →
  lines st !! a1 = Some l1 →
  code st !! LineInfo.pc l1 = Some orig →
  let a2Pc := if bool_decide (a1 < a2)
              then (λ l2, LineInfo.pc l2 + 1) <$> lines st !! (a2 - 1) else None in
  editChunk a1 a2 rev newLines st
  = (editChunk_result a1 a2 rev newLines l1 orig a2Pc st, Ok tt).
Proof.
  intros H12 H2 Hl1 Horig a2Pc. unfold editChunk.
  rewrite (bind_eq _ _ st st tt) by (by rewrite bool_decide_eq_true_2).
  rewrite bind_get.
  rewrite (bind_eq _ _ st st tt) by (by rewrite bool_decide_eq_true_2).
  cbv zeta. rewrite Hl1.
  assert (LineInfo.pc l1 < length (code st)) as Hpc by (by eapply lookup_lt_Some).
  mstep (ins_block_ok rev newLines st).
  mstep (del_block_ok a1 a2 rev
           (set_code (code st ++ ins_part rev (length (code st)) newLines) st) H2).
  fields. fold a2Pc.
  rewrite bind_modify, bind_get. fields.
  rewrite <-app_assoc, lookup_app_l, Horig by done.
  rewrite bind_modify.
  mstep (tail_block_ok orig (LineInfo.pc l1) _).
  rewrite !bind_modify, bind_get.
  mstep (maxRev_block_ok rev _).
  unfold modify. f_equal.
  unfold editChunk_result, edited_code, tail_pc, inserted, tail_part.
  apply LineLog_eq; fields; try done.
  - by rewrite <-!app_assoc.
  - by rewrite !length_app, Nat.add_assoc.
Qed.

Lemma ins_part_length rev start newLines :
  length (ins_part rev start newLines)
  = if bool_decide (0 < length newLines) then S (length newLines) else 0.
Proof. unfold ins_part. case_bool_decide; simpl; by rewrite ?length_fmap. Qed.

Lemma emit_lines_seq c del rev (l : list string) off :
  (∀ j s, l !! j = Some s → c !! (off + j) = Some (LINE rev s)) →
  emit c del (seq off (length l))
  = imap (λ i s, LineInfo.mk s rev (off + i) (del (off + i))) l.
Proof.
  revert off. induction l as [|x l IH]; intros off Hl; [done|].
  cbn [length seq]. rewrite emit_cons. unfold emit_line.
  rewrite <-(Nat.add_0_r off) at 1. rewrite (Hl 0 x eq_refl).
  rewrite ?Nat.add_0_r. cbn [imap]. rewrite ?Nat.add_0_r. f_equal.
  rewrite (IH (S off)).
  - apply imap_ext. intros i s _. cbn [compose].
    by replace (S off + i) with (off + S i) by lia.
  - intros j s Hj. replace (S off + j) with (off + S j) by lia.
    by apply (Hl (S j)).
Qed.

Lemma path_lines_seq c s e rev (l : list string) off :
  (∀ j x, l !! j = Some x → c !! (off + j) = Some (LINE rev x)) →
  path c s e off (seq off (length l)) (off + length l).
Proof.
  revert off. induction l as [|x l IH]; intros off Hl.
  - simpl. rewrite Nat.add_0_r. constructor.
  - cbn [length seq]. eapply path_step.
    + rewrite <-(Nat.add_0_r off). by apply (Hl 0 x).
    + done.
    + replace (off + 1) with (S off) by lia.
      replace (off + S (length l)) with (S off + length l) by lia.
      apply (IH (S off)).
      intros j y Hj. replace (S off + j) with (off + S j) by lia.
      by apply (Hl (S j)).
Qed.

Lemma del_path_Some x topt t : topt = Some t → del_path x topt = [x].
Proof. by intros ->. Qed.

Lemma del_path_None x topt : topt = None → del_path x topt = [].
Proof. by intros ->. Qed.

Lemma del_part_Some rev topt t : topt = Some t → del_part rev topt = [JGE rev t].
Proof. by intros ->. Qed.

Lemma del_part_None rev topt : topt = None → del_part rev topt = [].
Proof. by intros ->. Qed.

Lemma option_cases {A : Type} (o : option A) : o = None ∨ ∃ x, o = Some x.
Proof. destruct o; eauto. Qed.

Section Edit.
Context (rank : nat → nat) (c : list Inst) (Hranked : ranked rank c).
Context (rev : Z) (p : nat) (orig : Inst) (nl : list string) (topt : option nat).
Context (Horig : c !! p = Some orig).
Context (Hkind : orig = END ∨ ∃ r d, orig = LINE r d).
Context (Ht : ∀ t, topt = Some t → t < length c ∧ rank p < rank t).

Local Abbreviation n := (length c).
Local Abbreviation c' := (edited_code c rev p orig nl topt).
Local Abbreviation n1 := (length c + length (ins_part rev (length c) nl)).
Local Abbreviation tl := (tail_pc c rev nl topt).

Lemma edit_p_lt : p < n.
Proof. by eapply lookup_lt_Some. Qed.

Lemma edited_length :
  length c' = tl + length (tail_part p orig).
Proof.
  unfold edited_code, tail_pc. rewrite length_insert, !length_app. lia.
Qed.

Lemma edited_lookup_old x : x < n → x ≠ p → c' !! x = c !! x.
Proof.
  intros Hx Hp. unfold edited_code.
  rewrite list_lookup_insert_ne by done. by rewrite lookup_app_l.
Qed.

Lemma edited_lookup_p : c' !! p = Some (J n).
Proof.
  unfold edited_code. apply list_lookup_insert_eq.
  rewrite length_app. pose proof edit_p_lt. lia.
Qed.

Lemma edited_lookup_new j :
  c' !! (n + j)
  = (ins_part rev n nl ++ del_part rev topt ++ tail_part p orig) !! j.
Proof.
  unfold edited_code. pose proof edit_p_lt.
  rewrite list_lookup_insert_ne by lia.
  rewrite lookup_app_r by lia. f_equal. lia.
Qed.

Lemma edited_lookup_JL :
  0 < length nl → c' !! n = Some (JL rev (n + length nl + 1)).
Proof.
  intros Hnl. rewrite <-(Nat.add_0_r n) at 1. rewrite edited_lookup_new.
  unfold ins_part. by rewrite bool_decide_eq_true_2.
Qed.

Lemma edited_lookup_LINE j x :
  nl !! j = Some x → c' !! (n + 1 + j) = Some (LINE rev x).
Proof.
  intros Hj. rewrite <-Nat.add_assoc, edited_lookup_new.
  unfold ins_part. rewrite bool_decide_eq_true_2.
  - rewrite <-app_comm_cons. replace (1 + j) with (S j) by done.
    rewrite lookup_cons_ne_0 by done. cbn [pred].
    rewrite lookup_app_l.
    + by rewrite list_lookup_fmap, Hj.
    + rewrite length_fmap. by eapply lookup_lt_Some.
  - apply lookup_lt_Some in Hj. lia.
Qed.

Lemma edited_lookup_JGE t : topt = Some t → c' !! n1 = Some (JGE rev t).
Proof.
  intros Htopt. rewrite edited_lookup_new.
  rewrite lookup_app_r by done. by rewrite Nat.sub_diag, Htopt.
Qed.

Lemma edited_lookup_tail : c' !! tl = Some orig.
Proof.
  unfold tail_pc. rewrite <-Nat.add_assoc, edited_lookup_new.
  rewrite app_assoc, lookup_app_r by (by rewrite length_app).
  by rewrite length_app, Nat.sub_diag.
Qed.

Lemma edited_lookup_back r d :
  orig = LINE r d → c' !! (tl + 1) = Some (J (p + 1)).
Proof.
  intros Ho. unfold tail_pc. rewrite <-!Nat.add_assoc, edited_lookup_new.
  rewrite app_assoc, lookup_app_r by (rewrite length_app; lia).
  rewrite length_app.
  replace (_ + _ - _) with 1 by lia. by rewrite Ho.
Qed.

Lemma tail_pc_n1 : tl = n1 + length (del_part rev topt).
Proof. done. Qed.

(** Crossing the inserted lines. *)
Lemma ins_path_spec s e : path c' s e n (ins_path rev e n nl) n1.
Proof.
  unfold ins_path. rewrite ins_part_length. case_bool_decide as Hnl.
  - case_bool_decide as He.
    + eapply path_one; [by apply edited_lookup_JL|].
      simpl. rewrite bool_decide_eq_true_2 by done. f_equal. lia.
    + cbn [seq]. eapply (path_step _ _ _ _ _ (n + 1));
        [by apply edited_lookup_JL| |].
      * simpl. by rewrite bool_decide_eq_false_2.
      * replace (n + S (length nl)) with (n + 1 + length nl) by lia.
        replace (S n) with (n + 1) by lia.
        apply (path_lines_seq _ _ _ rev). intros j x Hj.
        by apply edited_lookup_LINE.
  - rewrite Nat.add_0_r. constructor.
Qed.

Lemma ins_path_emit del e :
  emit c' del (ins_path rev e n nl)
  = if bool_decide (e < rev)%Z then []
    else imap (λ i x, LineInfo.mk x rev (n + 1 + i) (del (n + 1 + i))) nl.
Proof.
  unfold ins_path. case_bool_decide as Hnl.
  - case_bool_decide as He.
    + rewrite emit_cons. unfold emit_line.
      by rewrite edited_lookup_JL.
    + cbn [seq]. rewrite emit_cons. unfold emit_line at 1.
      rewrite edited_lookup_JL by done.
      replace (S n) with (n + 1) by lia.
      apply (emit_lines_seq _ _ rev). intros j x Hj.
      by apply edited_lookup_LINE.
  - destruct nl; [|simpl in Hnl; lia]. by case_bool_decide.
Qed.

Lemma ins_path_fresh e x : x ∈ ins_path rev e n nl → n ≤ x < n1.
Proof.
  unfold ins_path. rewrite ins_part_length.
  case_bool_decide; [|by intros ?%elem_of_nil].
  case_bool_decide.
  - intros ->%list_elem_of_singleton. lia.
  - intros ?%elem_of_seq. lia.
Qed.

Lemma path_bound s e pc vs q x : path c s e pc vs q → x ∈ vs → x < n.
Proof.
  induction 1 as [|pc i pc' vs q Hpc Hnext _ IH]; [by intros ?%elem_of_nil|].
  intros [->|Hx]%elem_of_cons; [by eapply lookup_lt_Some|by apply IH].
Qed.

(** Executions that stay away from [p] are as before. *)
Lemma edited_run_old s e pc vs : run c s e pc vs → p ∉ vs → run c' s e pc vs.
Proof.
  intros Hrun Hp. eapply run_frame; [done|]. intros x Hx.
  apply edited_lookup_old; [by eapply run_bound|congruence].
Qed.

Lemma edited_path_old s e pc vs q :
  path c s e pc vs q → p ∉ vs → path c' s e pc vs q.
Proof.
  intros Hpath Hp. eapply path_frame; [done|]. intros x Hx.
  apply edited_lookup_old; [by eapply path_bound|congruence].
Qed.

Lemma edited_emit_old del vs :
  (∀ x, x ∈ vs → x < n) → p ∉ vs → emit c' del vs = emit c del vs.
Proof.
  intros Hn Hp. apply emit_frame. intros x Hx.
  apply edited_lookup_old; [by apply Hn|congruence].
Qed.

(** The relocated instruction behaves as the original did at [p]. *)
Lemma tail_path_END : orig = END → tail_path tl orig = [tl].
Proof. intros Ho. unfold tail_path. by rewrite Ho. Qed.

Lemma tail_path_LINE r d : orig = LINE r d → tail_path tl orig = [tl; tl + 1].
Proof. intros Ho. unfold tail_path. by rewrite Ho. Qed.

Lemma tail_run s e vs2 :
  run c s e p (p :: vs2) → p ∉ vs2 →
  run c' s e tl (tail_path tl orig ++ vs2).
Proof.
  intros Hrun Hp.
  inversion Hrun as [? Hpc|? i pc' ? Hpc Hnext Hrest]; subst.
  - assert (orig = END) as Ho by congruence.
    rewrite (tail_path_END Ho). apply run_end. rewrite <-Ho.
    apply edited_lookup_tail.
  - assert (orig = i) as Ho by congruence.
    destruct Hkind as [Hk|(r & d & Hk)].
    { rewrite Hk in Ho. by subst i. }
    rewrite (tail_path_LINE r d Hk).
    assert (pc' = p + 1) as -> by (subst i; rewrite Hk in Hnext; by injection Hnext).
    eapply run_step; [apply edited_lookup_tail|by rewrite Hk|].
    eapply run_step; [by eapply edited_lookup_back|done|].
    by apply edited_run_old.
Qed.

Lemma tail_emit del :
  emit c' del (tail_path tl orig)
  = LineInfo.set_pc tl <$> option_list (emit_line c (λ _, del tl) p).
Proof.
  unfold emit_line. rewrite Horig.
  destruct Hkind as [Hk|(r & d & Hk)].
  - rewrite (tail_path_END Hk), emit_cons. unfold emit_line.
    rewrite edited_lookup_tail. by rewrite Hk.
  - rewrite (tail_path_LINE r d Hk), !emit_cons. unfold emit_line.
    rewrite edited_lookup_tail, (edited_lookup_back r d Hk). by rewrite Hk.
Qed.

Lemma del_path_fall s e :
  (∀ t, topt = Some t → (s < rev)%Z) → path c' s e n1 (del_path n1 topt) tl.
Proof.
  intros Hs. rewrite tail_pc_n1.
  destruct (option_cases topt) as [Htopt|[t Htopt]].
  - rewrite (del_path_None _ _ Htopt), (del_part_None _ _ Htopt).
    simpl. rewrite Nat.add_0_r. constructor.
  - rewrite (del_path_Some _ _ _ Htopt), (del_part_Some _ _ _ Htopt).
    eapply path_one; [by apply edited_lookup_JGE|].
    simpl. rewrite bool_decide_eq_false_2; [f_equal; lia|].
    specialize (Hs t Htopt). lia.
Qed.

Lemma del_path_jump s e t :
  topt = Some t → (rev ≤ s)%Z → path c' s e n1 [n1] t.
Proof.
  intros Htopt Hs. eapply path_one; [by apply edited_lookup_JGE|].
  simpl. by rewrite bool_decide_eq_true_2.
Qed.

Lemma del_path_emit del : emit c' del (del_path n1 topt) = [].
Proof.
  destruct (option_cases topt) as [Htopt|[t Htopt]].
  - by rewrite (del_path_None _ _ Htopt).
  - rewrite (del_path_Some _ _ _ Htopt), emit_cons. unfold emit_line.
    by rewrite (edited_lookup_JGE t).
Qed.

Lemma old_run_NoDup s e pc vs1 vs2 :
  run c s e pc (vs1 ++ p :: vs2) → (p ∉ vs1) ∧ (p ∉ vs2).
Proof.
  intros Hrun. pose proof (run_NoDup rank c Hranked s e _ _ Hrun) as Hnd.
  apply NoDup_app in Hnd as (_ & Hdisj & Hnd2).
  apply NoDup_cons in Hnd2 as [Hp2 _]. split; [|done].
  intros Hp1. apply (Hdisj _ Hp1). by left.
Qed.

(** An execution through [p] when the [JGE] of the chunk, if any, falls
    through: the chunk is crossed and the old execution resumed. *)
Lemma edited_run_through s e pc vs1 vs2 :
  run c s e pc (vs1 ++ p :: vs2) →
  (∀ t, topt = Some t → (s < rev)%Z) →
  run c' s e pc
    (vs1 ++ [p] ++ ins_path rev e n nl ++ del_path n1 topt
         ++ tail_path tl orig ++ vs2).
Proof.
  intros Hrun Hs. destruct (old_run_NoDup _ _ _ _ _ Hrun) as [Hp1 Hp2].
  apply run_split in Hrun as [Hpath Hrun].
  eapply path_run; [by apply edited_path_old|].
  eapply path_run; [by eapply path_one; [apply edited_lookup_p|]|].
  eapply path_run; [apply ins_path_spec|].
  eapply path_run; [by apply del_path_fall|].
  by apply tail_run.
Qed.

(** An execution through [p] when the [JGE] of the chunk jumps. *)
Lemma edited_run_jump s e pc vs1 vs2 t vt :
  run c s e pc (vs1 ++ p :: vs2) →
  topt = Some t → (rev ≤ s)%Z → run c s e t vt →
  run c' s e pc (vs1 ++ [p] ++ ins_path rev e n nl ++ [n1] ++ vt).
Proof.
  intros Hrun Htopt Hs Hvt.
  destruct (old_run_NoDup _ _ _ _ _ Hrun) as [Hp1 Hp2].
  apply run_split in Hrun as [Hpath Hrun].
  eapply path_run; [by apply edited_path_old|].
  eapply path_run; [by eapply path_one; [apply edited_lookup_p|]|].
  eapply path_run; [apply ins_path_spec|].
  eapply path_run; [by eapply del_path_jump|].
  apply edited_run_old; [done|]. intros Hp.
  pose proof (run_rank_le rank c Hranked s e _ _ _ Hvt Hp).
  destruct (Ht t Htopt). lia.
Qed.

Lemma chunk_lookup j i :
  (ins_part rev n nl ++ del_part rev topt ++ tail_part p orig) !! j = Some i →
  (j = 0 ∧ 0 < length nl ∧ i = JL rev (n + length nl + 1))
  ∨ (∃ x, 0 < j ∧ nl !! (j - 1) = Some x ∧ i = LINE rev x)
  ∨ (∃ t, topt = Some t ∧ n + j = n1 ∧ i = JGE rev t)
  ∨ (n + j = tl ∧ i = orig)
  ∨ (∃ r d, orig = LINE r d ∧ n + j = tl + 1 ∧ i = J (p + 1)).
Proof.
  unfold tail_pc. intros [Hj|[Hj1 [Hj|[Hj2 Hj]]%lookup_app_Some]]%lookup_app_Some.
  - unfold ins_part in Hj. case_bool_decide; [|done].
    destruct j as [|j]; simpl in Hj.
    + injection Hj as <-. by left.
    + right; left. rewrite list_lookup_fmap in Hj.
      destruct (nl !! j) as [x|] eqn:Hx; [|done]. injection Hj as <-.
      exists x. rewrite Nat.sub_succ, Nat.sub_0_r. split_and!; [lia|done..].
  - destruct (option_cases topt) as [Htopt|[t Htopt]].
    { by rewrite (del_part_None _ _ Htopt) in Hj. }
    rewrite (del_part_Some _ _ _ Htopt) in Hj.
    apply list_lookup_singleton_Some in Hj as [Hj <-].
    right; right; left. exists t. split_and!; [done|lia|done].
  - unfold tail_part in Hj.
    destruct (j - _ - _) as [|[|k]] eqn:Hk; simpl in Hj.
    + injection Hj as <-. right; right; right; left. split; [lia|done].
    + destruct Hkind as [->|(r & d & ->)]; [done|]. injection Hj as <-.
      right; right; right; right. exists r, d. split_and!; [done|lia|done].
    + destruct Hkind as [->|(r & d & ->)]; done.
Qed.

(** The edited program is ranked again. *)
Lemma edited_ranked :
  ranked (edited_rank rank n (length c' - n + 2) p) c'.
Proof.
  pose proof edit_p_lt as Hp. pose proof edited_length as Hlen.
  assert (length (tail_part p orig) = match orig with LINE _ _ => 2 | _ => 1 end)
    as Htail by (by destruct Hkind as [->|(? & ? & ->)]).
  unfold tail_pc in Hlen. rewrite Htail in Hlen.
  assert (1 ≤ match orig with LINE _ _ => 2 | _ => 1 end) as Hge
    by (destruct orig; lia).
  set (k := length c' - n + 2). unfold edited_rank.
  intros x i q Hx Hq. destruct (decide (x < n)) as [Hxn|Hxn].
  - rewrite (bool_decide_eq_true_2 (x < n)) by done.
    destruct (decide (x = p)) as [->|Hxp].
    + rewrite edited_lookup_p in Hx. injection Hx as <-.
      apply list_elem_of_singleton in Hq as ->.
      rewrite bool_decide_eq_false_2 by lia. split; lia.
    + rewrite edited_lookup_old in Hx by done.
      destruct (Hranked _ _ _ Hx Hq) as [Hqn Hrk].
      rewrite bool_decide_eq_true_2 by done. split; [lia|]. subst k. nia.
  - rewrite (bool_decide_eq_false_2 (x < n)) by done.
    replace x with (n + (x - n)) in Hx by lia.
    rewrite edited_lookup_new in Hx.
    apply chunk_lookup in Hx
      as [(Hj & Hnl & ->)|[(y & Hj & Hy & ->)|[(t & Htopt & Hj & ->)
         |[(Hj & ->)|(r & d & Ho & Hj & ->)]]]].
    + rewrite ins_part_length, bool_decide_eq_true_2 in Hlen by done.
      simpl in Hq. apply elem_of_cons in Hq as [->|Hq].
      * rewrite bool_decide_eq_false_2 by lia. split; lia.
      * apply list_elem_of_singleton in Hq as ->.
        rewrite bool_decide_eq_false_2 by lia. split; lia.
    + apply lookup_lt_Some in Hy.
      rewrite ins_part_length, bool_decide_eq_true_2 in Hlen by lia.
      apply list_elem_of_singleton in Hq as ->.
      rewrite bool_decide_eq_false_2 by lia. split; lia.
    + destruct (Ht t Htopt) as [Htn Hrk].
      rewrite (del_part_Some _ _ _ Htopt) in Hlen. simpl in Hlen.
      simpl in Hq. apply elem_of_cons in Hq as [->|Hq].
      * rewrite bool_decide_eq_true_2 by done. split; [lia|]. subst k. nia.
      * apply list_elem_of_singleton in Hq as ->.
        rewrite bool_decide_eq_false_2 by lia. split; lia.
    + unfold tail_pc in Hj.
      destruct Hkind as [->|(r & d & ->)]; [by apply elem_of_nil in Hq|].
      apply list_elem_of_singleton in Hq as ->.
      rewrite bool_decide_eq_false_2 by lia. split; lia.
    + unfold tail_pc in Hj. subst orig.
      apply list_elem_of_singleton in Hq as ->.
      destruct (Hranked p (LINE r d) (p + 1) Horig) as [Hp1 Hrk]; [set_solver|].
      rewrite bool_decide_eq_true_2 by done. split; [lia|]. subst k. nia.
Qed.

Lemma edited_jump_revs_le m :
  jump_revs_le c m → (rev ≤ m)%Z → jump_revs_le c' m.
Proof.
  intros Hle Hrev x i Hx. pose proof edit_p_lt as Hp.
  destruct (decide (x < n)) as [Hxn|Hxn].
  - destruct (decide (x = p)) as [->|Hxp].
    + rewrite edited_lookup_p in Hx. by injection Hx as <-.
    + rewrite edited_lookup_old in Hx by done. by apply (Hle x).
  - replace x with (n + (x - n)) in Hx by lia.
    rewrite edited_lookup_new in Hx.
    apply chunk_lookup in Hx
      as [(Hj & Hnl & ->)|[(y & Hj & Hy & ->)|[(t & Htopt & Hj & ->)
         |[(Hj & ->)|(r & d & Ho & Hj & ->)]]]]; try done.
    by destruct Hkind as [->|(r & d & ->)].
Qed.

(** Every execution of the edited program, read against the execution
    of the program before the edit under the same revisions. *)
Lemma edited_run_spec s e pc vs vs' :
  jump_revs_le c rev →
  (∀ t, topt = Some t → ∃ q r d vm vt,
      t = q + 1 ∧ c !! q = Some (LINE r d) ∧ run c rev rev p (vm ++ q :: vt)) →
  (s ≤ e)%Z → run c s e pc vs → run c' s e pc vs' →
  ((p ∉ vs) ∧ vs' = vs)
  ∨ (∃ vs1 vs2, vs = vs1 ++ p :: vs2 ∧ (p ∉ vs1) ∧ (p ∉ vs2)
       ∧ (∀ t, topt = Some t → (s < rev)%Z)
       ∧ vs' = vs1 ++ [p] ++ ins_path rev e n nl ++ del_path n1 topt
                   ++ tail_path tl orig ++ vs2)
  ∨ (∃ vs1 vm q vt t, vs = vs1 ++ vm ++ q :: vt ∧ (p ∉ vs1) ∧ (p ∉ vt)
       ∧ (∃ vm', vm ++ [q] = p :: vm') ∧ topt = Some t ∧ t = q + 1 ∧ (rev ≤ s)%Z
       ∧ vs' = vs1 ++ [p] ++ ins_path rev e n nl ++ [n1] ++ vt).
Proof.
  intros Hrevs Hq Hse Hrun Hrun'. destruct (decide (p ∈ vs)) as [Hin|Hout].
  - apply list_elem_of_split in Hin as (vs1 & vs2 & ->).
    destruct (old_run_NoDup _ _ _ _ _ Hrun) as [Hp1 Hp2].
    lazymatch goal with |- ?G =>
      assert (run c' s e pc
                (vs1 ++ [p] ++ ins_path rev e n nl ++ del_path n1 topt
                     ++ tail_path tl orig ++ vs2)
              → (∀ t, topt = Some t → (s < rev)%Z) → G) as Hthrough
    end.
    { intros Hnew Hs. right; left. exists vs1, vs2. split_and!; try done.
      by eapply run_det. }
    destruct (option_cases topt) as [Htopt|[t Htopt]].
    { assert (∀ t, topt = Some t → (s < rev)%Z) as Hs by (intros; congruence).
      apply Hthrough; [|done]. by apply edited_run_through. }
    destruct (decide (rev ≤ s)%Z) as [Hs|Hs]; last first.
    { assert (∀ t, topt = Some t → (s < rev)%Z) as Hs' by (intros; lia).
      apply Hthrough; [|done]. by apply edited_run_through. }
    clear Hthrough. right; right.
    destruct (Hq t Htopt) as (q & r & d & vm & vt & Htq & Hcq & Hhead).
    pose proof (run_split _ _ _ _ _ _ _ Hrun) as [_ Hsub].
    assert (run c rev rev p (p :: vs2)) as Hsub'.
    { eapply (run_saturated c rev s e); eauto; lia. }
    pose proof (run_det _ _ _ _ _ _ Hhead Hsub') as Heq.
    assert (run c s e t vt) as Hvt.
    { apply run_split in Hhead as [_ Hqrun].
      inversion Hqrun as [? Hcq'|? i pc' ? Hcq' Hnext Hrest]; subst.
      - rewrite Hcq in Hcq'. done.
      - rewrite Hcq in Hcq'. injection Hcq' as <-. injection Hnext as <-.
        eapply (run_saturated c rev rev rev); eauto; lia. }
    exists vs1, vm, q, vt, t. split_and!; try done.
    + by rewrite Heq.
    + intros Hpt. apply Hp2.
      destruct vm as [|y vm]; injection Heq as _ <-; set_solver.
    + destruct vm as [|y vm]; injection Heq as Hy _.
      * exists []. by rewrite Hy.
      * exists (vm ++ [q]). by rewrite Hy.
    + eapply run_det; [done|]. eapply edited_run_jump; eauto.
  - left. split; [done|]. eapply run_det; [done|]. by apply edited_run_old.
Qed.

Lemma edited_not_nil : c' ≠ [].
Proof.
  intros Hnil. pose proof edited_length as Hlen. rewrite Hnil in Hlen.
  unfold tail_part in Hlen. simpl in Hlen. lia.
Qed.

End Edit.

(** ** What an execution emits *)

Lemma emit_line_pc c del x l : emit_line c del x = Some l → LineInfo.pc l = x.
Proof.
  unfold emit_line. destruct (c !! x) as [[]|]; try done; by intros [= <-].
Qed.

Lemma emit_line_kind c del x l :
  emit_line c del x = Some l →
  c !! x = Some END ∨ ∃ r d, c !! x = Some (LINE r d).
Proof.
  unfold emit_line. destruct (c !! x) as [[]|]; try done; eauto.
Qed.

Lemma elem_of_emit c del vs l :
  l ∈ emit c del vs ↔ ∃ x, x ∈ vs ∧ emit_line c del x = Some l.
Proof. apply list_elem_of_omap. Qed.

Lemma emit_pcs_elem c del vs x :
  x ∈ LineInfo.pc <$> emit c del vs ↔ x ∈ vs ∧ is_Some (emit_line c del x).
Proof.
  rewrite list_elem_of_fmap. split.
  - intros (l & -> & (y & Hy & Hl)%elem_of_emit).
    rewrite (emit_line_pc _ _ _ _ Hl). eauto.
  - intros (Hx & l & Hl). exists l. split; [by erewrite emit_line_pc|].
    apply elem_of_emit. eauto.
Qed.


Lemma emit_NoDup c del vs : NoDup vs → NoDup (LineInfo.pc <$> emit c del vs).
Proof.
  induction 1 as [|x vs Hx _ IH]; [constructor|].
  rewrite emit_cons. destruct (emit_line c del x) as [l|] eqn:Hl; [|done].
  rewrite fmap_cons, (emit_line_pc _ _ _ _ Hl). constructor; [|done].
  rewrite emit_pcs_elem. naive_solver.
Qed.

(** The position of a line in the result is the number of lines emitted
    before its program counter is reached. *)
Lemma emit_index c del u x w k l :
  NoDup (u ++ x :: w) →
  emit c del (u ++ x :: w) !! k = Some l → LineInfo.pc l = x →
  emit_line c del x = Some l ∧ k = length (emit c del u).
Proof.
  intros Hnd Hk Hpc.
  assert (emit_line c del x = Some l) as Hl.
  { apply list_elem_of_lookup_2, elem_of_emit in Hk as (y & _ & Hy).
    by rewrite <-Hpc, (emit_line_pc _ _ _ _ Hy). }
  split; [done|].
  pose proof (emit_NoDup c del _ Hnd) as Hnd'.
  eapply NoDup_lookup; [exact Hnd'| |].
  - rewrite list_lookup_fmap, Hk. simpl. by rewrite Hpc.
  - rewrite emit_app, emit_cons, Hl, list_lookup_fmap.
    rewrite lookup_app_r by done. rewrite Nat.sub_diag. simpl. by rewrite Hpc.
Qed.

(** Splitting an execution at the line of index [k]. *)
Lemma emit_split c del vs k l :
  NoDup vs → emit c del vs !! k = Some l →
  ∃ u w, vs = u ++ LineInfo.pc l :: w
         ∧ emit_line c del (LineInfo.pc l) = Some l
         ∧ emit c del u = take k (emit c del vs)
         ∧ l :: emit c del w = drop k (emit c del vs).
Proof.
  intros Hnd Hk.
  pose proof Hk as Hin. apply list_elem_of_lookup_2, elem_of_emit in Hin as (x & Hx & Hl).
  pose proof (emit_line_pc _ _ _ _ Hl) as Hpc.
  apply list_elem_of_split in Hx as (u & w & ->).
  destruct (emit_index c del u x w k l Hnd Hk Hpc) as [_ ->].
  exists u, w. rewrite Hpc. split_and!; [done..| |].
  - by rewrite emit_app, take_app_length.
  - by rewrite emit_app, drop_app_length, emit_cons, Hl.
Qed.

(** Only the last program counter of a run holds an [END]. *)
Lemma run_END_last c s e pc vs u x w :
  run c s e pc vs → vs = u ++ x :: w → c !! x = Some END → w = [].
Proof.
  intros Hrun ->. apply run_split in Hrun as [_ Hrun].
  inversion Hrun as [|? i ? ? Hx Hnext]; subst; [done|].
  intros Hx'. rewrite Hx in Hx'. by injection Hx' as ->.
Qed.

Lemma run_emit_last c s e del pc vs :
  run c s e pc vs →
  ∃ z, last vs = Some z ∧ c !! z = Some END
       ∧ last (emit c del vs) = Some (LineInfo.mk "" 0%Z z (del z)).
Proof.
  induction 1 as [pc Hpc|pc i pc' vs Hpc Hnext Hrun (z & Hz & Hcz & Hlast)].
  - exists pc. split_and!; [done..|]. rewrite emit_cons. unfold emit_line. by rewrite Hpc.
  - exists z. destruct (run_head _ _ _ _ _ Hrun) as [vs' ->].
    split_and!; [done..|].
    rewrite emit_cons. destruct (emit_line c del pc); [|done].
    destruct (emit c del (pc' :: vs')) eqn:Hem; [done|].
    by rewrite last_cons, Hlast.
Qed.

Lemma run_emit_not_nil c s e del pc vs : run c s e pc vs → emit c del vs ≠ [].
Proof.
  intros Hrun Hnil. destruct (run_emit_last c s e del _ _ Hrun) as (z & _ & _ & Hl).
  by rewrite Hnil in Hl.
Qed.

(** A line before the last one is a [LINE]. *)
Lemma run_emit_LINE rank c s e del vs k l :
  ranked rank c → run c s e 0 vs →
  emit c del vs !! k = Some l → S k < length (emit c del vs) →
  ∃ r d, c !! LineInfo.pc l = Some (LINE r d).
Proof.
  intros Hr Hrun Hk Hlen.
  pose proof (run_NoDup rank c Hr s e _ _ Hrun) as Hnd.
  destruct (emit_split c del vs k l Hnd Hk) as (u & w & Hvs & Hl & Hu & Hw).
  destruct (emit_line_kind _ _ _ _ Hl) as [Hend|?]; [|done].
  pose proof (run_END_last _ _ _ _ _ _ _ _ Hrun Hvs Hend) as ->.
  apply (f_equal length) in Hw. rewrite length_drop in Hw. simpl in Hw. lia.
Qed.

Lemma emit_deleted c del vs :
  emit c del vs
  = (λ l, LineInfo.mk (LineInfo.data l) (LineInfo.rev l) (LineInfo.pc l)
            (del (LineInfo.pc l))) <$> emit c (deleted_of None) vs.
Proof.
  induction vs as [|x vs IH]; [done|]. rewrite !emit_cons, IH.
  unfold emit_line. by destruct (c !! x) as [[]|].
Qed.


(** ** The invariants across one call of [editChunk] *)

Lemma NoDup_split_inj {A : Type} (a a' b b' : list A) x :
  NoDup (a ++ x :: b) → a ++ x :: b = a' ++ x :: b' → a = a' ∧ b = b'.
Proof.
  intros Hnd Heq.
  assert (length a = length a') as Hlen.
  { eapply (NoDup_lookup _ _ _ x Hnd).
    - by rewrite lookup_app_r, Nat.sub_diag.
    - rewrite Heq. by rewrite lookup_app_r, Nat.sub_diag. }
  apply app_inj_1 in Heq as [-> [= ->]]; done.
Qed.

Section EditInv.
Context (rank : nat → nat) (c : list Inst) (Hranked : ranked rank c).
Context (m : Z) (p : nat) (orig : Inst) (nl : list string) (topt : option nat).
Context (Horig : c !! p = Some orig).
Context (Hkind : orig = END ∨ ∃ r d, orig = LINE r d).
Context (Hrevs : jump_revs_le c m).
Context (Hq : ∀ t, topt = Some t → ∃ q r d vm vt,
            t = q + 1 ∧ c !! q = Some (LINE r d) ∧ run c m m p (vm ++ q :: vt)).
Context (Hguarded : guarded c) (Hunion : union_covers c).

Local Abbreviation n := (length c).
Local Abbreviation c' := (edited_code c m p orig nl topt).
Local Abbreviation n1 := (length c + length (ins_part m (length c) nl)).
Local Abbreviation tl := (tail_pc c m nl topt).
Local Abbreviation nd := (deleted_of None).

Lemma edit_Ht : ∀ t, topt = Some t → t < n ∧ rank p < rank t.
Proof.
  intros t Htopt.
  destruct (Hq t Htopt) as (q & r & d & vm & vt & -> & Hcq & Hrun).
  destruct (Hranked q (LINE r d) (q + 1) Hcq) as [Hlt Hrk]; [set_solver|].
  split; [done|].
  pose proof (run_rank_le rank c Hranked m m p _ q Hrun) as Hle.
  assert (q ∈ vm ++ q :: vt) as Hin by set_solver.
  specialize (Hle Hin). lia.
Qed.

Lemma edit_c_not_nil : c ≠ [].
Proof. intros Hnil. by rewrite Hnil in Horig. Qed.

Lemma edit_old_run s e : ∃ vs, run c s e 0 vs.
Proof.
  apply (run_total rank c Hranked). pose proof edit_c_not_nil.
  destruct c; [done|simpl; lia].
Qed.

Lemma edit_new_ranked : ∃ rank', ranked rank' c'.
Proof. eexists. apply edited_ranked; eauto using edit_Ht. Qed.

Lemma edit_new_run s e : ∃ vs, run c' s e 0 vs.
Proof.
  destruct edit_new_ranked as [rank' Hr'].
  apply (run_total rank' c' Hr').
  pose proof (edited_length c m p orig nl topt) as Hlen.
  unfold tail_part in Hlen. simpl in Hlen. lia.
Qed.

Lemma edit_new_revs : jump_revs_le c' m.
Proof. apply edited_jump_revs_le; eauto using edit_Ht. lia. Qed.

Lemma edit_p_is_line : is_line c p.
Proof.
  unfold is_line, emit_line. rewrite Horig.
  destruct Hkind as [->|(r & d & ->)]; eauto.
Qed.

Lemma edit_p_not_line' del : emit_line c' del p = None.
Proof.
  unfold emit_line. by rewrite (edited_lookup_p c m p orig nl topt Horig).
Qed.

Lemma tail_path_elem x : x ∈ tail_path tl orig → tl ≤ x.
Proof.
  unfold tail_path. intros [->|Hx]%elem_of_cons; [lia|].
  destruct orig; try (by apply elem_of_nil in Hx);
    apply list_elem_of_singleton in Hx as ->; lia.
Qed.

Lemma del_path_elem x : x ∈ del_path n1 topt → x = n1 ∧ n1 < tl.
Proof.
  unfold tail_pc. destruct (option_cases topt) as [Htopt|[t Htopt]].
  - rewrite (del_path_None _ _ Htopt). by intros ?%elem_of_nil.
  - rewrite (del_path_Some _ _ _ Htopt), (del_part_Some _ _ _ Htopt).
    intros ->%list_elem_of_singleton. simpl. lia.
Qed.

Lemma n1_le_tl : n1 ≤ tl.
Proof. unfold tail_pc. lia. Qed.

(** The program counters of an execution of the edited program that
    belonged to the program before come from the old execution. *)
Lemma edit_old_pcs s e vs vs' x :
  (s ≤ e)%Z → run c s e 0 vs → run c' s e 0 vs' →
  x ∈ vs' → x < n → x ≠ p → x ∈ vs.
Proof.
  intros Hse Hrun Hrun' Hx Hxn Hxp.
  destruct (edited_run_spec rank c Hranked m p orig nl topt Horig Hkind edit_Ht
              s e 0 vs vs' Hrevs Hq Hse Hrun Hrun')
    as [[_ ->]|[(vs1 & vs2 & -> & _ & _ & _ & ->)
       |(vs1 & vm & q & vt & t & -> & _ & _ & _ & _ & _ & _ & ->)]]; [done| |].
  - rewrite !elem_of_app in Hx. rewrite elem_of_app, elem_of_cons.
    destruct Hx as [?|[Hx|[Hx|[Hx|[Hx|?]]]]]; eauto.
    + apply list_elem_of_singleton in Hx. lia.
    + apply ins_path_fresh in Hx. lia.
    + apply del_path_elem in Hx. lia.
    + apply tail_path_elem in Hx. pose proof n1_le_tl. lia.
  - rewrite !elem_of_app in Hx. rewrite !elem_of_app, elem_of_cons.
    destruct Hx as [?|[Hx|[Hx|[Hx|?]]]]; eauto.
    + apply list_elem_of_singleton in Hx. lia.
    + apply ins_path_fresh in Hx. lia.
    + apply list_elem_of_singleton in Hx. lia.
Qed.

(** The old program counters an execution visits with the start of the
    range below [m] are still visited, [p] included. *)
Lemma edit_kept_pcs s e vs vs' x :
  (s ≤ e)%Z → (s < m)%Z → run c s e 0 vs → run c' s e 0 vs' →
  x ∈ vs → x ∈ vs'.
Proof.
  intros Hse Hsm Hrun Hrun' Hx.
  destruct (edited_run_spec rank c Hranked m p orig nl topt Horig Hkind edit_Ht
              s e 0 vs vs' Hrevs Hq Hse Hrun Hrun')
    as [[_ ->]|[(vs1 & vs2 & -> & _ & _ & _ & ->)
       |(vs1 & vm & q & vt & t & -> & _ & _ & _ & _ & _ & ? & ->)]];
    [done| |lia].
  rewrite !elem_of_app. rewrite elem_of_app, elem_of_cons in Hx. set_solver.
Qed.

(** What an execution of the edited program visits among the appended
    instructions tells how the old execution met [p]. *)
Lemma edit_new_pcs s e vs vs' x :
  (s ≤ e)%Z → run c s e 0 vs → run c' s e 0 vs' →
  x ∈ vs' → n ≤ x →
  p ∈ vs ∧ (x ∈ ins_path m e n nl ∨ x = n1 ∨ x ∈ tail_path tl orig)
  ∧ (x ∈ tail_path tl orig → ∀ t, topt = Some t → (s < m)%Z).
Proof.
  intros Hse Hrun Hrun' Hx Hxn.
  destruct (edited_run_spec rank c Hranked m p orig nl topt Horig Hkind edit_Ht
              s e 0 vs vs' Hrevs Hq Hse Hrun Hrun')
    as [[_ ->]|[(vs1 & vs2 & -> & _ & _ & Hs & ->)
       |(vs1 & vm & q & vt & t & -> & _ & _ & [vm' Hvm] & Htopt & _ & ? & ->)]].
  - pose proof (run_bound _ _ _ _ _ _ Hrun Hx). lia.
  - assert (∀ y, y ∈ vs1 ++ p :: vs2 → y < n) as Hold
      by (intros; by eapply run_bound).
    split; [set_solver|]. split; [|done].
    rewrite !elem_of_app in Hx.
    destruct Hx as [Hx|[Hx|[Hx|[Hx|[Hx|Hx]]]]]; eauto.
    + assert (x < n) by (apply Hold; set_solver). lia.
    + apply list_elem_of_singleton in Hx as ->.
      assert (p < n) by (apply Hold; set_solver). lia.
    + apply del_path_elem in Hx as [-> _]. eauto.
    + assert (x < n) by (apply Hold; set_solver). lia.
  - assert (∀ y, y ∈ vs1 ++ vm ++ q :: vt → y < n) as Hold
      by (intros; by eapply run_bound).
    split.
    { rewrite (app_assoc vm [q] vt : vm ++ q :: vt = (vm ++ [q]) ++ vt), Hvm.
      set_solver. }
    rewrite !elem_of_app in Hx.
    destruct Hx as [Hx|[Hx|[Hx|[Hx|Hx]]]].
    + assert (x < n) by (apply Hold; set_solver). lia.
    + apply list_elem_of_singleton in Hx as ->.
      pose proof (edit_p_lt c p orig Horig). lia.
    + split; [eauto|]. intros Htl%tail_path_elem.
      apply ins_path_fresh in Hx. pose proof n1_le_tl. lia.
    + apply list_elem_of_singleton in Hx as ->. split; [eauto|].
      intros Htl%tail_path_elem. unfold tail_pc in Htl.
      rewrite (del_part_Some _ _ t) in Htl by done. simpl in Htl. lia.
    + assert (x < n) by (apply Hold; set_solver). lia.
Qed.

Lemma edit_new_lookup_line x r d :
  n ≤ x → c' !! x = Some (LINE r d) →
  (r = m ∧ n < x < n1) ∨ (x = tl ∧ orig = LINE r d).
Proof.
  intros Hxn Hcx. replace x with (n + (x - n)) in Hcx by lia.
  rewrite (edited_lookup_new c m p orig nl topt Horig) in Hcx.
  apply (chunk_lookup c m p orig nl topt Horig Hkind) in Hcx
    as [(Hj & Hnl & ?)|[(y & Hj & Hy & [= -> ->])|[(t & Htopt & Hj & ?)
       |[(Hj & ->)|(r' & d' & Ho & Hj & ?)]]]]; try done.
  - left. split; [done|]. apply lookup_lt_Some in Hy.
    rewrite ins_part_length, bool_decide_eq_true_2 by lia. lia.
  - right. split; [lia|done].
Qed.

Lemma ins_path_guard e x : x ∈ ins_path m e n nl → n < x → (m ≤ e)%Z.
Proof.
  unfold ins_path. case_bool_decide; [|by intros ?%elem_of_nil].
  case_bool_decide; [|lia]. intros ->%list_elem_of_singleton. lia.
Qed.

(** Lines stay guarded. *)
Lemma edit_new_guarded : guarded c'.
Proof.
  intros s e vs' x r d Hse Hrun' Hx Hcx.
  destruct (edit_old_run s e) as [vs Hrun].
  destruct (decide (x < n)) as [Hxn|Hxn].
  - destruct (decide (x = p)) as [->|Hxp].
    { by rewrite (edited_lookup_p c m p orig nl topt Horig) in Hcx. }
    rewrite (edited_lookup_old c m p orig nl topt) in Hcx by done.
    eapply Hguarded; [exact Hse|exact Hrun| |exact Hcx].
    eapply edit_old_pcs; eauto.
  - destruct (edit_new_pcs s e vs vs' x Hse Hrun Hrun' Hx ltac:(lia))
      as (Hp & Hwhere & _).
    destruct (edit_new_lookup_line x r d ltac:(lia) Hcx) as [[-> Hrange]|[-> Ho]].
    + destruct Hwhere as [Hi|[->|Htl%tail_path_elem]].
      * eapply ins_path_guard; [done|lia].
      * lia.
      * pose proof n1_le_tl. lia.
    + eapply Hguarded; [exact Hse|exact Hrun|exact Hp|]. by rewrite Horig, Ho.
Qed.

Lemma edit_is_line_old x : x < n → is_line c' x → x ≠ p ∧ is_line c x.
Proof.
  unfold is_line. intros Hxn Hl. destruct (decide (x = p)) as [->|Hxp].
  - rewrite edit_p_not_line' in Hl. by destruct Hl.
  - split; [done|]. unfold emit_line in *.
    by rewrite (edited_lookup_old c m p orig nl topt) in Hl.
Qed.

(** The union view still covers the snapshot. *)
Lemma edit_new_union : union_covers c'.
Proof.
  intros s e vsS' vsR' x Hse HrunS' HrunR' Hx Hline.
  destruct (decide (m ≤ s)%Z) as [Hms|Hms].
  { (* from [m] on, every start of range gives the same execution *)
    assert (run c' e e 0 vsR') as HrunR''.
    { eapply (run_saturated c' m s e); eauto using edit_new_revs; lia. }
    by rewrite (run_det _ _ _ _ _ _ HrunR'' HrunS'). }
  destruct (edit_old_run e e) as [vsS HrunS].
  destruct (edit_old_run s e) as [vsR HrunR].
  assert (p ∈ vsS → p ∈ vsR) as Hp.
  { intros Hp. eapply Hunion; eauto. apply edit_p_is_line. }
  destruct (decide (x < n)) as [Hxn|Hxn].
  - destruct (edit_is_line_old x Hxn Hline) as [Hxp Hl].
    eapply (edit_kept_pcs s e vsR); [done|lia|done|done|].
    eapply Hunion; [exact Hse|exact HrunS|exact HrunR| |exact Hl].
    eapply (edit_old_pcs e e); eauto. lia.
  - destruct (edit_new_pcs e e vsS vsS' x ltac:(lia) HrunS HrunS' Hx ltac:(lia))
      as (HpS & Hwhere & HtlS).
    specialize (Hp HpS).
    destruct (edited_run_spec rank c Hranked m p orig nl topt Horig Hkind edit_Ht
                s e 0 vsR vsR' Hrevs Hq Hse HrunR HrunR')
      as [[Hout _]|[(vs1 & vs2 & _ & _ & _ & _ & ->)
         |(vs1 & vm & q & vt & t & _ & _ & _ & _ & _ & _ & ? & _)]];
      [done| |lia].
    destruct Hline as [l Hl].
    destruct (emit_line_kind _ _ _ _ Hl) as [Hend|(r & d & Hcx)].
    + (* an [END] among the appended instructions is the relocated one *)
      replace x with (n + (x - n)) in Hend by lia.
      rewrite (edited_lookup_new c m p orig nl topt Horig) in Hend.
      apply (chunk_lookup c m p orig nl topt Horig Hkind) in Hend
        as [(Hj & Hnl & ?)|[(y & Hj & Hy & ?)|[(t & Htopt & Hj & ?)
           |[(Hj & Ho)|(r' & d' & Ho & Hj & ?)]]]]; try done.
      rewrite !elem_of_app. do 4 right. left.
      replace x with tl by lia. unfold tail_path. set_solver.
    + destruct (edit_new_lookup_line x r d ltac:(lia) Hcx) as [[-> Hrange]|[-> Ho]].
      * destruct Hwhere as [Hi|[->|Htl%tail_path_elem]].
        -- rewrite !elem_of_app. eauto.
        -- lia.
        -- pose proof n1_le_tl. lia.
      * rewrite !elem_of_app. do 4 right. left. unfold tail_path. set_solver.
Qed.

(** The snapshots of the revisions below [m] keep their lines. *)
Lemma edit_new_snapshot r t :
  (r < m)%Z → snapshot_is c r t → snapshot_is c' r t.
Proof.
  intros Hr (vs & Hrun & Hdata). destruct (edit_new_run r r) as [vs' Hrun'].
  exists vs'. split; [done|]. rewrite <-Hdata.
  assert (∀ y, y ∈ vs → y < n) as Hold by (intros; by eapply run_bound).
  destruct (edited_run_spec rank c Hranked m p orig nl topt Horig Hkind edit_Ht
              r r 0 vs vs' Hrevs Hq ltac:(lia) Hrun Hrun')
    as [[Hout ->]|[(vs1 & vs2 & -> & Hp1 & Hp2 & _ & ->)
       |(vs1 & vm & q & vt & t' & _ & _ & _ & _ & _ & _ & ? & _)]];
    [|clear Hdata|lia].
  - by rewrite (edited_emit_old c m p orig nl topt).
  - rewrite !emit_app.
    rewrite (edited_emit_old c m p orig nl topt nd vs1)
      by (try done; intros; apply Hold; set_solver).
    rewrite (edited_emit_old c m p orig nl topt nd vs2)
      by (try done; intros; apply Hold; set_solver).
    rewrite (ins_path_emit c m p orig nl topt Horig).
    rewrite bool_decide_eq_true_2 by done.
    rewrite (del_path_emit c m p orig nl topt Horig).
    rewrite (tail_emit c m p orig nl topt Horig Hkind).
    rewrite emit_cons, (emit_cons c nd p).
    rewrite edit_p_not_line'.
    destruct edit_p_is_line as [l Hl]. unfold is_line in Hl.
    replace (emit_line c (λ _, nd tl) p) with (Some l) by done.
    rewrite Hl. cbn [option_list fmap list_fmap app].
    by rewrite !fmap_app, !fmap_cons.
Qed.

End EditInv.

(** Two lines of a view, the second not before the first, cut the
    execution in three. *)
Lemma head_two_lines rank c s e vs a1 k l1 l2 :
  ranked rank c → run c s e 0 vs →
  emit c (deleted_of None) vs !! a1 = Some l1 →
  emit c (deleted_of None) vs !! k = Some l2 → a1 ≤ k →
  ∃ u1 vm vt,
    vs = u1 ++ vm ++ LineInfo.pc l2 :: vt
    ∧ (∃ vm', vm ++ [LineInfo.pc l2] = LineInfo.pc l1 :: vm')
    ∧ emit c (deleted_of None) u1 = take a1 (emit c (deleted_of None) vs)
    ∧ emit c (deleted_of None) vt = drop (S k) (emit c (deleted_of None) vs).
Proof.
  intros Hr Hrun Hl1 Hl2 Hle.
  pose proof (run_NoDup rank c Hr s e _ _ Hrun) as Hnd.
  destruct (emit_split c _ vs a1 l1 Hnd Hl1) as (u1 & w1 & Hvs1 & Hl1' & Hu1 & Hw1).
  destruct (emit_split c _ vs k l2 Hnd Hl2) as (u2 & w2 & Hvs2 & Hl2' & Hu2 & Hw2).
  assert (emit c (deleted_of None) w2 = drop (S k) (emit c (deleted_of None) vs)) as Hvt.
  { rewrite <-(Nat.add_1_l k), Nat.add_comm, <-drop_drop, <-Hw2. done. }
  destruct (decide (a1 = k)) as [->|Hne].
  - assert (l1 = l2) as -> by congruence.
    exists u1, [], w1. split_and!; [done|by exists []|done|].
    rewrite Hvs1 in Hvs2 at 1. rewrite Hvs1 in Hnd.
    apply NoDup_split_inj in Hvs2 as [_ ->]; done.
  - assert (l1 ∈ emit c (deleted_of None) u2) as Hin.
    { rewrite Hu2. apply list_elem_of_lookup. exists a1.
      rewrite lookup_take_lt by lia. done. }
    apply elem_of_emit in Hin as (x & Hx & Hxl).
    pose proof (emit_line_pc _ _ _ _ Hxl) as Hpcx. rewrite Hpcx in *.
    apply list_elem_of_split in Hx as (ua & ub & ->).
    rewrite <-app_assoc, <-app_comm_cons in Hvs2.
    rewrite Hvs1 in Hvs2 at 1. rewrite Hvs1 in Hnd.
    apply NoDup_split_inj in Hvs2 as [-> ->]; [|done].
    exists ua, (x :: ub), w2. split_and!; [exact Hvs1|by eexists|done|done].
Qed.

(** One call of [editChunk], with a block inside the view, keeps the
    invariant of the program and gives the view of the edited text. *)
Lemma edit_chunk_inv c m ls h a1 a2 nl l1 orig :
  chunk_inv c m ls h →
  a1 ≤ a2 → a2 < length ls →
  ls !! a1 = Some l1 → c !! LineInfo.pc l1 = Some orig →
  let topt := if bool_decide (a1 < a2)
              then (λ l2, LineInfo.pc l2 + 1) <$> ls !! (a2 - 1) else None in
  let ls1 := <[a1 := LineInfo.set_pc (tail_pc c m nl topt) l1]> ls in
  chunk_inv (edited_code c m (LineInfo.pc l1) orig nl topt) m
    (take a1 ls1 ++ inserted m (length c) nl ++ drop a2 ls1) h.
Proof.
  intros [[rank Hr] Hrevs (vs & Hrun & ->) Hg Hu Hh] H12 H2 Hl1 Horig topt ls1.
  pose proof (run_NoDup rank c Hr m m _ _ Hrun) as Hnd.
  destruct (emit_split c _ vs a1 l1 Hnd Hl1) as (u1 & w1 & Hvs1 & Hl1' & Hu1 & Hw1).
  set (p := LineInfo.pc l1) in *.
  assert (orig = END ∨ ∃ r d, orig = LINE r d) as Hkind.
  { destruct (emit_line_kind _ _ _ _ Hl1') as [?|(r & d & ?)];
      [left|right; exists r, d]; congruence. }
  assert (run c m m p (p :: w1)) as Hrunp.
  { rewrite Hvs1 in Hrun. by apply run_split in Hrun as [_ ?]. }
  (* the target of the [JGE], when lines are deleted *)
  assert (∀ t, topt = Some t → ∃ q r d vm vt,
            t = q + 1 ∧ c !! q = Some (LINE r d) ∧ run c m m p (vm ++ q :: vt)
            ∧ emit c (deleted_of None) vt = drop a2 (emit c (deleted_of None) vs))
    as Hq'.
  { intros t Htopt. subst topt. case_bool_decide as Hlt; [|done].
    destruct (emit c (deleted_of None) vs !! (a2 - 1)) as [l2|] eqn:Hl2; [|done].
    injection Htopt as <-.
    destruct (head_two_lines rank c m m vs a1 (a2 - 1) l1 l2 Hr Hrun Hl1 Hl2
                ltac:(lia)) as (u1' & vm & vt & Hvs & [vm' Hvm] & Hu1' & Hvt).
    destruct (run_emit_LINE rank c m m _ vs (a2 - 1) l2 Hr Hrun Hl2 ltac:(lia))
      as (r & d & Hcq).
    exists (LineInfo.pc l2), r, d, vm, vt. split_and!; [done..| |].
    - rewrite Hvs in Hrun. destruct vm as [|y vm]; injection Hvm as Hy _.
      + rewrite Hy in *. by apply run_split in Hrun as [_ ?].
      + rewrite Hy in *. rewrite <-app_comm_cons in Hrun.
        by apply run_split in Hrun as [_ ?].
    - rewrite Hvt. f_equal. lia. }
  assert (∀ t, topt = Some t → ∃ q r d vm vt,
            t = q + 1 ∧ c !! q = Some (LINE r d) ∧ run c m m p (vm ++ q :: vt))
    as Hq by (intros t Ht; destruct (Hq' t Ht) as (?&?&?&?&?&?&?&?&_); eauto 10).
  assert (∀ t, topt = Some t → t < length c ∧ rank p < rank t) as Ht
    by (eapply edit_Ht; eauto).
  split.
  - by eapply edit_new_ranked.
  - by eapply edit_new_revs.
  - (* the view *)
    unfold head_view.
    assert (take a1 ls1 = emit c (deleted_of None) u1) as ->.
    { subst ls1. by rewrite take_insert_ge. }
    assert (∀ x, x ∈ vs → x < length c) as Hold
      by (intros x Hx; exact (run_bound c m m 0 vs x Hrun Hx)).
    assert ((p ∉ u1) ∧ (p ∉ w1)) as [Hp1 Hp2].
    { rewrite Hvs1 in Hrun. eapply (old_run_NoDup rank c Hr); eauto. }
    destruct (option_cases topt) as [Htopt|[t Htopt]].
    + (* no line deleted: the line at [a1] moves to the end of the chunk *)
      assert (a1 = a2) as <-.
      { subst topt. case_bool_decide as Hlt; [|lia].
        destruct (lookup_lt_is_Some_2 (emit c (deleted_of None) vs) (a2 - 1))
          as [l2 Hl2]; [lia|]. by rewrite Hl2 in Htopt. }
      eexists. split.
      { rewrite Hvs1 in Hrun.
        eapply (edited_run_through rank c Hr m p orig nl topt); eauto.
        intros t' Ht'. congruence. }
      rewrite !emit_app.
      rewrite (edited_emit_old c m p orig nl topt _ u1)
        by (try done; intros; apply Hold; rewrite Hvs1; set_solver).
      rewrite (edited_emit_old c m p orig nl topt _ w1)
        by (try done; intros; apply Hold; rewrite Hvs1; set_solver).
      rewrite (ins_path_emit c m p orig nl topt Horig).
      rewrite bool_decide_eq_false_2 by lia.
      rewrite (del_path_emit c m p orig nl topt Horig).
      rewrite (tail_emit c m p orig nl topt Horig Hkind).
      rewrite emit_cons, edit_p_not_line' by done.
      replace (emit_line c (λ _, deleted_of None (tail_pc c m nl topt)) p)
        with (Some l1) by done.
      f_equal. change (emit _ _ []) with (@nil LineInfo.t). cbn [app].
      apply (f_equal2 app); [done|].
      subst ls1. rewrite drop_insert_ge, Nat.sub_diag, <-Hw1 by done. done.
    + (* lines deleted: the [JGE] lands after the last of them *)
      destruct (Hq' t Htopt) as (q & r & d & vm & vt & Htq & Hcq & Hrunq & Hvt).
      assert (a1 < a2) as Hlt.
      { subst topt. by case_bool_decide. }
      pose proof (run_det _ _ _ _ _ _ Hrunp Hrunq) as Heq.
      assert (run c m m t vt) as Hrunt.
      { apply run_split in Hrunq as [_ Hqrun].
        inversion Hqrun as [? Hcq'|? i pc' ? Hcq' Hnext Hrest]; subst.
        - rewrite Hcq in Hcq'. done.
        - rewrite Hcq in Hcq'. injection Hcq' as <-. by injection Hnext as <-. }
      eexists. split.
      { rewrite Hvs1 in Hrun.
        eapply (edited_run_jump rank c Hr m p orig nl topt); eauto. lia. }
      rewrite !emit_app.
      rewrite (edited_emit_old c m p orig nl topt _ u1)
        by (try done; intros; apply Hold; rewrite Hvs1; set_solver).
      rewrite (edited_emit_old c m p orig nl topt _ vt).
      2:{ intros x Hx. apply Hold. rewrite Hvs1.
          assert (x ∈ p :: w1) by (rewrite Heq; set_solver). set_solver. }
      2:{ intros Hp. pose proof (run_rank_le rank c Hr m m _ _ _ Hrunt Hp).
          destruct (Ht t Htopt). lia. }
      rewrite (ins_path_emit c m p orig nl topt Horig).
      rewrite bool_decide_eq_false_2 by lia.
      rewrite !emit_cons, edit_p_not_line' by done.
      unfold emit_line at 1.
      rewrite (edited_lookup_JGE c m p orig nl topt Horig t Htopt).
      f_equal. change (emit _ _ []) with (@nil LineInfo.t). cbn [app].
      apply (f_equal2 app); [done|].
      subst ls1. by rewrite drop_insert_lt, Hvt by done.
  - by eapply edit_new_guarded.
  - by eapply edit_new_union.
  - intros r t Hrt. destruct (Hh r t Hrt) as [Hlt Hsnap]. split; [done|].
    by eapply edit_new_snapshot.
Qed.

(** ** The highest revision of a program *)

Lemma code_max_rev_cons i c :
  code_max_rev (i :: c)
  = Z.max (match i with JGE r _ | JL r _ => r | _ => 0%Z end) (code_max_rev c).
Proof. done. Qed.

Lemma code_max_rev_nonneg c : (0 ≤ code_max_rev c)%Z.
Proof.
  induction c as [|i c IH]; [done|]. rewrite code_max_rev_cons. lia.
Qed.

Lemma code_max_rev_app c1 c2 :
  code_max_rev (c1 ++ c2) = Z.max (code_max_rev c1) (code_max_rev c2).
Proof.
  induction c1 as [|i c1 IH].
  - pose proof (code_max_rev_nonneg c2). change (code_max_rev []) with 0%Z.
    simpl. lia.
  - rewrite <-app_comm_cons, !code_max_rev_cons, IH. lia.
Qed.

Lemma code_max_rev_insert c p i i' :
  c !! p = Some i →
  match i with JGE _ _ | JL _ _ => False | _ => True end →
  match i' with JGE _ _ | JL _ _ => False | _ => True end →
  code_max_rev (<[p := i']> c) = code_max_rev c.
Proof.
  revert p. induction c as [|j c IH]; intros p Hp Hi Hi'; [done|].
  destruct p as [|p]; simpl in *.
  - injection Hp as ->. rewrite !code_max_rev_cons. by destruct i, i'.
  - by rewrite !code_max_rev_cons, (IH p).
Qed.

Lemma code_max_rev_le c : jump_revs_le c (code_max_rev c).
Proof.
  induction c as [|j c IH]; intros pc i Hpc; [done|].
  rewrite code_max_rev_cons.
  destruct pc as [|pc]; simpl in *.
  - injection Hpc as ->. destruct i; try done; lia.
  - specialize (IH pc i Hpc). destruct i; try done; lia.
Qed.

Lemma code_max_rev_lines m nl : code_max_rev (LINE m <$> nl) = 0%Z.
Proof.
  induction nl as [|x nl IH]; [done|].
  rewrite fmap_cons, code_max_rev_cons, IH. done.
Qed.

Lemma edited_code_max_rev c m p orig nl topt :
  c !! p = Some orig →
  orig = END ∨ (∃ r d, orig = LINE r d) →
  0 < length nl ∨ is_Some topt →
  (code_max_rev c ≤ m)%Z →
  code_max_rev (edited_code c m p orig nl topt) = m.
Proof.
  intros Horig Hkind Hne Hle. unfold edited_code.
  rewrite (code_max_rev_insert _ p orig).
  - rewrite !code_max_rev_app.
    pose proof (code_max_rev_nonneg c).
    assert (code_max_rev (tail_part p orig) = 0%Z) as ->
      by (by destruct Hkind as [->|(r & d & ->)]).
    unfold ins_part, del_part. destruct Hne as [Hnl|[t ->]].
    + rewrite bool_decide_eq_true_2 by done.
      rewrite code_max_rev_cons, code_max_rev_lines.
      destruct topt; rewrite ?code_max_rev_cons; change (code_max_rev []) with 0%Z; lia.
    + case_bool_decide.
      * rewrite !code_max_rev_cons, code_max_rev_lines.
        change (code_max_rev []) with 0%Z; lia.
      * rewrite !code_max_rev_cons. change (code_max_rev []) with 0%Z; lia.
  - rewrite lookup_app_l; [done|by eapply lookup_lt_Some].
  - by destruct Hkind as [->|(r & d & ->)].
  - done.
Qed.

(** ** One call of [editChunk] on a LineLog *)

Lemma inserted_data m start nl : LineInfo.data <$> inserted m start nl = nl.
Proof.
  unfold inserted. revert start. induction nl as [|x nl IH]; intros start; [done|].
  cbn [imap fmap list_fmap]. f_equal.
  rewrite <-(IH (S start)) at 2. f_equal. apply imap_ext. intros i y _. simpl.
  f_equal. lia.
Qed.

Lemma editChunk_mid st m h a1 a2 nl :
  chunk_inv (code st) m (lines st) h →
  (maxRev st ≤ m)%Z → code_max_rev (code st) = maxRev st →
  a1 ≤ a2 → a2 < length (lines st) → 0 < length nl ∨ a1 < a2 →
  ∃ st', editChunk a1 a2 m nl st = (st', Ok tt)
    ∧ chunk_inv (code st') m (lines st') h
    ∧ maxRev st' = m ∧ code_max_rev (code st') = m ∧ lastCheckoutRev st' = m
    ∧ tsMap st' = tsMap st ∧ extraMap st' = extraMap st ∧ content st' = content st
    ∧ LineInfo.data <$> lines st'
      = take a1 (LineInfo.data <$> lines st) ++ nl
          ++ drop a2 (LineInfo.data <$> lines st).
Proof.
  intros Hinv Hmax Hcmr H12 H2 Hne.
  destruct (lookup_lt_is_Some_2 (lines st) a1) as [l1 Hl1]; [lia|].
  pose proof Hinv as [[rank Hr] _ (vs & Hrun & Hls) _ _ _].
  assert (∃ orig, code st !! LineInfo.pc l1 = Some orig
                  ∧ (orig = END ∨ ∃ r d, orig = LINE r d)) as (orig & Horig & Hkind).
  { rewrite Hls in Hl1. apply list_elem_of_lookup_2, elem_of_emit in Hl1
      as (x & _ & Hx). rewrite (emit_line_pc _ _ _ _ Hx).
    destruct (emit_line_kind _ _ _ _ Hx) as [?|(r & d & ?)]; eauto 10. }
  eexists. split; [by apply (editChunk_ok a1 a2 m nl st l1 orig); try lia|].
  unfold editChunk_result. fields.
  split; [by apply edit_chunk_inv|].
  split_and!; try done.
  - case_bool_decide; lia.
  - apply edited_code_max_rev; [done..| |lia].
    destruct Hne as [?|Hlt]; [by left|right].
    rewrite bool_decide_eq_true_2 by done.
    destruct (lookup_lt_is_Some_2 (lines st) (a2 - 1)) as [l2 ->]; [lia|]. done.
  - rewrite !fmap_app, inserted_data, fmap_take, fmap_drop, list_fmap_insert.
    rewrite (list_insert_id (LineInfo.data <$> lines st)); [done|].
    by rewrite list_lookup_fmap, Hl1.
Qed.

(** ** The blocks of a diff, applied from the last to the first *)

Lemma editChunks_app rev blines bs1 bs2 st :
  editChunks rev blines (bs1 ++ bs2) st
  = (editChunks rev blines bs1;; editChunks rev blines bs2) st.
Proof.
  revert st. induction bs1 as [|[[[a1 a2] b1] b2] bs1 IH]; intros st.
  - simpl. by rewrite bind_ret.
  - cbn [app editChunks]. rewrite bind_assoc.
    unfold mbind, M_bind. destruct (editChunk _ _ _ _ st) as [st1 [[]|e]]; [|done].
    apply IH.
Qed.

Lemma editChunks_aligned m h pa pb ra rb blocks :
  aligned pa pb ra rb blocks →
  ∀ st pre blines,
    chunk_inv (code st) m (lines st) h →
    (maxRev st ≤ m)%Z → code_max_rev (code st) = maxRev st →
    LineInfo.data <$> lines st = pre ++ ra ++ [""] →
    length pre = pa → drop pb blines = rb →
    ∃ st', editChunks m blines (reverse blocks) st = (st', Ok tt)
      ∧ chunk_inv (code st') m (lines st') h
      ∧ LineInfo.data <$> lines st' = pre ++ rb ++ [""]
      ∧ (blocks = [] → st' = st)
      ∧ (blocks ≠ [] → maxRev st' = m ∧ lastCheckoutRev st' = m)
      ∧ (maxRev st' ≤ m)%Z ∧ code_max_rev (code st') = maxRev st'
      ∧ tsMap st' = tsMap st ∧ extraMap st' = extraMap st ∧ content st' = content st.
Proof.
  induction 1 as [pa pb e|pa pb e d i la lb blocks Hne Hal IH];
    intros st pre blines Hinv Hmax Hcmr Hdata Hpre Hdrop.
  - exists st. by split_and!.
  - destruct (IH st (pre ++ e ++ d) blines) as
      (st1 & Hrun1 & Hinv1 & Hdata1 & _ & _ & Hmax1 & Hcmr1 & Hts1 & Hex1 & Hct1);
      try done.
    { by rewrite Hdata, <-!app_assoc. }
    { rewrite !length_app. lia. }
    { replace (pb + length e + length i) with (pb + (length e + length i)) by lia.
      rewrite <-drop_drop, Hdrop.
      by rewrite app_assoc, drop_app_length' by (rewrite length_app; lia). }
    assert (take (pb + length e + length i - (pb + length e)) (drop (pb + length e) blines) = i)
      as Hnl.
    { rewrite <-drop_drop, Hdrop, drop_app_length.
      replace (pb + length e + length i - (pb + length e)) with (length i) by lia.
      by rewrite take_app_length. }
    assert (length (lines st1) = length pre + length e + length d + length lb + 1) as Hlen.
    { rewrite <-(length_fmap LineInfo.data), Hdata1, !length_app. simpl. lia. }
    destruct (editChunk_mid st1 m h (pa + length e) (pa + length e + length d) i)
      as (st2 & Hrun2 & Hinv2 & Hmax2 & Hcmr2 & Hlast2 & Hts2 & Hex2 & Hct2 & Hdata2);
      try done; try lia.
    { destruct Hne as [Hd|Hi]; [right|left].
      - destruct d; [done|]. simpl. lia.
      - destruct i; [done|]. simpl. lia. }
    exists st2. split_and!; try done; try congruence; try lia.
    + rewrite reverse_cons, editChunks_app.
      unfold mbind, M_bind. rewrite Hrun1. cbn [editChunks].
      rewrite Hnl. unfold mbind, M_bind. rewrite Hrun2. done.
    + rewrite Hdata2, Hdata1, <-Hpre.
      replace ((pre ++ e ++ d) ++ lb ++ [""]) with ((pre ++ e) ++ d ++ lb ++ [""])
        by (by rewrite <-!app_assoc).
      rewrite take_app_length' by (rewrite length_app; lia).
      replace ((pre ++ e) ++ d ++ lb ++ [""]) with (((pre ++ e) ++ d) ++ lb ++ [""])
        by (by rewrite <-!app_assoc).
      rewrite drop_app_length' by (rewrite !length_app; lia).
      by rewrite <-!app_assoc.
Qed.

(** ** Rewriting the text of one line in place

    The trivial path of [recordText] replaces the data of one [LINE]; the
    executions of the program are unchanged, and so is what they emit away
    from that line. *)

Section Update.
Context (c : list Inst) (p : Pc) (r : Rev) (x y : string).
Context (Hp : c !! p = Some (LINE r x)).

Local Abbreviation c' := (<[p := LINE r y]> c).

Lemma update_lookup_ne q : q ≠ p → c' !! q = c !! q.
Proof. intros. by rewrite list_lookup_insert_ne. Qed.

Lemma update_lookup_eq : c' !! p = Some (LINE r y).
Proof. apply list_lookup_insert_eq. by eapply lookup_lt_Some. Qed.

Lemma update_lookup q i :
  c !! q = Some i →
  ∃ i', c' !! q = Some i' ∧ succs q i' = succs q i
        ∧ (∀ s e, next_pc s e q i' = next_pc s e q i)
        ∧ (∀ ρ t, i' = JGE ρ t ∨ i' = JL ρ t → i' = i)
        ∧ (∀ ρ d, i' = LINE ρ d → ∃ d', i = LINE ρ d')
        ∧ (i = END ↔ i' = END).
Proof.
  intros Hq. destruct (decide (q = p)) as [->|Hne].
  - rewrite Hp in Hq. injection Hq as <-. exists (LINE r y).
    rewrite update_lookup_eq. split_and!; try done.
    + by intros ? ? [|].
    + intros ? ? [= <- <-]. eauto.
  - exists i. rewrite update_lookup_ne by done. split_and!; try done. eauto.
Qed.

Lemma update_lookup_back q i' :
  c' !! q = Some i' →
  ∃ i, c !! q = Some i ∧ succs q i' = succs q i
       ∧ (∀ s e, next_pc s e q i' = next_pc s e q i)
       ∧ (∀ ρ t, i' = JGE ρ t ∨ i' = JL ρ t → i' = i)
       ∧ (∀ ρ d, i' = LINE ρ d → ∃ d', i = LINE ρ d')
       ∧ (i = END ↔ i' = END).
Proof.
  intros Hq. destruct (decide (q = p)) as [->|Hne].
  - rewrite update_lookup_eq in Hq. injection Hq as <-. exists (LINE r x).
    split_and!; try done.
    + by intros ? ? [|].
    + intros ? ? [= <- <-]. eauto.
  - rewrite update_lookup_ne in Hq by done.
    exists i'. split_and!; try done. eauto.
Qed.

Lemma update_length : length c' = length c.
Proof. apply length_insert. Qed.

Lemma update_run s e pc vs : run c s e pc vs → run c' s e pc vs.
Proof.
  induction 1 as [pc Hpc|pc i pc' vs Hpc Hnext _ IH].
  - destruct (update_lookup _ _ Hpc) as (i' & Hi' & _ & _ & _ & _ & Hend).
    apply run_end. rewrite Hi'. f_equal. by apply Hend.
  - destruct (update_lookup _ _ Hpc) as (i' & Hi' & _ & Hn & _).
    eapply run_step; [done| |done]. by rewrite Hn.
Qed.

Lemma update_run_back s e pc vs : run c' s e pc vs → run c s e pc vs.
Proof.
  induction 1 as [pc Hpc|pc i pc' vs Hpc Hnext _ IH].
  - destruct (update_lookup_back _ _ Hpc) as (i' & Hi' & _ & _ & _ & _ & Hend).
    apply run_end. rewrite Hi'. f_equal. by apply Hend.
  - destruct (update_lookup_back _ _ Hpc) as (i' & Hi' & _ & Hn & _).
    eapply run_step; [done| |done]. by rewrite <-Hn.
Qed.

Lemma update_ranked rank : ranked rank c → ranked rank c'.
Proof.
  intros Hr pc i q Hpc Hq.
  destruct (update_lookup_back _ _ Hpc) as (i0 & Hi0 & Hs & _).
  rewrite update_length. eapply Hr; [done|]. by rewrite <-Hs.
Qed.

Lemma update_jump_revs_le m : jump_revs_le c m → jump_revs_le c' m.
Proof.
  intros Hle pc i Hpc.
  destruct (update_lookup_back _ _ Hpc) as (i0 & Hi0 & _ & _ & Hj & _).
  specialize (Hle pc i0 Hi0).
  destruct i as [|ρ t|ρ t| |]; try done.
  - by rewrite <-(Hj ρ t) in Hle by eauto.
  - by rewrite <-(Hj ρ t) in Hle by eauto.
Qed.

Lemma update_code_max_rev : code_max_rev c' = code_max_rev c.
Proof. by apply (code_max_rev_insert _ _ (LINE r x)). Qed.

Lemma update_emit_line_ne del q : q ≠ p → emit_line c' del q = emit_line c del q.
Proof. intros. unfold emit_line. by rewrite update_lookup_ne. Qed.

Lemma update_emit_line_eq del :
  emit_line c' del p = Some (LineInfo.mk y r p (del p)).
Proof. unfold emit_line. by rewrite update_lookup_eq. Qed.

Lemma update_emit_ne del vs : p ∉ vs → emit c' del vs = emit c del vs.
Proof.
  induction vs as [|q vs IH]; [done|]. intros Hq.
  rewrite !emit_cons, IH, update_emit_line_ne by set_solver. done.
Qed.

Lemma update_is_line q : is_line c' q ↔ is_line c q.
Proof.
  unfold is_line. destruct (decide (q = p)) as [->|Hne].
  - rewrite update_emit_line_eq. unfold emit_line. rewrite Hp. split; eauto.
  - by rewrite update_emit_line_ne.
Qed.

Lemma update_guarded : guarded c → guarded c'.
Proof.
  intros Hg s e vs q ρ d Hse Hrun Hq Hcq.
  destruct (update_lookup_back _ _ Hcq) as (i0 & Hi0 & _ & _ & _ & Hl & _).
  destruct (Hl ρ d eq_refl) as (d' & ->).
  eapply Hg; [done|by apply update_run_back|done..].
Qed.

Lemma update_union_covers : union_covers c → union_covers c'.
Proof.
  intros Hu s e vs vr q Hse Hvs Hvr Hq Hline.
  eapply Hu; [done|by apply update_run_back|by apply update_run_back|done|].
  by apply update_is_line.
Qed.

Lemma update_snapshot ρ t :
  guarded c → (ρ < r)%Z → snapshot_is c ρ t → snapshot_is c' ρ t.
Proof.
  intros Hg Hlt (vs & Hrun & Hdata). exists vs. split; [by apply update_run|].
  rewrite update_emit_ne; [done|]. intros Hin.
  pose proof (Hg ρ ρ vs p r x ltac:(lia) Hrun Hin Hp). lia.
Qed.

Lemma update_head_view rank m ls a1 l1 :
  ranked rank c → head_view c m ls → ls !! a1 = Some l1 → LineInfo.pc l1 = p →
  head_view c' m (<[a1 := LineInfo.set_data y l1]> ls).
Proof.
  intros Hr (vs & Hrun & ->) Hl1 Hpc.
  exists vs. split; [by apply update_run|].
  pose proof (run_NoDup rank c Hr m m _ _ Hrun) as Hnd.
  destruct (emit_split _ _ _ _ _ Hnd Hl1) as (u & w & Hvs & Hline & Hu & Hw).
  rewrite Hpc in *.
  rewrite insert_take_drop by (by eapply lookup_lt_Some).
  rewrite (drop_S _ _ _ Hl1) in Hw. apply (f_equal tail) in Hw. cbn [tail] in Hw.
  rewrite <-Hu, <-Hw. rewrite Hvs in Hnd |- *.
  apply NoDup_app in Hnd as (_ & Hpu & [Hpw _]%NoDup_cons).
  rewrite emit_app, emit_cons, update_emit_line_eq.
  assert (p ∉ u) by (intros Hin; apply (Hpu p Hin); left).
  rewrite !update_emit_ne by done.
  f_equal. f_equal.
  unfold emit_line in Hline. rewrite Hp in Hline. by injection Hline as <-.
Qed.

End Update.

(** ** [recordText] keeps the invariant *)

Lemma checkOut_cached rev st :
  Z.min rev (maxRev st) = lastCheckoutRev st → checkOut rev None st = (st, Ok tt).
Proof.
  intros Hrev. rewrite checkOut_unfold. unfold checkOut_result. cbv zeta.
  by rewrite Hrev, !bool_decide_eq_true_2.
Qed.

Lemma inv_chunk st h m :
  inv st h → (maxRev st < m)%Z → chunk_inv (code st) m (lines st) h.
Proof.
  intros [Hr Hrevs Hmax (vs & Hrun & Hls) Hg Hu Hlast Hct Hh] Hm. split; try done.
  - intros pc i Hpc. specialize (Hrevs pc i Hpc). destruct i; try done; lia.
  - exists vs. split; [|done]. eapply run_saturated; [done| | | | |done]; lia.
  - intros r t Hrt. destruct (Hh r t Hrt). split; [lia|done].
Qed.

Lemma head_snapshot c m ls text :
  head_view c m ls → LineInfo.data <$> ls = splitLines text ++ [""] →
  snapshot_is c m text.
Proof. intros (vs & Hrun & ->) Hdata. by exists vs. Qed.

Lemma inv_new : inv new_LineLog.1 {[ 0%Z := "" ]}.
Proof.
  assert (run [END] 0 0 0 [0]) as Hrun by (by apply run_end).
  assert (new_LineLog.1 = mkLineLog [END] ∅ ∅ 0%Z 0%Z [LineInfo.mk "" 0%Z 0 false] "")
    as -> by done.
  split; fields.
  - exists (λ _, 0). intros pc i q Hpc Hq.
    destruct pc; [|done]. injection Hpc as <-. by apply elem_of_nil in Hq.
  - intros pc i Hpc. destruct pc; [|done]. by injection Hpc as <-.
  - done.
  - by exists [0].
  - intros s e vs x r d _ _ _ Hx. destruct x; done.
  - intros s e vs vr x _ Hvs Hvr Hx _.
    assert (∀ s e vs, run [END] s e 0 vs → vs = [0]) as Hone.
    { intros s' e' vs' Hr'. eapply run_det; [done|]. by apply run_end. }
    by rewrite (Hone _ _ _ Hvs) in Hx; rewrite (Hone _ _ _ Hvr).
  - done.
  - done.
  - intros r t [<- <-]%lookup_singleton_Some. split; [done|]. by exists [0].
Qed.

Lemma aligned_single pa la lb a1 a2 b1 b2 :
  aligned pa pa la lb [(a1, a2, b1, b2)] → a2 - a1 = 1 → b2 - b1 = 1 →
  ∃ e x y e', la = e ++ x :: e' ∧ lb = e ++ y :: e'
              ∧ a1 = pa + length e ∧ b1 = pa + length e.
Proof.
  inversion 1 as [|? ? e d i la' lb' ? Hne Hrest]; subst. intros Hd Hi.
  apply aligned_nil_inv in Hrest as ->.
  destruct d as [|x [|? ?]]; simpl in Hd; try lia.
  destruct i as [|y [|? ?]]; simpl in Hi; try lia.
  by exists e, x, y, lb'.
Qed.

Section Record.
Context (dmp_diff : string → string → list (Z * list string)).
Context (Hdiff : diff_sound dmp_diff).

(** The general path: a new revision, and the blocks of the diff applied
    from the last to the first. *)
Lemma recordText_general st h text ts (extra : option Extra) :
  inv st h → content st ≠ text →
  let rev := (maxRev st + 1)%Z in
  ∃ st',
    (modify (λ st, set_tsMap (<[rev := ts]> (tsMap st)) st);;
     match extra with
     | Some e => modify (λ st, set_extraMap (<[rev := e]> (extraMap st)) st)
     | None => mret tt
     end;;
     editChunks rev (splitLines text)
       (reverse (diffLines dmp_diff (content st) text));;
     modify (set_content text);;
     mret rev) st = (st', Ok rev)
    ∧ inv st' (<[rev := text]> h) ∧ maxRev st' = rev.
Proof.
  intros Hinv Hne rev.
  pose proof (inv_chunk st h rev Hinv ltac:(lia)) as Hch.
  pose proof Hinv as [_ _ Hmax _ _ _ _ Hct _].
  set (st1 := match extra with
              | Some e => set_extraMap (<[rev := e]> (extraMap st))
                            (set_tsMap (<[rev := ts]> (tsMap st)) st)
              | None => set_tsMap (<[rev := ts]> (tsMap st)) st
              end).
  assert (code st1 = code st ∧ lines st1 = lines st ∧ maxRev st1 = maxRev st)
    as (Hc1 & Hl1 & Hm1) by (subst st1; by destruct extra).
  destruct (editChunks_aligned rev h 0 0 _ _ _
              (diffLines_aligned dmp_diff (content st) text Hdiff)
              st1 [] (splitLines text))
    as (st2 & Hrun & Hinv2 & Hdata2 & _ & Hnz & _ & Hcmr2 & _ & _ & _);
    rewrite ?Hc1, ?Hl1, ?Hm1; try done; try lia.
  destruct Hnz as [Hmax2 Hlast2]; [by apply diffLines_nonempty|].
  exists (set_content text st2). split_and!; [| |done].
  - rewrite bind_modify.
    assert (∀ k : unit → M Rev,
      (match extra with
       | Some e => modify (λ st, set_extraMap (<[rev := e]> (extraMap st)) st)
       | None => mret tt
       end ≫= k) (set_tsMap (<[rev := ts]> (tsMap st)) st) = k tt st1) as ->.
    { intros k. subst st1. by destruct extra. }
    mstep Hrun. by rewrite bind_modify.
  - destruct Hinv2 as [Hr2 Hrevs2 Hhead2 Hg2 Hu2 Hh2].
    split; fields; rewrite ?Hmax2; try done.
    + by rewrite Hcmr2.
    + intros r t [[<- <-]|[Hrne Hrt]]%lookup_insert_Some.
      * split; [lia|]. by eapply head_snapshot.
      * destruct (Hh2 r t Hrt). split; [lia|done].
Qed.

(** Recording the content again. *)
Lemma inv_same_text st h : inv st h → inv st (<[maxRev st := content st]> h).
Proof.
  intros [Hr Hrevs Hmax Hhead Hg Hu Hlast Hct Hh]. split; try done.
  intros r t [[<- <-]|[Hrne Hrt]]%lookup_insert_Some; [|by apply Hh].
  split; [lia|]. by eapply head_snapshot.
Qed.

(** The trivial path: the text of one line of the last revision is
    rewritten in place. *)
Lemma inv_trivial st h text tsm a1 a2 b1 b2 l1 :
  inv st h →
  aligned 0 0 (splitLines (content st)) (splitLines text) [(a1, a2, b1, b2)] →
  a2 - a1 = 1 → b2 - b1 = 1 →
  lines st !! a1 = Some l1 → LineInfo.rev l1 = maxRev st →
  ∃ r d, code st !! LineInfo.pc l1 = Some (LINE r d)
    ∧ let y := default "" (splitLines text !! b1) in
      inv (set_content text
             (set_lines (<[a1 := LineInfo.set_data y l1]> (lines st))
                (set_code (<[LineInfo.pc l1 := LINE r y]> (code st))
                   (set_tsMap tsm st))))
          (<[maxRev st := text]> h).
Proof.
  intros Hinv Hal Ha Hb Hl1 Hrev.
  pose proof Hinv as [[rank Hr] Hrevs Hmax Hhead Hg Hu Hlast Hct Hh].
  destruct (aligned_single _ _ _ _ _ _ _ Hal Ha Hb)
    as (e & x & y & e' & Hla & Hlb & -> & ->). simpl.
  assert (length (lines st) = length e + S (length e') + 1) as Hlen.
  { rewrite <-(length_fmap LineInfo.data), Hct, Hla, !length_app. simpl. lia. }
  pose proof Hhead as (vs & Hrun & Hls).
  assert (∃ r d, code st !! LineInfo.pc l1 = Some (LINE r d)) as (r & d & Hp).
  { rewrite Hls in Hl1. eapply run_emit_LINE; [done..|]. rewrite <-Hls. lia. }
  assert (LineInfo.rev l1 = r) as Hrl.
  { rewrite Hls in Hl1. apply list_elem_of_lookup_2, elem_of_emit in Hl1
      as (q & _ & Hq). pose proof (emit_line_pc _ _ _ _ Hq) as Hpc.
    rewrite <-Hpc in Hq. unfold emit_line in Hq. rewrite Hp in Hq.
    by injection Hq as <-. }
  exists r, d. split; [done|].
  assert (splitLines text !! length e = Some y) as ->.
  { by rewrite Hlb, lookup_app_r, Nat.sub_diag by lia. }
  cbn [default].
  split; fields.
  - exists rank. by eapply update_ranked.
  - by eapply update_jump_revs_le.
  - by erewrite update_code_max_rev.
  - by eapply update_head_view.
  - by eapply update_guarded.
  - by eapply update_union_covers.
  - done.
  - rewrite list_fmap_insert, Hct, Hla, Hlb. cbn [LineInfo.data LineInfo.set_data].
    rewrite <-!app_assoc, insert_app_r_alt, Nat.sub_diag by lia. done.
  - assert (snapshot_is (<[LineInfo.pc l1 := LINE r y]> (code st)) (maxRev st) text)
      as Hnew.
    { eapply head_snapshot; [by eapply update_head_view|].
      rewrite list_fmap_insert, Hct, Hla, Hlb. cbn [LineInfo.data LineInfo.set_data].
      rewrite <-!app_assoc, insert_app_r_alt, Nat.sub_diag by lia. done. }
    intros r' t [[<- <-]|[Hrne Hrt]]%lookup_insert_Some; [done|].
    destruct (Hh r' t Hrt) as [Hle Hsnap]. split; [done|].
    apply (update_snapshot _ _ r d y Hp r' t Hg); [lia|done].
Qed.

Lemma recordText_inv st h text timestamp extra now :
  inv st h →
  ∃ st' r, recordText dmp_diff text timestamp extra now st = (st', Ok r)
           ∧ inv st' (<[r := text]> h)
           ∧ maxRev st' = r ∧ (maxRev st ≤ r ≤ maxRev st + 1)%Z
           ∧ (r = maxRev st → st' = st ∨ content st ≠ "").
Proof.
  intros Hinv. unfold recordText. rewrite bind_get. cbv zeta.
  case_bool_decide as Htext.
  { exists st, (maxRev st). split_and!; [done| |done|lia|lia|by left].
    rewrite <-Htext. by apply inv_same_text. }
  assert (checkOut (maxRev st) None st = (st, Ok tt)) as Hco.
  { apply checkOut_cached. rewrite (inv_last _ _ Hinv). lia. }
  lazymatch goal with
  | |- context [(?m ≫= ?f) st] => rewrite (bind_eq m f st _ _ Hco)
  end.
  rewrite bind_get.
  pose proof (diffLines_aligned dmp_diff (content st) text Hdiff) as Hal.
  pose proof (recordText_general st h text (ts_or_now timestamp now) extra Hinv Htext)
    as (stg & Hgen & Hinvg & Hmaxg).
  assert (∃ st' r, (st', Ok r) = (stg, Ok (maxRev st + 1)%Z)
                   ∧ inv st' (<[r := text]> h)
                   ∧ maxRev st' = r ∧ (maxRev st ≤ r ≤ maxRev st + 1)%Z
                   ∧ (r = maxRev st → st' = st ∨ content st ≠ "")) as Hg.
  { exists stg, (maxRev st + 1)%Z. split_and!; [done..|lia|lia|lia]. }
  lazymatch goal with
  | |- context [match ?t with Some _ => _ | None => mret None end] =>
      destruct t as [[a1 b1]|] eqn:Htriv
  end.
  2: { rewrite bind_ret, bind_get. cbv zeta. rewrite Hgen.
       destruct Hg as (st' & r & [= -> ->] & ?). eauto. }
  destruct (diffLines dmp_diff (content st) text)
    as [|[[[a1' a2] b1'] b2] [|? ?]] eqn:Hblocks; try done.
  destruct (bool_decide (a2 - a1' = 1)) eqn:Ha; [|done].
  destruct (bool_decide (b2 - b1' = 1)) eqn:Hb; [|done].
  injection Htriv as -> ->.
  apply bool_decide_eq_true in Ha, Hb.
  destruct (aligned_single _ _ _ _ _ _ _ Hal Ha Hb)
    as (e & x & y & e' & Hla & Hlb & Ha1 & Hb1).
  destruct (lookup_lt_is_Some_2 (lines st) a1) as [l1 Hl1].
  { rewrite <-(length_fmap LineInfo.data), (inv_content _ _ Hinv), Hla, !length_app.
    simpl. lia. }
  rewrite Hl1.
  destruct (bool_decide (LineInfo.rev l1 = maxRev st)) eqn:Hrev.
  2: { cbn [andb]. rewrite bind_ret, bind_get. cbv zeta. rewrite Hgen.
       destruct Hg as (st' & r & [= -> ->] & ?). eauto. }
  destruct (bool_decide (length (filter _ (lines st)) = 1)) eqn:Hcount.
  2: { cbn [andb]. rewrite bind_ret, bind_get. cbv zeta. rewrite Hgen.
       destruct Hg as (st' & r & [= -> ->] & ?). eauto. }
  cbn [andb]. apply bool_decide_eq_true in Hrev.
  destruct (inv_trivial st h text (<[maxRev st := ts_or_now timestamp now]> (tsMap st))
              a1 a2 b1 b2 l1 Hinv Hal Ha Hb Hl1 Hrev) as (r & d & Hp & Hnew).
  rewrite bind_assoc, bind_modify, bind_assoc, bind_get. fields. rewrite Hp.
  rewrite !bind_assoc, bind_modify, !bind_assoc, bind_modify, !bind_assoc, bind_modify.
  rewrite !bind_ret. fields.
  eexists _, _. split; [done|]. split_and!; [exact Hnew|done|lia|lia|].
  intros _. right. intros Hempty. rewrite Hempty in Hla. by destruct e.
Qed.

Lemma built_inv st h : built dmp_diff st h → inv st h.
Proof.
  induction 1 as [|st h text timestamp extra now st' r _ IH Hrec]; [apply inv_new|].
  destruct (recordText_inv st h text timestamp extra now IH)
    as (st'' & r' & Hrec' & Hinv' & _).
  rewrite Hrec in Hrec'. by injection Hrec' as <- <-.
Qed.

Lemma inv_head_content st h t :
  inv st h → h !! maxRev st = Some t → content st = t.
Proof.
  intros Hinv Ht. destruct (inv_hist _ _ Hinv _ _ Ht) as [_ (vs & Hrun & Hdata)].
  destruct (inv_head _ _ Hinv) as (vs' & Hrun' & Hls).
  rewrite (run_det _ _ _ _ _ _ Hrun Hrun'), <-Hls, (inv_content _ _ Hinv) in Hdata.
  by apply app_inv_tail, splitLines_inj in Hdata.
Qed.

(** Revision 0 is the empty text, and nothing is ever recorded under it
    again; the LineLog is the new one as long as [maxRev] is 0. *)
Lemma built_zero st h :
  built dmp_diff st h →
  h !! 0%Z = Some "" ∧ (0 ≤ maxRev st)%Z ∧ (maxRev st = 0%Z → st = new_LineLog.1).
Proof.
  induction 1 as [|st h text timestamp extra now st' r Hb (IH0 & IHm & IHnew) Hrec];
    [done|].
  pose proof (built_inv _ _ Hb) as Hinv.
  destruct (recordText_inv st h text timestamp extra now Hinv)
    as (st'' & r' & Hrec' & Hinv' & Hmax' & Hr' & Hsame).
  rewrite Hrec in Hrec'. injection Hrec' as <- <-.
  assert (r = 0%Z → st' = st ∧ text = "") as Hzero.
  { intros ->. assert (maxRev st = 0%Z) as Hm by lia.
    assert (content st = "") as Hct by (apply (inv_head_content st h); by rewrite ?Hm).
    destruct Hsame as [->|Hne]; [done| |done].
    split; [done|]. rewrite <-Hct. symmetry. by eapply recordText_content. }
  split_and!.
  - destruct (decide (r = 0%Z)) as [Hr|Hr].
    + destruct (Hzero Hr) as [_ ->]. rewrite Hr. by rewrite lookup_insert_eq.
    + by rewrite lookup_insert_ne.
  - lia.
  - intros Hm. rewrite Hmax' in Hm. destruct (Hzero Hm) as [-> _]. apply IHnew. lia.
Qed.

Lemma built_recordText st h text timestamp extra now :
  built dmp_diff st h →
  ∃ st' r, recordText dmp_diff text timestamp extra now st = (st', Ok r)
           ∧ built dmp_diff st' (<[r := text]> h).
Proof.
  intros Hb. destruct (recordText_inv st h text timestamp extra now (built_inv _ _ Hb))
    as (st' & r & Hrec & _).
  exists st', r. split; [done|]. by eapply built_record.
Qed.

End Record.

(** ** Checking out a LineLog that satisfies the invariant *)

Lemma join_lines t : join (splitLines t ++ [""]) = t.
Proof. by rewrite join_app, splitLines_join, string_app_nil_r. Qed.

Lemma inv_code_not_nil st h : inv st h → code st ≠ [].
Proof.
  intros Hinv Hnil. destruct (inv_head _ _ Hinv) as (vs & Hrun & _).
  rewrite Hnil in Hrun. inversion Hrun; simplify_eq.
Qed.

Lemma inv_execute_loop st h s e del :
  inv st h →
  ∃ vs, run (code st) s e 0 vs ∧ length vs ≤ length (code st)
        ∧ execute_loop (code st) s e del (length (code st) * 2) 0
          = Ok (emit (code st) del vs).
Proof.
  intros Hinv. destruct (inv_ranked _ _ Hinv) as [rank Hr].
  eapply ranked_execute_loop; [done|by eapply inv_code_not_nil].
Qed.

(** The content after [checkOut(rev)] is read off the execution of the
    revision, whether the view is computed or found in the cache. *)
Lemma inv_checkOut st h rev :
  inv st h →
  let r := Z.min rev (maxRev st) in
  ∃ st' vs, checkOut rev None st = (st', Ok tt)
    ∧ run (code st) r r 0 vs
    ∧ lines st' = emit (code st) (deleted_of None) vs
    ∧ content st' = join (LineInfo.data <$> emit (code st) (deleted_of None) vs)
    ∧ same_history st st' ∧ lastCheckoutRev st' = r.
Proof.
  intros Hinv r. rewrite checkOut_unfold. unfold checkOut_result. cbv zeta. fold r.
  rewrite (bool_decide_eq_true_2 (None = None)), andb_true_r by done.
  case_bool_decide as Hr.
  - destruct (inv_head _ _ Hinv) as (vs & Hrun & Hls).
    exists st, vs. rewrite Hr, (inv_last _ _ Hinv). split_and!; try done.
    by rewrite <-Hls, (inv_content _ _ Hinv), join_lines.
  - destruct (inv_execute_loop st h r r (deleted_of None) Hinv) as (vs & Hrun & _ & ->).
    eexists _, vs. split_and!; [done..|]. done.
Qed.

Lemma inv_checkOut_recorded st h r t :
  inv st h → h !! r = Some t →
  ∃ st', checkOut r None st = (st', Ok tt) ∧ content st' = t.
Proof.
  intros Hinv Hrt. destruct (inv_hist _ _ Hinv _ _ Hrt) as [Hle (vs & Hrun & Hdata)].
  destruct (inv_checkOut st h r Hinv) as (st' & vs' & Hco & Hrun' & _ & Hct & _).
  rewrite Z.min_l in Hrun' by done.
  exists st'. split; [done|].
  by rewrite Hct, <-(run_det _ _ _ _ _ _ Hrun Hrun'), Hdata, join_lines.
Qed.

(** ** Range views *)


Lemma emit_line_deleted c del x l :
  emit_line c del x = Some l → LineInfo.deleted l = del x.
Proof. unfold emit_line. destruct (c !! x) as [[]|]; try done; by intros [= <-]. Qed.





(** ** Views of a history *)

Lemma inv_view_of st h : inv st h → view_of st st.
Proof.
  intros Hinv. split_and!.
  - done.
  - by rewrite (inv_last _ _ Hinv).
  - rewrite (inv_last _ _ Hinv). by eapply inv_head.
  - by rewrite (inv_content _ _ Hinv), join_lines.
Qed.

(** With [maxRev] checked out, the view is the LineLog as [recordText] left
    it. *)
Lemma view_of_head st0 st h :
  inv st0 h → view_of st0 st → lastCheckoutRev st = maxRev st → st = st0.
Proof.
  intros Hinv ((Hc & Hts & Hex & Hm) & _ & (vs & Hrun & Hls) & Hct) Hlast.
  destruct (inv_head _ _ Hinv) as (vs0 & Hrun0 & Hls0).
  rewrite Hlast, Hc, Hm in Hrun.
  assert (lines st = lines st0) as Hlines.
  { by rewrite Hls, Hls0, Hc, (run_det _ _ _ _ _ _ Hrun Hrun0). }
  apply LineLog_eq; try done.
  - by rewrite Hlast, Hm, (inv_last _ _ Hinv).
  - by rewrite Hct, Hlines, (inv_content _ _ Hinv), join_lines.
Qed.

Lemma view_of_checkOut st0 st h rev :
  inv st0 h → view_of st0 st →
  let r := Z.min rev (maxRev st0) in
  ∃ st' vs, checkOut rev None st = (st', Ok tt)
    ∧ run (code st0) r r 0 vs
    ∧ lines st' = emit (code st0) (deleted_of None) vs
    ∧ view_of st0 st' ∧ lastCheckoutRev st' = r.
Proof.
  intros Hinv Hview r.
  pose proof Hview as (Hsame & Hle & (vs & Hrun & Hls) & Hct).
  pose proof Hsame as (Hc & Hts & Hex & Hm).
  rewrite checkOut_unfold. unfold checkOut_result. cbv zeta. rewrite Hc, Hm. fold r.
  rewrite (bool_decide_eq_true_2 (None = None)), andb_true_r by done.
  case_bool_decide as Hr.
  - exists st, vs. rewrite <-Hr, Hc in Hrun. rewrite Hc in Hls.
    split_and!; [done..|]. by rewrite Hr.
  - destruct (inv_execute_loop st0 h r r (deleted_of None) Hinv) as (vs' & Hrun' & _ & ->).
    eexists _, vs'. split_and!; [done..| |done].
    unfold view_of, same_history. fields. rewrite Hc, Hm.
    split_and!; try done; [lia|]. by exists vs'.
Qed.

Lemma view_of_checkOut_recorded st0 st h r t :
  inv st0 h → view_of st0 st → h !! r = Some t →
  ∃ st', checkOut r None st = (st', Ok tt) ∧ content st' = t ∧ view_of st0 st'.
Proof.
  intros Hinv Hview Hrt.
  destruct (inv_hist _ _ Hinv _ _ Hrt) as [Hle (vs & Hrun & Hdata)].
  destruct (view_of_checkOut st0 st h r Hinv Hview)
    as (st' & vs' & Hco & Hrun' & Hls & Hview' & _).
  rewrite Z.min_l in Hrun' by done.
  exists st'. split_and!; [done| |done].
  destruct Hview' as (_ & _ & _ & ->).
  by rewrite Hls, <-(run_det _ _ _ _ _ _ Hrun Hrun'), Hdata, join_lines.
Qed.

(** Checking out [maxRev] gives back the LineLog as [recordText] left it. *)
Lemma view_of_checkOut_head st0 st h :
  inv st0 h → view_of st0 st → checkOut (maxRev st) None st = (st0, Ok tt).
Proof.
  intros Hinv Hview. pose proof Hview as ((_ & _ & _ & Hm) & _).
  destruct (view_of_checkOut st0 st h (maxRev st) Hinv Hview)
    as (st' & vs & -> & _ & _ & Hview' & Hlast).
  f_equal. apply (view_of_head st0 st' h Hinv Hview').
  destruct Hview' as ((_ & _ & _ & ->) & _). rewrite Hlast, Hm. lia.
Qed.

(** Two views of one history agree after the same [checkOut]. *)
Lemma view_of_checkOut_agree st0 st1 st2 h rev :
  inv st0 h → view_of st0 st1 → view_of st0 st2 →
  let v1 := (checkOut rev None st1).1 in
  let v2 := (checkOut rev None st2).1 in
  lines v1 = lines v2 ∧ content v1 = content v2 ∧ same_history v1 v2.
Proof.
  intros Hinv Hv1 Hv2. cbv zeta.
  destruct (view_of_checkOut st0 st1 h rev Hinv Hv1)
    as (v1 & vs1 & -> & Hrun1 & Hls1 & ((Hc1 & Ht1 & He1 & Hm1) & _ & _ & Hct1) & _).
  destruct (view_of_checkOut st0 st2 h rev Hinv Hv2)
    as (v2 & vs2 & -> & Hrun2 & Hls2 & ((Hc2 & Ht2 & He2 & Hm2) & _ & _ & Hct2) & _).
  cbn [fst].
  assert (lines v1 = lines v2) as Hls
    by (by rewrite Hls1, Hls2, (run_det _ _ _ _ _ _ Hrun1 Hrun2)).
  unfold same_history. rewrite Hct1, Hct2, Hls. split_and!; congruence.
Qed.

Section Reached.
Context (dmp_diff : string → string → list (Z * list string)).
Context (Hdiff : diff_sound dmp_diff).

Lemma reached_view st h :
  reached dmp_diff st h → ∃ st0, built dmp_diff st0 h ∧ view_of st0 st.
Proof.
  induction 1 as [|st h text timestamp extra now st' r _ (st0 & Hb & Hview) Hlast Hrec
                  |st h rev st' _ (st0 & Hb & Hview) Hco].
  - exists new_LineLog.1. split; [constructor|]. eapply inv_view_of, inv_new.
  - pose proof (built_inv dmp_diff Hdiff _ _ Hb) as Hinv.
    rewrite (view_of_head st0 st h Hinv Hview Hlast) in Hrec.
    exists st'. split; [by eapply built_record|].
    eapply inv_view_of, built_inv; [done|]. by eapply built_record.
  - pose proof (built_inv dmp_diff Hdiff _ _ Hb) as Hinv.
    destruct (view_of_checkOut st0 st h rev Hinv Hview)
      as (st'' & vs & Hco' & _ & _ & Hview' & _).
    rewrite Hco in Hco'. injection Hco' as <-. by exists st0.
Qed.

Lemma built_reached st h : built dmp_diff st h → reached dmp_diff st h.
Proof.
  induction 1 as [|st h text timestamp extra now st' r Hb IH Hrec]; [constructor|].
  eapply reached_recordText; [done| |done].
  by eapply inv_last, built_inv.
Qed.

End Reached.

(** ** The example history is one [recordText] builds *)

Lemma built_example : built ref_diff example_log example_history.
Proof.
  unfold example_history.
  apply (built_record _ example_log1 _ _ (Some 20%Z) None 0%Z);
    [apply (built_record _ new_LineLog.1 _ _ (Some 10%Z) None 0%Z); [apply built_new|]|].
  - by vm_compute.
  - by vm_compute.
Qed.

Lemma reached_example : reached ref_diff example_view example_history.
Proof.
  apply (reached_checkOut _ example_log _ 1%Z).
  - apply built_reached; [apply ref_diff_sound|apply built_example].
  - by vm_compute.
Qed.

Lemma same_history_trans st1 st2 st3 :
  same_history st1 st2 → same_history st2 st3 → same_history st1 st3.
Proof. unfold same_history. intros (? & ? & ? & ?) (? & ? & ? & ?). split_and!; congruence. Qed.

(** ** [import] spelled out on the fields *)

Lemma import_unfold {Buffer} (parse_gunzip : Buffer → option Parsed) buf obj s :
  parse_gunzip buf = Some obj →
  import Buffer parse_gunzip buf s
  = checkOut (code_max_rev (p_code obj)) None
      (mkLineLog (p_code obj) (default ∅ (p_tsMap obj)) (default ∅ (p_extraMap obj))
         (code_max_rev (p_code obj)) (lastCheckoutRev s) (lines s) (content s)).
Proof.
  intros Hparse. unfold import. rewrite Hparse.
  rewrite !bind_modify, bind_get, bind_modify, bind_get. fields.
  done.
Qed.

Lemma checkOut_range_cache st st_o rev start :
  same_history st st_o →
  let v := (checkOut rev (Some start) st).1 in
  let v_o := (checkOut rev (Some start) st_o).1 in
  (checkOut rev (Some start) st_o).2 = (checkOut rev (Some start) st).2
  ∧ ((checkOut rev (Some start) st).2 = Ok tt →
     lines v_o = lines v ∧ content v_o = content v ∧ same_history v v_o).
Proof.
  intros (Hc & Hts & Hex & Hm). cbv zeta.
  rewrite !checkOut_unfold. unfold checkOut_result. cbv zeta. rewrite Hc, Hm.
  rewrite (bool_decide_eq_false_2 (Some start = None)), !andb_false_r by done.
  destruct (execute_loop (code st) _ _ (deleted_of None) _ _) as [ls|e]; [|done].
  destruct (execute_loop (code st) _ _ _ _ _) as [ls2|e]; [|done].
  split; [done|]. intros _. unfold same_history. by fields.
Qed.

(** A view that [checkOut] computes depends on the history only. *)
Lemma inv_checkOut_fresh st h st_o rev :
  inv st h → same_history st st_o →
  Z.min rev (maxRev st_o) ≠ lastCheckoutRev st_o →
  let v := (checkOut rev None st).1 in
  let v_o := (checkOut rev None st_o).1 in
  lines v_o = lines v ∧ content v_o = content v ∧ same_history v v_o.
Proof.
  intros Hinv Hsame Hfresh. cbv zeta.
  destruct (view_of_checkOut st st h rev Hinv (inv_view_of _ _ Hinv))
    as (v & vs & -> & Hrun & Hls & ((Hc1 & Ht1 & He1 & Hm1) & _ & _ & Hct) & _).
  cbn [fst]. destruct Hsame as (Hc & Hts & Hex & Hm).
  rewrite checkOut_unfold. unfold checkOut_result. cbv zeta.
  rewrite (bool_decide_eq_false_2 (_ = lastCheckoutRev st_o)) by done.
  cbn [andb]. rewrite Hc, Hm.
  destruct (inv_execute_loop st h (Z.min rev (maxRev st)) (Z.min rev (maxRev st))
              (deleted_of None) Hinv) as (vs' & Hrun' & _ & ->).
  cbn [fst]. unfold same_history. fields.
  rewrite Hct, Hls, (run_det _ _ _ _ _ _ Hrun Hrun').
  split_and!; congruence.
Qed.

Lemma inv_checkOut_range_Ok st h rev start :
  inv st h → (checkOut rev (Some start) st).2 = Ok tt.
Proof.
  intros Hinv. rewrite checkOut_unfold. unfold checkOut_result. cbv zeta.
  rewrite (bool_decide_eq_false_2 (Some start = None)), !andb_false_r by done.
  destruct (inv_execute_loop st h (Z.min rev (maxRev st)) (Z.min rev (maxRev st))
              (deleted_of None) Hinv) as (vs & _ & _ & ->).
  by destruct (inv_execute_loop st h start (Z.min rev (maxRev st))
                 (deleted_of (Some (list_to_set
                    (LineInfo.pc <$> emit (code st) (deleted_of None) vs)))) Hinv)
    as (vr & _ & _ & ->).
Qed.

(** Importing what a LineLog exports, into a new LineLog, gives the
    LineLog as [recordText] left it. *)
Lemma inv_import_export {Buffer : Type} (gzip_stringify : Exported → Buffer)
    (parse_gunzip : Buffer → option Parsed) st h st_o :
  codec_sound gzip_stringify parse_gunzip →
  inv st h → (maxRev st = 0%Z → st = new_LineLog.1) → same_history st st_o →
  import Buffer parse_gunzip
    (gzip_stringify (mkExported (code st_o) (tsMap st_o) (extraMap st_o)))
    new_LineLog.1
  = (st, Ok tt).
Proof.
  intros Hcodec Hinv Hnew (Hc & Hts & Hex & Hm).
  rewrite (import_unfold _ _ _ _ (Hcodec _)). cbn [p_code p_tsMap p_extraMap default
    e_code e_tsMap e_extraMap].
  rewrite Hc, Hts, Hex, (inv_max _ _ Hinv).
  destruct (decide (maxRev st = 0%Z)) as [Hz|Hnz].
  - rewrite checkOut_cached by (fields; rewrite Hz; done).
    f_equal. rewrite Hz. rewrite (Hnew Hz). done.
  - rewrite checkOut_unfold. unfold checkOut_result. cbv zeta. fields.
    rewrite Z.min_id.
    rewrite (bool_decide_eq_false_2 (maxRev st = _)) by done. cbn [andb].
    destruct (inv_execute_loop st h (maxRev st) (maxRev st) (deleted_of None) Hinv)
      as (vs & Hrun & _ & ->).
    destruct (inv_head _ _ Hinv) as (vs' & Hrun' & Hls).
    rewrite (run_det _ _ _ _ _ _ Hrun Hrun'), <-Hls.
    f_equal. apply LineLog_eq; fields; try done.
    + by rewrite (inv_last _ _ Hinv).
    + by rewrite (inv_content _ _ Hinv), join_lines.
Qed.

(** * The claims of the specification *)

(** C1, as stated, fails.  First history: the second call takes the trivial
    path and rewrites revision 1 in place, so [checkOut(1)] shows the text
    of the second call, not of the call that created revision 1.  Second
    history: after the range view [checkOut(2, 1)] the guard at the head of
    [checkOut] takes the view of revision 2 as cached, and [checkOut(2)]
    leaves the content of the range view in place. *)
Lemma checkOut_not_the_text_recorded :
  (let st0 := new_LineLog.1 in
   let r1 := recordText ref_diff (text_of ["a"]) None None 0%Z st0 in
   let r2 := recordText ref_diff (text_of ["b"]) None None 0%Z r1.1 in
   let r3 := checkOut 1%Z None r2.1 in
   r1.2 = Ok 1%Z ∧ maxRev r1.1 = 1%Z ∧ r2.2 = Ok 1%Z ∧ r3.2 = Ok tt
   ∧ content r3.1 = text_of ["b"] ∧ content r3.1 ≠ text_of ["a"])
  ∧ (let st0 := new_LineLog.1 in
     let r1 := recordText ref_diff (text_of ["a"; "b"]) None None 0%Z st0 in
     let r2 := recordText ref_diff (text_of ["a"]) None None 0%Z r1.1 in
     let r3 := checkOut 2%Z (Some 1%Z) r2.1 in
     let r4 := checkOut 2%Z None r3.1 in
     r1.2 = Ok 1%Z ∧ r2.2 = Ok 2%Z ∧ r3.2 = Ok tt ∧ r4.2 = Ok tt
     ∧ content r4.1 = text_of ["a"; "b"] ∧ content r4.1 ≠ text_of ["a"]).
Proof. vm_compute. repeat split; done. Qed.

(** C1, amended.  In a LineLog reached from a new one by calls of
    [recordText] and of [checkOut] with one argument, each [recordText]
    made while [maxRev] is checked out, [checkOut(r)] succeeds for every
    revision [r] a [recordText] returned and leaves in [content] the text
    of the last [recordText] that returned [r]; [checkOut(0)] leaves the
    empty text. *)
Theorem checkOut_recorded_text dmp_diff st h :
  diff_sound dmp_diff → reached dmp_diff st h →
  (∀ r t, h !! r = Some t →
     ∃ st', checkOut r None st = (st', Ok tt) ∧ content st' = t)
  ∧ (∃ st', checkOut 0%Z None st = (st', Ok tt) ∧ content st' = "").
Proof.
  intros Hdiff Hr. destruct (reached_view dmp_diff Hdiff _ _ Hr) as (st0 & Hb & Hview).
  pose proof (built_inv dmp_diff Hdiff _ _ Hb) as Hinv.
  assert (∀ r t, h !! r = Some t →
            ∃ st', checkOut r None st = (st', Ok tt) ∧ content st' = t) as Hall.
  { intros r t Hrt.
    destruct (view_of_checkOut_recorded st0 st h r t Hinv Hview Hrt) as (st' & ? & ? & _).
    by exists st'. }
  split; [done|]. apply Hall. by eapply built_zero.
Qed.

(** Revision 2 of the example history, from the view of revision 1. *)
Lemma checkOut_recorded_text_witness :
  ∃ st', checkOut 2%Z None example_view = (st', Ok tt)
         ∧ content st' = text_of ["a"].
Proof.
  apply (proj1 (checkOut_recorded_text ref_diff example_view example_history
                  ref_diff_sound reached_example) 2%Z (text_of ["a"])).
  reflexivity.
Defined.

(** C2, as stated for every LineLog, fails.  First original: the example
    history with the range view [checkOut(2, 1)] checked out.  What it
    exports is imported without error, but [checkOut(2)] then shows the
    text of revision 2 on the import, while on the original the guard at
    the head of [checkOut] keeps the range view: the contents differ, and
    so does [getLineTimestamp(1)].  Second original: the LineLog that
    [recordText] leaves after a stale diff (C8).  It shows the text recorded
    last, and [import] of what it exports throws, as the program does not
    end for revision 3. *)
Lemma export_import_not_the_original :
  (let st_o := (checkOut 2%Z (Some 1%Z) example_log).1 in
   let ex := export Exported ref_gzip_stringify st_o in
   let im := import Exported ref_parse_gunzip
               (match ex.2 with Ok buf => buf | Throw _ => mkExported [] ∅ ∅ end)
               new_LineLog.1 in
   ex.1 = st_o ∧ ex.2 = Ok (mkExported (code st_o) (tsMap st_o) (extraMap st_o))
   ∧ im.2 = Ok tt
   ∧ (checkOut 2%Z None im.1).2 = Ok tt ∧ (checkOut 2%Z None st_o).2 = Ok tt
   ∧ content (checkOut 2%Z None im.1).1 = text_of ["a"]
   ∧ content (checkOut 2%Z None st_o).1 = text_of ["a"; "b"]
   ∧ content (checkOut 2%Z None im.1).1 ≠ content (checkOut 2%Z None st_o).1
   ∧ getLineTimestamp 1 (checkOut 2%Z None im.1).1 = Some 0%Z
   ∧ getLineTimestamp 1 (checkOut 2%Z None st_o).1 = Some 10%Z)
  ∧ (let st0 := new_LineLog.1 in
     let st1 := (recordText ref_diff (text_of ["x"]) None None 0%Z st0).1 in
     let st2 := (recordText ref_diff "" None None 0%Z st1).1 in
     let st3 := (checkOut 1%Z None st2).1 in
     let st_o := (recordText ref_diff (text_of ["y"]) None None 0%Z st3).1 in
     let ex := export Exported ref_gzip_stringify st_o in
     let im := import Exported ref_parse_gunzip
                 (match ex.2 with Ok buf => buf | Throw _ => mkExported [] ∅ ∅ end)
                 new_LineLog.1 in
     ex.1 = st_o ∧ ex.2 = Ok (mkExported (code st_o) (tsMap st_o) (extraMap st_o))
     ∧ content st_o = text_of ["y"]
     ∧ (checkOut 3%Z None st_o).2 = Ok tt
     ∧ im.2 = Throw timeout_msg).
Proof. vm_compute. repeat split; done. Qed.

(** C2, amended.  The original is a LineLog with the program and maps of
    one reached from a new LineLog by calls of [recordText] and of
    [checkOut] with one argument, each [recordText] made while [maxRev] is
    checked out; it may have anything checked out, a range view included.
    What it exports, imported into a new LineLog, gives the reached LineLog
    with [maxRev] checked out.  Hence every recorded revision shows the
    text recorded, and after the same [checkOut] the import and the
    original show the same content, and [getLineTimestamp] and
    [getLineExtra] agree at every index: for every range view; for every
    view of one revision that the original computes, which it does unless
    that revision is what it has checked out; and for every view of one
    revision when the original is the reached LineLog itself.  [import]
    adopts the parsed fields, takes the largest revision of a [JGE] or [JL]
    (0 without any) as [maxRev] and checks it out. *)
Theorem export_import_round_trip {Buffer : Type} dmp_diff
    (gzip_stringify : Exported → Buffer) (parse_gunzip : Buffer → option Parsed)
    st h st_o :
  diff_sound dmp_diff → codec_sound gzip_stringify parse_gunzip →
  reached dmp_diff st h → same_history st st_o →
  (∃ buf st2,
     export Buffer gzip_stringify st_o = (st_o, Ok buf)
     ∧ import Buffer parse_gunzip buf new_LineLog.1 = (st2, Ok tt)
     ∧ checkOut (maxRev st) None st = (st2, Ok tt)
     ∧ maxRev st2 = code_max_rev (code st_o)
     ∧ lastCheckoutRev st2 = maxRev st2
     ∧ (∀ r t, h !! r = Some t →
          ∃ st3, checkOut r None st2 = (st3, Ok tt) ∧ content st3 = t)
     ∧ (∀ rev i,
          let v2 := (checkOut rev None st2).1 in
          let v := (checkOut rev None st).1 in
          content v2 = content v
          ∧ getLineTimestamp i v2 = getLineTimestamp i v
          ∧ getLineExtra i v2 = getLineExtra i v)
     ∧ (∀ rev i,
          Z.min rev (maxRev st_o) ≠ lastCheckoutRev st_o →
          let v2 := (checkOut rev None st2).1 in
          let v := (checkOut rev None st_o).1 in
          content v2 = content v
          ∧ getLineTimestamp i v2 = getLineTimestamp i v
          ∧ getLineExtra i v2 = getLineExtra i v)
     ∧ (∀ rev start i,
          let v2 := (checkOut rev (Some start) st2).1 in
          let v := (checkOut rev (Some start) st_o).1 in
          content v2 = content v
          ∧ getLineTimestamp i v2 = getLineTimestamp i v
          ∧ getLineExtra i v2 = getLineExtra i v))
  ∧ (∀ s buf obj, parse_gunzip buf = Some obj →
       import Buffer parse_gunzip buf s
       = checkOut (code_max_rev (p_code obj)) None
           (mkLineLog (p_code obj) (default ∅ (p_tsMap obj)) (default ∅ (p_extraMap obj))
              (code_max_rev (p_code obj)) (lastCheckoutRev s) (lines s) (content s))).
Proof.
  intros Hdiff Hcodec Hr Hsame.
  destruct (reached_view dmp_diff Hdiff _ _ Hr) as (st0 & Hb & Hview).
  pose proof (built_inv dmp_diff Hdiff _ _ Hb) as Hinv.
  pose proof Hview as (Hsame0 & _).
  pose proof (same_history_trans _ _ _ Hsame0 Hsame) as Hsame_o.
  split; [|intros s buf obj; apply import_unfold].
  eexists _, st0. split_and!.
  - done.
  - eapply inv_import_export; [done..| |done]. by eapply built_zero.
  - by eapply view_of_checkOut_head.
  - destruct Hsame_o as (-> & _). symmetry. by eapply inv_max.
  - by eapply inv_last.
  - intros r t Hrt. by eapply inv_checkOut_recorded.
  - intros rev i. cbv zeta.
    destruct (view_of_checkOut_agree st0 st0 st h rev Hinv (inv_view_of _ _ Hinv) Hview)
      as (Hls & Hct & _ & Hts & Hex & _).
    unfold getLineTimestamp, getLineExtra. by rewrite Hls, Hct, Hts, Hex.
  - intros rev i Hfresh. cbv zeta.
    destruct (inv_checkOut_fresh st0 h st_o rev Hinv Hsame_o Hfresh)
      as (Hls & Hct & _ & Hts & Hex & _).
    unfold getLineTimestamp, getLineExtra. by rewrite Hls, Hct, Hts, Hex.
  - intros rev start i. cbv zeta.
    destruct (checkOut_range_cache st0 st_o rev start Hsame_o) as [_ Hrange].
    destruct Hrange as (Hls & Hct & _ & Hts & Hex & _);
      [by eapply inv_checkOut_range_Ok|].
    unfold getLineTimestamp, getLineExtra. by rewrite Hls, Hct, Hts, Hex.
Qed.

(** The example history, exported with the range view of revisions 1 to 2
    checked out and imported with the codec that stores the object as it
    is; the view of revision 1, which the original computes. *)
Lemma export_import_round_trip_witness :
  let st_o := (checkOut 2%Z (Some 1%Z) example_view).1 in
  ∃ buf, export Exported ref_gzip_stringify st_o = (st_o, Ok buf)
    ∧ import Exported ref_parse_gunzip buf new_LineLog.1 = (example_log, Ok tt)
    ∧ content (checkOut 1%Z None example_log).1 = content (checkOut 1%Z None st_o).1
    ∧ getLineTimestamp 1 (checkOut 1%Z None example_log).1
      = getLineTimestamp 1 (checkOut 1%Z None st_o).1.
Proof.
  cbv zeta.
  destruct (proj1 (export_import_round_trip ref_diff ref_gzip_stringify ref_parse_gunzip
                     example_view example_history (checkOut 2%Z (Some 1%Z) example_view).1
                     ref_diff_sound ref_codec_sound reached_example
                     (checkOut_same_history 2%Z (Some 1%Z) example_view)))
    as (buf & st2 & Hexp & Himp & Hhead & _ & _ & _ & _ & Hfresh & _).
  assert (st2 = example_log) as ->.
  { apply (f_equal fst) in Hhead. cbn [fst] in Hhead. rewrite <-Hhead. by vm_compute. }
  exists buf. split; [exact Hexp|]. split; [exact Himp|].
  destruct (Hfresh 1%Z 1) as (Hct & Hts & _); [by vm_compute|].
  split; [exact Hct|exact Hts].
Defined.



(** C4. When the diff is one block that replaces one line by one line, the
    line replaced has revision [maxRev] and is the only line of the view of
    that revision, [recordText] writes the new text into the [LINE]
    instruction of that line, sets [tsMap[maxRev]] to the timestamp, appends
    no instruction, and returns [maxRev], which it leaves as it is. *)
Theorem trivial_update_in_place dmp_diff st st1 text timestamp extra now
    a1 a2 b1 b2 l1 r d :
  content st ≠ text →
  checkOut (maxRev st) None st = (st1, Ok tt) →
  diffLines dmp_diff (content st) text = [(a1, a2, b1, b2)] →
  a2 - a1 = 1 → b2 - b1 = 1 →
  lines st1 !! a1 = Some l1 → LineInfo.rev l1 = maxRev st →
  length (filter (λ l, LineInfo.rev l = maxRev st) (lines st1)) = 1 →
  code st !! LineInfo.pc l1 = Some (LINE r d) →
  let newLine := default "" (splitLines text !! b1) in
  ∃ st', recordText dmp_diff text timestamp extra now st = (st', Ok (maxRev st))
    ∧ code st' = <[LineInfo.pc l1 := LINE r newLine]> (code st)
    ∧ length (code st') = length (code st)
    ∧ tsMap st' = <[maxRev st := ts_or_now timestamp now]> (tsMap st)
    ∧ extraMap st' = extraMap st
    ∧ maxRev st' = maxRev st
    ∧ lines st' = <[a1 := LineInfo.set_data newLine l1]> (lines st1)
    ∧ content st' = text.
Proof.
  intros Htext Hco Hblocks Ha Hb Hl1 Hrev Hcount Hp newLine.
  pose proof (checkOut_same_history (maxRev st) None st) as (Hc & Hts & Hex & Hm).
  rewrite Hco in Hc, Hts, Hex, Hm. cbn [fst] in *.
  unfold recordText. rewrite bind_get. cbv zeta.
  rewrite bool_decide_eq_false_2 by done.
  lazymatch goal with
  | |- context [(?m ≫= ?f) st] => rewrite (bind_eq m f st _ _ Hco)
  end.
  rewrite bind_get, Hblocks. cbv beta iota.
  rewrite (bool_decide_eq_true_2 (a2 - a1 = 1)), (bool_decide_eq_true_2 (b2 - b1 = 1))
    by done.
  cbn [andb]. cbv beta iota. rewrite Hm, Hl1.
  rewrite !bool_decide_eq_true_2 by done. cbn [andb].
  rewrite bind_assoc, bind_modify, bind_assoc, bind_get. fields. rewrite Hc, Hp.
  rewrite !bind_assoc, bind_modify, !bind_assoc, bind_modify, !bind_assoc, bind_modify.
  rewrite !bind_ret. fields.
  eexists. split; [done|]. fields. rewrite Hc, Hts, Hex, Hm.
  split_and!; try done. by rewrite length_insert.
Qed.

(** One line recorded, then replaced. *)
Lemma trivial_update_in_place_witness :
  let st := (recordText ref_diff (text_of ["a"]) (Some 10%Z) None 0%Z new_LineLog.1).1 in
  ∃ st', recordText ref_diff (text_of ["b"]) (Some 20%Z) None 0%Z st = (st', Ok (maxRev st))
    ∧ code st' = <[2 := LINE 1%Z (text_of ["b"])]> (code st)
    ∧ length (code st') = length (code st)
    ∧ tsMap st' = <[maxRev st := 20%Z]> (tsMap st)
    ∧ extraMap st' = extraMap st
    ∧ maxRev st' = maxRev st
    ∧ lines st' = <[0 := LineInfo.mk (text_of ["b"]) 1%Z 2 false]> (lines st)
    ∧ content st' = text_of ["b"].
Proof.
  cbv zeta.
  apply (trivial_update_in_place ref_diff
           (recordText ref_diff (text_of ["a"]) (Some 10%Z) None 0%Z new_LineLog.1).1
           (recordText ref_diff (text_of ["a"]) (Some 10%Z) None 0%Z new_LineLog.1).1
           (text_of ["b"]) (Some 20%Z) None 0%Z 0 1 0 1
           (LineInfo.mk (text_of ["a"]) 1%Z 2 false) 1%Z (text_of ["a"])).
  - vm_compute. discriminate.
  - by vm_compute.
  - by vm_compute.
  - reflexivity.
  - reflexivity.
  - by vm_compute.
  - by vm_compute.
  - by vm_compute.
  - by vm_compute.
Defined.

(** C5. In a LineLog built from a new one by calls of [recordText], every
    execution, whatever the two revisions and the set [present], reaches
    [END] within [2 * length code] rounds of the loop and returns; the
    failed assertion on the time is not reached.  In any LineLog, [execute]
    returns only what a run of at most [2 * length code] rounds emits, and
    it fails that assertion exactly when the loop can make
    [2 * length code] rounds without reading an [END]. *)
Theorem execute_ends_in_time dmp_diff st h startRev endRev present :
  diff_sound dmp_diff → built dmp_diff st h →
  (∃ vs, run (code st) startRev endRev 0 vs
         ∧ length vs ≤ length (code st) * 2
         ∧ execute startRev endRev present st
           = (st, Ok (emit (code st) (deleted_of present) vs)))
  ∧ (∀ s : LineLog,
       (∀ ls, execute startRev endRev present s = (s, Ok ls) →
          ∃ vs, run (code s) startRev endRev 0 vs
                ∧ length vs ≤ length (code s) * 2
                ∧ ls = emit (code s) (deleted_of present) vs)
       ∧ (execute startRev endRev present s = (s, Throw timeout_msg)
          ↔ ∃ vs q, path (code s) startRev endRev 0 vs q
                    ∧ length vs = length (code s) * 2)).
Proof.
  intros Hdiff Hb. pose proof (built_inv dmp_diff Hdiff _ _ Hb) as Hinv. split.
  - destruct (inv_execute_loop st h startRev endRev (deleted_of present) Hinv)
      as (vs & Hrun & Hlen & Hex).
    exists vs. split_and!; [done|lia|]. by rewrite execute_unfold, Hex.
  - intros s. split.
    + intros ls. rewrite execute_unfold. intros [= Hex]. by apply execute_loop_Ok.
    + rewrite execute_unfold. split.
      * intros [= Hex]. by eapply execute_loop_out_of_patience.
      * intros (vs & q & Hpath & Hlen). f_equal. rewrite <-Hlen.
        by eapply execute_loop_patience.
Qed.

(** An execution over revisions 1 to 2 of the example history, and the
    program that jumps to itself, which makes its two rounds without an
    [END]. *)
Lemma execute_ends_in_time_witness :
  (∃ vs, run (code example_log) 1%Z 2%Z 0 vs
         ∧ length vs ≤ length (code example_log) * 2
         ∧ execute 1%Z 2%Z None example_log
           = (example_log, Ok (emit (code example_log) (deleted_of None) vs)))
  ∧ execute 1%Z 2%Z None (mkLineLog [J 0] ∅ ∅ 0%Z 0%Z [] "")
    = (mkLineLog [J 0] ∅ ∅ 0%Z 0%Z [] "", Throw timeout_msg).
Proof.
  destruct (execute_ends_in_time ref_diff example_log example_history 1%Z 2%Z None
              ref_diff_sound built_example) as [Hends Hany].
  split; [exact Hends|].
  apply (proj2 (Hany (mkLineLog [J 0] ∅ ∅ 0%Z 0%Z [] ""))).
  exists [0; 0], 0. split; [|reflexivity].
  apply (path_step _ _ _ 0 (J 0) 0); [reflexivity..|].
  apply (path_step _ _ _ 0 (J 0) 0); [reflexivity..|].
  apply path_nil.
Defined.

(** C6. A supplied [extra] is stored under the returned revision on the
    general path only.  On the trivial-update path [recordText] rewrites
    [tsMap[maxRev]] but never touches [extraMap]: here the second call takes
    that path, returns revision 1, and [extraMap[1]] still holds the object
    of the first call. *)
Theorem trivial_update_keeps_old_extra :
  let st0 := new_LineLog.1 in
  let r1 := recordText ref_diff (text_of ["a"]) (Some 1%Z) (Some [("k", JNum 1)]) 0%Z st0 in
  let r2 := recordText ref_diff (text_of ["b"]) (Some 2%Z) (Some [("k", JNum 2)]) 0%Z r1.1 in
  r1.2 = Ok 1%Z ∧ r2.2 = Ok 1%Z
  ∧ content r2.1 = text_of ["b"]
  ∧ tsMap r2.1 !! 1%Z = Some 2%Z
  ∧ extraMap r2.1 !! 1%Z = Some [("k", JNum 1)].
Proof. vm_compute. done. Qed.

(** C7. Recording the text that is already the content returns [maxRev] and
    leaves every field as it was; hence recording the same text twice in a
    row changes nothing the second time, [maxRev] included. *)
Theorem recordText_same_text dmp_diff st text timestamp extra now :
  (content st = text →
   recordText dmp_diff text timestamp extra now st = (st, Ok (maxRev st)))
  ∧ (∀ st1 r timestamp' extra' now',
       recordText dmp_diff text timestamp extra now st = (st1, Ok r) →
       recordText dmp_diff text timestamp' extra' now' st1 = (st1, Ok (maxRev st1))).
Proof.
  assert (∀ s ts ex nw, content s = text →
            recordText dmp_diff text ts ex nw s = (s, Ok (maxRev s))) as Hsame.
  { intros s ts ex nw Hc. unfold recordText. msimpl. cbv zeta.
    by rewrite bool_decide_eq_true_2. }
  split; [apply Hsame|].
  intros st1 r ts' ex' nw' Hrec. apply Hsame.
  by eapply recordText_content.
Qed.

(** C8. [recordText] diffs the new text against the content it read before
    it checked out [maxRev].  After a checkout of an older revision the
    blocks therefore index the wrong view: here the block [(0, 1, 0, 1)],
    computed against revision 1, is applied to the view of revision 2, whose
    only entry is the sentinel; [splice] removes it, and [lines] is left
    with a single [LINE] entry of revision 3. *)
Theorem stale_diff_removes_sentinel :
  let st0 := new_LineLog.1 in
  let st1 := (recordText ref_diff (text_of ["x"]) None None 0%Z st0).1 in
  let st2 := (recordText ref_diff "" None None 0%Z st1).1 in
  let st3 := (checkOut 1%Z None st2).1 in
  let r4 := recordText ref_diff (text_of ["y"]) None None 0%Z st3 in
  maxRev st2 = 2%Z ∧ content st3 = text_of ["x"] ∧ r4.2 = Ok 3%Z
  ∧ lines r4.1 = [LineInfo.mk (text_of ["y"]) 3%Z 8 false]
  ∧ code r4.1 !! 8 = Some (LINE 3%Z (text_of ["y"]))
  ∧ (checkOut 3%Z None (checkOut 2%Z None r4.1).1).2 = Throw timeout_msg.
Proof. vm_compute. done. Qed.

(** C9. At the sentinel position or beyond, [getLineTimestamp] is 0 and
    [getLineExtra] is the empty object; before it, they are the entries of
    [tsMap] and [extraMap] for the revision of the line, the empty object
    standing in for a missing [extraMap] entry. *)
Theorem annotations_by_position st (i : LineIdx) :
  (length (lines st) - 1 ≤ i →
   getLineTimestamp i st = Some 0%Z ∧ getLineExtra i st = Some empty_extra)
  ∧ (i < length (lines st) - 1 →
     ∃ l, lines st !! i = Some l
          ∧ getLineTimestamp i st = tsMap st !! LineInfo.rev l
          ∧ getLineExtra i st
            = Some (default empty_extra (extraMap st !! LineInfo.rev l))).
Proof.
  unfold getLineTimestamp, getLineExtra. split; intros Hi.
  - by rewrite !bool_decide_eq_true_2.
  - rewrite !bool_decide_eq_false_2 by lia.
    destruct (lookup_lt_is_Some_2 (lines st) i) as [l Hl]; [lia|].
    exists l. by rewrite Hl.
Qed.

(** C10. [checkOut] keeps [code], [tsMap], [extraMap] and [maxRev], whatever
    its arguments and whether or not it throws; [execute] changes no field. *)
Theorem checkOut_is_a_view st rev start startRev endRev present :
  same_history st (checkOut rev start st).1
  ∧ (execute startRev endRev present st).1 = st.
Proof. split; [apply checkOut_same_history | apply execute_state]. Qed.

(** * More of the code *)

(** ** [splitLines] *)

Lemma has_nl_app s t : has_nl (s +:+ t) = has_nl s || has_nl t.
Proof.
  induction s as [|c s IH]; [done|].
  rewrite string_app_cons. simpl. by rewrite IH, orb_assoc.
Qed.

Lemma cut_line_full body rest :
  has_nl body = false → cut_line ((body +:+ NL) +:+ rest) = (body +:+ NL, rest).
Proof.
  induction body as [|c body IH]; intros Hb.
  - done.
  - simpl in Hb. apply orb_false_iff in Hb as [Hc Hb].
    rewrite !string_app_cons. cbn [cut_line]. rewrite Hc, (IH Hb). done.
Qed.

Lemma cut_line_tail s : has_nl s = false → cut_line s = (s, "").
Proof.
  induction s as [|c s IH]; intros Hs; [done|].
  simpl in Hs. apply orb_false_iff in Hs as [Hc Hs].
  cbn [cut_line]. by rewrite Hc, (IH Hs).
Qed.

(** What one round of the loop cuts off: a full line, or all that is left
    when no newline is left. *)
Lemma cut_line_cases s l r :
  cut_line s = (l, r) → s ≠ "" →
  l ≠ "" ∧ (full_line l ∨ (has_nl l = false ∧ r = "")).
Proof.
  revert l r. induction s as [|c s IH]; intros l r; [done|].
  cbn [cut_line]. destruct (Ascii.eqb c nl) eqn:Hc.
  - intros [= <- <-] _. split; [done|]. left. exists "".
    apply Ascii.eqb_eq in Hc as ->. done.
  - destruct (cut_line s) as [l' r'] eqn:Hs. intros [= <- <-] _. split; [done|].
    destruct s as [|c' s'].
    + injection Hs as <- <-. right. simpl. by rewrite Hc.
    + destruct (IH _ _ eq_refl ltac:(done)) as [_ [(body & -> & Hb)|[Hl ->]]].
      * left. exists (String c body). split; [done|]. simpl. by rewrite Hc, Hb.
      * right. simpl. by rewrite Hc, Hl.
Qed.

Lemma splitLines_loop_lines n ls tail :
  Forall full_line ls → has_nl tail = false →
  String.length (join ls +:+ tail) ≤ n →
  splitLines_loop n (join ls +:+ tail) = ls ++ (if decide (tail = "") then [] else [tail]).
Proof.
  intros Hls Htail. revert n. induction Hls as [|l ls (body & -> & Hb) _ IH]; intros n Hn.
  - change (join []) with "" in *. rewrite string_app_nil in *.
    destruct tail as [|c t]; [by destruct n|].
    destruct n as [|n]; [simpl in Hn; lia|].
    cbn [splitLines_loop]. rewrite (cut_line_tail _ Htail). by destruct n.
  - change (join ((body +:+ NL) :: ls)) with ((body +:+ NL) +:+ join ls) in *.
    rewrite string_app_assoc in *.
    assert (String.length ((body +:+ NL) +:+ (join ls +:+ tail))
            = String.length (body +:+ NL) + String.length (join ls +:+ tail)) as Hlen.
    { generalize (join ls +:+ tail). intros u. generalize (body +:+ NL). intros v.
      induction v as [|c v IHv]; [done|]. rewrite string_app_cons. simpl. by rewrite IHv. }
    assert (0 < String.length (body +:+ NL)) as Hpos.
    { clear. induction body as [|c b IHb]; simpl; lia. }
    destruct n as [|n]; [lia|].
    destruct ((body +:+ NL) +:+ (join ls +:+ tail)) as [|c u] eqn:Hs.
    { simpl in Hlen. lia. }
    cbn [splitLines_loop]. rewrite <-Hs, cut_line_full by done.
    rewrite IH by lia. done.
Qed.

Lemma splitLines_loop_shape n s :
  String.length s ≤ n →
  ∃ ls tail, splitLines_loop n s = ls ++ (if decide (tail = "") then [] else [tail])
             ∧ Forall full_line ls ∧ has_nl tail = false.
Proof.
  revert s. induction n as [|n IH]; intros s Hn.
  { exists [], "". by destruct s. }
  destruct s as [|c s]; [by exists [], ""|].
  cbn [splitLines_loop]. destruct (cut_line (String c s)) as [l r] eqn:Hcut.
  pose proof (cut_line_length _ _ _ Hcut ltac:(done)) as Hlen.
  destruct (cut_line_cases _ _ _ Hcut ltac:(done)) as [Hne [Hfull|[Hl ->]]].
  - destruct (IH r) as (ls & tail & -> & Hls & Htail); [simpl in *; lia|].
    exists (l :: ls), tail. split_and!; [done| |done]. by constructor.
  - exists [], l. rewrite decide_False by done. split_and!; [|done..]. by destruct n.
Qed.

(** ** [execute] on any program *)

(** An execution that reaches [END] visits no program counter twice: the
    next program counter depends on the current one alone. *)
Lemma any_run_NoDup c s e pc vs : run c s e pc vs → NoDup vs.
Proof.
  intros Hrun. apply NoDup_alt. intros i j x Hi Hj.
  destruct (decide (i = j)) as [|Hne]; [done|exfalso].
  assert (∀ i j, i < j → vs !! i = Some x → vs !! j = Some x → False) as Hlt.
  { clear i j Hi Hj Hne. intros i j Hij Hi Hj.
    destruct (list_elem_of_split_length vs i x Hi) as (u & w & -> & ->).
    rewrite lookup_app_r in Hj by lia.
    destruct (j - length u) as [|k] eqn:Hk; [lia|]. cbn in Hj.
    destruct (list_elem_of_split_length w k x Hj) as (w1 & w2 & -> & ->).
    apply run_split in Hrun as [_ Hrun1].
    pose proof Hrun1 as Hrun2.
    change (x :: w1 ++ x :: w2) with ((x :: w1) ++ x :: w2) in Hrun2.
    apply run_split in Hrun2 as [_ Hrun2].
    pose proof (run_det _ _ _ _ _ _ Hrun1 Hrun2) as Heq.
    apply (f_equal length) in Heq. rewrite !length_cons, length_app in Heq.
    simpl in Heq. lia. }
  destruct (Nat.lt_total i j) as [?|[?|?]]; [by eapply (Hlt i j)|done|by eapply (Hlt j i)].
Qed.

Lemma any_run_length c s e pc vs : run c s e pc vs → length vs ≤ length c.
Proof.
  intros Hrun. trans (length (seq 0 (length c))); [|by rewrite length_seq].
  apply submseteq_length, NoDup_submseteq; [by eapply any_run_NoDup|].
  intros x Hx. apply elem_of_seq.
  pose proof (run_lookup _ _ _ _ _ _ Hrun Hx) as Hsome.
  apply lookup_lt_is_Some in Hsome. lia.
Qed.

(** Revisions at or above every revision a jump tests all run alike. *)
Lemma execute_loop_saturated c m s e s' e' del n pc :
  jump_revs_le c m → (m ≤ s)%Z → (m ≤ e)%Z → (m ≤ s')%Z → (m ≤ e')%Z →
  execute_loop c s' e' del n pc = execute_loop c s e del n pc.
Proof.
  intros Hle ????. revert pc. induction n as [|n IH]; intros pc; [done|].
  cbn [execute_loop]. destruct (c !! pc) as [i|] eqn:Hpc; [|done].
  pose proof (Hle pc i Hpc) as Hi.
  destruct i as [t|r t|r t|r d|]; rewrite ?IH; try done.
  - rewrite !bool_decide_eq_true_2 by lia. done.
  - rewrite !bool_decide_eq_false_2 by lia. done.
Qed.

(** What [execute] returns is a run's lines, the sentinel last. *)
Lemma emit_run_shape c s e del pc vs :
  run c s e pc vs →
  ∃ front z, emit c del vs = front ++ [LineInfo.mk "" 0%Z z (del z)]
    ∧ c !! z = Some END
    ∧ Forall (λ l, ∃ r d, c !! LineInfo.pc l = Some (LINE r d)
                      ∧ l = LineInfo.mk d r (LineInfo.pc l) (del (LineInfo.pc l))) front.
Proof.
  induction 1 as [pc Hpc|pc i pc' vs Hpc Hnext _ (front & z & Hem & Hz & Hfront)].
  - exists [], pc. rewrite emit_cons. unfold emit_line. rewrite Hpc. by split_and!.
  - rewrite emit_cons. unfold emit_line. rewrite Hpc.
    destruct i as [t|r t|r t|r d|]; try (by exists front, z).
    exists (LineInfo.mk d r pc (del pc) :: front), z.
    rewrite Hem. split_and!; [done..|]. constructor; [|done]. cbn. eauto.
Qed.

(** ** [checkOut] on any LineLog *)

Lemma checkOut_lastCheckoutRev rev start st :
  lastCheckoutRev (checkOut rev start st).1 = Z.min rev (maxRev st)
  ∨ (checkOut rev start st = (st, Ok tt)
     ∧ lastCheckoutRev st = Z.min rev (maxRev st) ∧ start = None).
Proof.
  rewrite checkOut_unfold. unfold checkOut_result. cbv zeta.
  destruct (bool_decide (Z.min rev (maxRev st) = lastCheckoutRev st)) eqn:Hc;
    destruct start as [s|]; cbn [andb];
    try (rewrite (bool_decide_eq_false_2 (Some s = None)) by done);
    try (rewrite (bool_decide_eq_true_2 (None = None)) by done); cbn [andb].
  all: try (right; apply bool_decide_eq_true in Hc; by split_and!).
  all: left; repeat case_match; done.
Qed.

(** ** [editChunk] on any LineLog *)

Lemma editChunk_unfold a1 a2 rev newLines st :
  editChunk a1 a2 rev newLines st = editChunk_outcome a1 a2 rev newLines st.
Proof.
  unfold editChunk, editChunk_outcome.
  rewrite bind_assert. case_bool_decide as H12; cbn [negb]; [|done].
  rewrite bind_get, bind_assert. case_bool_decide as H2; cbn [negb]; [|done].
  cbv zeta. destruct (lines st !! a1) as [l1|] eqn:Hl1; [|done].
  mstep (ins_block_ok rev newLines st).
  mstep (del_block_ok a1 a2 rev
           (set_code (code st ++ ins_part rev (length (code st)) newLines) st) H2).
  fields. fold (a2Pc_of a1 a2 st).
  rewrite bind_modify, bind_get. fields.
  rewrite <-app_assoc. fold (appended_code a1 a2 rev newLines st).
  destruct (appended_code a1 a2 rev newLines st !! LineInfo.pc l1) as [orig|] eqn:Horig.
  - rewrite bind_modify.
    mstep (tail_block_ok orig (LineInfo.pc l1) _).
    rewrite !bind_modify, bind_get.
    mstep (maxRev_block_ok rev _).
    unfold modify. f_equal.
    unfold editChunk_result, edited_code, tail_pc, inserted, tail_part, appended_code.
    apply LineLog_eq; fields; try done.
    + by rewrite <-!app_assoc.
    + by rewrite !length_app, Nat.add_assoc.
  - unfold throw. f_equal.
Qed.

(** A call that returns has met the two assertions and found its line. *)
Lemma editChunk_Ok a1 a2 rev newLines st st' :
  editChunk a1 a2 rev newLines st = (st', Ok tt) →
  a1 ≤ a2 ∧ a2 ≤ length (lines st)
  ∧ ∃ l1 orig, lines st !! a1 = Some l1
      ∧ appended_code a1 a2 rev newLines st !! LineInfo.pc l1 = Some orig
      ∧ st' = editChunk_result a1 a2 rev newLines l1 orig (a2Pc_of a1 a2 st) st.
Proof.
  rewrite editChunk_unfold. unfold editChunk_outcome.
  case_bool_decide; cbn [negb]; [|done].
  case_bool_decide; cbn [negb]; [|done].
  destruct (lines st !! a1) as [l1|]; [|done]. cbv zeta.
  destruct (appended_code a1 a2 rev newLines st !! LineInfo.pc l1) as [orig|] eqn:Ho;
    [|done].
  intros [= <-]. split_and!; [done..|]. by exists l1, orig.
Qed.

(** ** [recordText] on any LineLog *)

Section RecordAny.
Context (dmp_diff : string → string → list (Z * list string)).

(** A call that returns took one of three paths. *)
Lemma recordText_Ok text timestamp extra now st st' r :
  recordText dmp_diff text timestamp extra now st = (st', Ok r) →
  (content st = text ∧ st' = st ∧ r = maxRev st)
  ∨ (content st ≠ text ∧ ∃ st1, checkOut (maxRev st) None st = (st1, Ok tt)
     ∧ ((r = maxRev st
         ∧ ∃ a1 a2 b1 b2 l1 r1 d,
             diffLines dmp_diff (content st) text = [(a1, a2, b1, b2)]
             ∧ a2 - a1 = 1 ∧ b2 - b1 = 1
             ∧ lines st1 !! a1 = Some l1 ∧ LineInfo.rev l1 = maxRev st
             ∧ length (filter (λ l, LineInfo.rev l = maxRev st) (lines st1)) = 1
             ∧ code st1 !! LineInfo.pc l1 = Some (LINE r1 d)
             ∧ st' = trivial_result text (ts_or_now timestamp now) a1 l1 r1
                       (default "" (splitLines text !! b1)) st1)
        ∨ (r = (maxRev st + 1)%Z
           ∧ ∃ st2, editChunks r (splitLines text)
                      (reverse (diffLines dmp_diff (content st) text))
                      (annotated r (ts_or_now timestamp now) extra st1) = (st2, Ok tt)
                    ∧ st' = set_content text st2))).
Proof.
  unfold recordText. rewrite bind_get. cbv zeta.
  case_bool_decide as Htext; [intros [= <- <-]; by left|].
  intros Hrec. right. split; [done|].
  destruct (checkOut (maxRev st) None st) as [st1 [[]|e]] eqn:Hco.
  2: { by rewrite (bind_throw _ _ _ _ _ Hco) in Hrec. }
  rewrite (bind_eq _ _ _ _ _ Hco), bind_get in Hrec.
  exists st1. split; [done|].
  pose proof (checkOut_same_history (maxRev st) None st) as (Hc & Hts & Hex & Hm).
  rewrite Hco in Hc, Hts, Hex, Hm. cbn [fst] in *.
  assert (∀ o : option Rev,
    (mret o ≫= λ fast : option Rev,
       match fast with
       | Some rev => mret rev
       | None =>
           st0 ← get;
           modify (λ st2, set_tsMap
             (<[(maxRev st0 + 1)%Z := ts_or_now timestamp now]> (tsMap st2)) st2);;
           match extra with
           | Some e => modify (λ st2, set_extraMap
               (<[(maxRev st0 + 1)%Z := e]> (extraMap st2)) st2)
           | None => mret tt
           end;;
           editChunks (maxRev st0 + 1) (splitLines text)
             (reverse (diffLines dmp_diff (content st) text));;
           modify (set_content text);; mret (maxRev st0 + 1)%Z
       end) st1 = (st', Ok r) →
    o = None →
    r = (maxRev st + 1)%Z
    ∧ ∃ st2, editChunks r (splitLines text)
               (reverse (diffLines dmp_diff (content st) text))
               (annotated r (ts_or_now timestamp now) extra st1) = (st2, Ok tt)
             ∧ st' = set_content text st2) as Hgeneral.
  { intros o Hrun ->. rewrite bind_ret, bind_get, bind_modify in Hrun. rewrite Hm in Hrun.
    assert (∀ k : unit → M Rev,
      (match extra with
       | Some e => modify (λ st2, set_extraMap
           (<[(maxRev st + 1)%Z := e]> (extraMap st2)) st2)
       | None => mret tt
       end ≫= k)
        (set_tsMap (<[(maxRev st + 1)%Z := ts_or_now timestamp now]> (tsMap st1)) st1)
      = k tt (annotated (maxRev st + 1) (ts_or_now timestamp now) extra st1)) as Hk.
    { intros k. unfold annotated. by destruct extra. }
    rewrite Hk in Hrun.
    destruct (editChunks (maxRev st + 1)%Z (splitLines text)
                (reverse (diffLines dmp_diff (content st) text))
                (annotated (maxRev st + 1) (ts_or_now timestamp now) extra st1))
      as [st2 [[]|e]] eqn:Hed.
    - rewrite (bind_eq _ _ _ _ _ Hed), bind_modify in Hrun.
      injection Hrun as <- <-. split; [done|]. by exists st2.
    - by rewrite (bind_throw _ _ _ _ _ Hed) in Hrun. }
  destruct (diffLines dmp_diff (content st) text)
    as [|[[[a1 a2] b1] b2] [|? ?]] eqn:Hblocks;
    try (right; by apply (Hgeneral None)).
  destruct (bool_decide (a2 - a1 = 1)) eqn:Ha;
    [|right; by apply (Hgeneral None)].
  destruct (bool_decide (b2 - b1 = 1)) eqn:Hb;
    [|right; by apply (Hgeneral None)].
  cbn [andb] in Hrec. cbv beta iota in Hrec.
  destruct (lines st1 !! a1) as [l1|] eqn:Hl1; [|done].
  destruct (bool_decide (LineInfo.rev l1 = maxRev st1)) eqn:Hrev;
    [|right; by apply (Hgeneral None)].
  destruct (bool_decide (length (filter _ (lines st1)) = 1)) eqn:Hcount;
    [|right; by apply (Hgeneral None)].
  cbn [andb] in Hrec. clear Hgeneral.
  rewrite bind_assoc, bind_modify, bind_assoc, bind_get in Hrec.
  cbn [code set_tsMap] in Hrec.
  destruct (code st1 !! LineInfo.pc l1) as [[t|r1 t|r1 t|r1 d|]|] eqn:Hp; try done.
  rewrite !bind_assoc, bind_modify, !bind_assoc, bind_modify, !bind_assoc, bind_modify
    in Hrec.
  rewrite !bind_ret in Hrec. injection Hrec as <- <-.
  apply bool_decide_eq_true in Ha, Hb, Hrev, Hcount. rewrite Hm in Hrev, Hcount.
  left. split; [done|]. exists a1, a2, b1, b2, l1, r1, d.
  by split_and!.
Qed.

End RecordAny.

(** ** What a call of [editChunk] that returns has done *)

Lemma edited_code_grows c rev p orig nl topt :
  length c < length (edited_code c rev p orig nl topt).
Proof.
  unfold edited_code, tail_part. rewrite length_insert, !length_app. simpl. lia.
Qed.

Lemma edited_code_kept c rev p orig nl topt pc i :
  c !! pc = Some i → pc ≠ p → edited_code c rev p orig nl topt !! pc = Some i.
Proof.
  intros Hpc Hne. unfold edited_code.
  rewrite list_lookup_insert_ne by done. by apply lookup_app_l_Some.
Qed.

Lemma edited_code_redirected c rev p orig nl topt :
  (c ++ ins_part rev (length c) nl ++ del_part rev topt) !! p = Some orig →
  edited_code c rev p orig nl topt !! p = Some (J (length c)).
Proof.
  intros Hp. unfold edited_code. apply list_lookup_insert_eq.
  apply lookup_lt_Some in Hp. rewrite !length_app in *. lia.
Qed.

(** Every [LINE] of the program after the call was there before, or holds
    one of the new lines under the revision of the call. *)
Lemma edited_code_LINE c rev p orig nl topt pc r d :
  (c ++ ins_part rev (length c) nl ++ del_part rev topt) !! p = Some orig →
  edited_code c rev p orig nl topt !! pc = Some (LINE r d) →
  (∃ pc', c !! pc' = Some (LINE r d)) ∨ (r = rev ∧ d ∈ nl).
Proof.
  intros Hp. unfold edited_code. intros Hpc.
  assert (∀ x, (c ++ ins_part rev (length c) nl ++ del_part rev topt) !! x
               = Some (LINE r d) →
               (∃ pc', c !! pc' = Some (LINE r d)) ∨ (r = rev ∧ d ∈ nl)) as Hext.
  { intros x [Hx|[_ Hx]]%lookup_app_Some; [eauto|].
    apply lookup_app_Some in Hx as [Hx|[_ Hx]].
    - unfold ins_part in Hx. case_bool_decide; [|done].
      destruct (x - length c) as [|k]; [done|].
      change ((LINE rev <$> nl) !! k = Some (LINE r d)) in Hx.
      apply list_lookup_fmap_Some in Hx as (y & [= -> ->] & Hk).
      right. split; [done|]. by eapply list_elem_of_lookup_2.
    - unfold del_part in Hx. destruct topt; [|done].
      by destruct (x - length c - _) as [|[|?]]. }
  destruct (decide (pc = p)) as [->|Hne].
  { rewrite list_lookup_insert_eq in Hpc; [done|].
    apply lookup_lt_Some in Hp. rewrite !length_app in *. lia. }
  rewrite list_lookup_insert_ne in Hpc by done.
  rewrite !app_assoc in Hpc. apply lookup_app_Some in Hpc as [Hpc|[_ Hpc]].
  - rewrite <-app_assoc in Hpc. eauto.
  - unfold tail_part in Hpc.
    destruct (pc - _) as [|k].
    + injection Hpc as ->. eauto.
    + by destruct orig, k as [|[|?]].
Qed.

Lemma editChunks_Ok rev blines blocks st st' :
  editChunks rev blines blocks st = (st', Ok tt) →
  tsMap st' = tsMap st ∧ extraMap st' = extraMap st ∧ content st' = content st
  ∧ length (code st) ≤ length (code st')
  ∧ (maxRev st ≤ maxRev st' ≤ Z.max (maxRev st) rev)%Z
  ∧ (blocks ≠ [] → (rev ≤ maxRev st')%Z ∧ lastCheckoutRev st' = rev
                   ∧ length (code st) < length (code st'))
  ∧ (blocks = [] → st' = st)
  ∧ (∀ pc r d, code st' !! pc = Some (LINE r d) →
       (∃ pc', code st !! pc' = Some (LINE r d)) ∨ r = rev).
Proof.
  revert st. induction blocks as [|[[[a1 a2] b1] b2] blocks IH]; intros st.
  { intros [= <-]. split_and!; try done; try lia. eauto. }
  cbn [editChunks].
  destruct (editChunk a1 a2 rev (take (b2 - b1) (drop b1 blines)) st)
    as [st1 [[]|e]] eqn:Hed.
  2: { by rewrite (bind_throw _ _ _ _ _ Hed). }
  rewrite (bind_eq _ _ _ _ _ Hed). intros Hrest.
  destruct (IH _ Hrest) as (Hts & Hex & Hct & Hlen & Hmax & Hne & _ & Hline).
  destruct (editChunk_Ok _ _ _ _ _ _ Hed) as (_ & _ & l1 & orig & _ & Horig & ->).
  unfold editChunk_result in *. revert Hts Hex Hct Hlen Hmax Hne Hline. fields.
  intros Hts Hex Hct Hlen Hmax Hne Hline.
  pose proof (edited_code_grows (code st) rev (LineInfo.pc l1) orig
                (take (b2 - b1) (drop b1 blines)) (a2Pc_of a1 a2 st)) as Hgrow.
  assert ((rev ≤ maxRev st')%Z ∧ (maxRev st ≤ maxRev st' ≤ Z.max (maxRev st) rev)%Z)
    as (? & ? & ?) by (case_bool_decide; lia).
  split_and!; try done; try lia.
  - intros _. split_and!; [done| |lia].
    destruct blocks as [|b' bl]; [by injection Hrest as <-|].
    by destruct Hne as (_ & ? & _).
  - intros pc r d Hpc. destruct (Hline pc r d Hpc) as [(pc' & Hpc')|?]; [|by right].
    destruct (edited_code_LINE _ _ _ _ _ _ _ _ _ Horig Hpc') as [?|[? _]]; eauto.
Qed.

(** ** Timestamps of the lines *)

Lemma recordText_stamped dmp_diff text timestamp extra now st st' r :
  stamped st →
  recordText dmp_diff text timestamp extra now st = (st', Ok r) →
  stamped st'.
Proof.
  intros Hst Hrec.
  destruct (recordText_Ok _ _ _ _ _ _ _ _ Hrec)
    as [(_ & -> & _)|(_ & st1 & Hco & Hpath)]; [done|].
  pose proof (checkOut_same_history (maxRev st) None st) as (Hc & Hts & _ & Hm).
  rewrite Hco in Hc, Hts, Hm. cbn [fst] in *.
  destruct Hpath as [(_ & a1 & a2 & b1 & b2 & l1 & r1 & d & _ & _ & _ & _ & _ & _ & Hp & ->)
                    |(-> & st2 & Hed & ->)].
  - unfold trivial_result, stamped. fields. rewrite Hc, Hts. intros pc r' d' Hpc.
    assert (∃ d0, code st !! pc = Some (LINE r' d0)) as [d0 Hold].
    { destruct (decide (pc = LineInfo.pc l1)) as [->|Hne].
      - rewrite Hc in Hp. rewrite list_lookup_insert_eq in Hpc
          by (by eapply lookup_lt_Some). injection Hpc as <- <-. eauto.
      - rewrite list_lookup_insert_ne in Hpc by done. eauto. }
    destruct (Hst _ _ _ Hold) as [t Ht].
    destruct (decide (maxRev st1 = r')) as [->|Hne].
    + rewrite lookup_insert_eq. eauto.
    + rewrite lookup_insert_ne by done. eauto.
  - destruct (editChunks_Ok _ _ _ _ _ Hed) as (Hts2 & _ & _ & _ & _ & _ & _ & Hline).
    unfold stamped. fields. rewrite Hts2. intros pc r' d' Hpc.
    assert (tsMap (annotated (maxRev st + 1) (ts_or_now timestamp now) extra st1)
            = <[(maxRev st + 1)%Z := ts_or_now timestamp now]> (tsMap st)) as ->.
    { unfold annotated. destruct extra; fields; by rewrite Hts. }
    assert (code (annotated (maxRev st + 1) (ts_or_now timestamp now) extra st1)
            = code st) as Hca.
    { unfold annotated. destruct extra; fields; by rewrite Hc. }
    destruct (Hline _ _ _ Hpc) as [(pc' & Hold)| ->].
    + rewrite Hca in Hold. destruct (Hst _ _ _ Hold) as [t Ht].
      destruct (decide ((maxRev st + 1)%Z = r')) as [<-|Hne].
      * rewrite lookup_insert_eq. eauto.
      * rewrite lookup_insert_ne by done. eauto.
    + rewrite lookup_insert_eq. eauto.
Qed.

(** ** More on the LineLogs reached by [recordText] and [checkOut] *)

Section ReachedMore.
Context (dmp_diff : string → string → list (Z * list string)).
Context (Hdiff : diff_sound dmp_diff).

(** The revisions recorded are the integers from 0 to [maxRev]. *)
Lemma built_revisions st h r :
  built dmp_diff st h → is_Some (h !! r) ↔ (0 ≤ r ≤ maxRev st)%Z.
Proof.
  induction 1 as [|st h text timestamp extra now st' r' Hb IH Hrec].
  - change (maxRev new_LineLog.1) with 0%Z.
    destruct (decide (r = 0%Z)) as [->|Hne].
    + rewrite lookup_singleton_eq. split; [lia|eauto].
    + rewrite lookup_singleton_ne by done. split; [by intros [? ?]|lia].
  - pose proof (built_inv dmp_diff Hdiff _ _ Hb) as Hinv.
    destruct (built_zero dmp_diff Hdiff _ _ Hb) as (_ & H0 & _).
    destruct (recordText_inv dmp_diff Hdiff st h text timestamp extra now Hinv)
      as (st'' & r'' & Hrec' & _ & Hmax' & Hr' & _).
    rewrite Hrec in Hrec'. injection Hrec' as <- <-. rewrite Hmax'.
    destruct (decide (r' = r)) as [->|Hne].
    + rewrite lookup_insert_eq. split; [lia|eauto].
    + rewrite lookup_insert_ne, IH by done. lia.
Qed.

Lemma built_stamped st h : built dmp_diff st h → stamped st.
Proof.
  induction 1 as [|st h text timestamp extra now st' r' Hb IH Hrec].
  - intros [|pc] r d Hpc; [done|]. by destruct pc.
  - by eapply recordText_stamped.
Qed.

(** On a reached LineLog [checkOut] returns, whatever its arguments. *)
Lemma reached_checkOut_Ok st h rev start :
  reached dmp_diff st h → ∃ st', checkOut rev start st = (st', Ok tt).
Proof.
  intros Hr. destruct (reached_view dmp_diff Hdiff _ _ Hr) as (st0 & Hb & Hview).
  pose proof (built_inv dmp_diff Hdiff _ _ Hb) as Hinv.
  destruct start as [s|].
  - pose proof Hview as (Hsame & _).
    destruct (checkOut_range_cache st0 st rev s Hsame) as [Ho _].
    rewrite (inv_checkOut_range_Ok st0 h rev s Hinv) in Ho.
    destruct (checkOut rev (Some s) st) as [st' o]. cbn in Ho. subst o. by exists st'.
  - destruct (view_of_checkOut st0 st h rev Hinv Hview) as (st' & vs & Hco & _).
    by exists st'.
Qed.

End ReachedMore.

(** The timestamp of a line of the program is there. *)
Lemma stamped_timestamp st front z i :
  stamped st →
  lines st = front ++ [z] →
  Forall (λ l, code st !! LineInfo.pc l
               = Some (LINE (LineInfo.rev l) (LineInfo.data l))) front →
  is_Some (getLineTimestamp i st).
Proof.
  intros Hst Hls Hfront. unfold getLineTimestamp.
  case_bool_decide as Hi; [eauto|].
  rewrite Hls, length_app in Hi. simpl in Hi.
  rewrite Hls, lookup_app_l by lia.
  destruct (lookup_lt_is_Some_2 front i) as [l Hl]; [lia|].
  rewrite Hl. cbn. eapply Hst, (Forall_lookup_1 _ _ _ _ Hfront Hl).
Qed.

(** The lines a [checkOut] computes are lines of the program. *)
Lemma checkOut_fresh_lines rev start st st' :
  checkOut rev start st = (st', Ok tt) →
  start ≠ None ∨ Z.min rev (maxRev st) ≠ lastCheckoutRev st →
  ∃ front z, lines st' = front ++ [z]
    ∧ Forall (λ l, code st' !! LineInfo.pc l
                   = Some (LINE (LineInfo.rev l) (LineInfo.data l))) front.
Proof.
  rewrite checkOut_unfold. unfold checkOut_result. cbv zeta. intros Hco Hfresh.
  assert (bool_decide (Z.min rev (maxRev st) = lastCheckoutRev st)
          && bool_decide (start = None) = false) as Hguard.
  { destruct Hfresh; [rewrite (bool_decide_eq_false_2 (start = None)) by done
                     |rewrite (bool_decide_eq_false_2 (_ = lastCheckoutRev st)) by done];
      by rewrite ?andb_false_r. }
  rewrite Hguard in Hco.
  destruct (execute_loop (code st) _ _ (deleted_of None) _ _) as [ls|e] eqn:Hex; [|done].
  apply execute_loop_Ok in Hex as (vs & Hrun & Hlen & ->).
  assert (∀ del vr s e, run (code st) s e 0 vr →
            ∃ front z, emit (code st) del vr = front ++ [z]
              ∧ Forall (λ l, code st !! LineInfo.pc l
                             = Some (LINE (LineInfo.rev l) (LineInfo.data l))) front)
    as Hshape.
  { intros del vr s e Hr.
    destruct (emit_run_shape _ _ _ del _ _ Hr) as (front & z & Hem & _ & Hfront).
    eexists front, _. split; [done|].
    eapply Forall_impl; [done|]. by intros l (r & d & Hl & ->). }
  destruct start as [s|].
  - destruct (execute_loop (code st) s _ _ _ _) as [ls2|e] eqn:Hex2; [|done].
    apply execute_loop_Ok in Hex2 as (vr & Hrun2 & _ & ->).
    apply (f_equal fst) in Hco. cbn [fst] in Hco. rewrite <-Hco. fields. eauto.
  - apply (f_equal fst) in Hco. cbn [fst] in Hco. rewrite <-Hco. fields. eauto.
Qed.

(** ** The blocks of [diffLines] *)

Lemma aligned_geometry pa pb la lb blocks :
  aligned pa pb la lb blocks →
  Forall (λ '(a1, a2, b1, b2),
            pa ≤ a1 ∧ a1 ≤ a2 ∧ a2 ≤ pa + length la
            ∧ pb ≤ b1 ∧ b1 ≤ b2 ∧ b2 ≤ pb + length lb
            ∧ (a1 < a2 ∨ b1 < b2)) blocks
  ∧ StronglySorted block_before blocks.
Proof.
  induction 1 as [pa pb e|pa pb e d i la lb blocks Hne _ [IHall IHsort]].
  { split; constructor. }
  rewrite !length_app. split.
  - constructor.
    + split_and!; try lia. destruct Hne as [Hd|Hi]; [left|right].
      * destruct d; [done|simpl; lia].
      * destruct i; [done|simpl; lia].
    + eapply Forall_impl; [done|]. intros [[[a1 a2] b1] b2]. lia.
  - constructor; [done|].
    eapply Forall_impl; [done|]. intros [[[a1 a2] b1] b2]. cbn. lia.
Qed.

Lemma aligned_splice pa pb la lb blocks pre_a blines :
  aligned pa pb la lb blocks →
  length pre_a = pa → drop pb blines = lb →
  foldl (splice_block blines) (pre_a ++ la) (reverse blocks) = pre_a ++ lb.
Proof.
  intros Hal. revert pre_a.
  induction Hal as [pa pb e|pa pb e d i la lb blocks Hne _ IH]; intros pre_a Hpa Hpb.
  { done. }
  rewrite reverse_cons, foldl_app. cbn [foldl].
  replace (pre_a ++ e ++ d ++ la) with ((pre_a ++ e ++ d) ++ la)
    by (by rewrite <-!app_assoc).
  rewrite (IH (pre_a ++ e ++ d)).
  - cbn [splice_block].
    replace ((pre_a ++ e ++ d) ++ lb) with ((pre_a ++ e) ++ d ++ lb)
      by (by rewrite <-!app_assoc).
    rewrite take_app_length' by (rewrite length_app; lia).
    replace ((pre_a ++ e) ++ d ++ lb) with (((pre_a ++ e) ++ d) ++ lb)
      by (by rewrite <-!app_assoc).
    rewrite drop_app_length' by (rewrite !length_app; lia).
    rewrite <-drop_drop, Hpb, drop_app_length.
    replace (pb + length e + length i - (pb + length e)) with (length i) by lia.
    rewrite take_app_length. by rewrite <-!app_assoc.
  - rewrite !length_app. lia.
  - replace (pb + length e + length i) with (pb + (length e + length i)) by lia.
    rewrite <-drop_drop, Hpb.
    by rewrite app_assoc, drop_app_length' by (rewrite length_app; lia).
Qed.

(** ** Scanning the output of [git log] *)

Lemma logFile_line_entries sc line :
  Forall (λ e, String.length (cp_commit e) = 40 ∧ cp_path e ≠ "") (ls_result sc) →
  (ls_state sc = PATH → String.length (ls_commit sc) = 40) →
  Forall (λ e, String.length (cp_commit e) = 40 ∧ cp_path e ≠ "")
    (ls_result (logFile_line sc line))
  ∧ (ls_state (logFile_line sc line) = PATH →
     String.length (ls_commit (logFile_line sc line)) = 40).
Proof.
  intros Hall Hc. unfold logFile_line.
  destruct (ls_state sc) eqn:Hs; case_bool_decide; cbn [ls_state ls_result ls_commit];
    (split; [|try done]); try done.
  - by rewrite Hs.
  - apply Forall_app. split; [done|].
    repeat constructor; cbn; [by apply Hc|].
    destruct line; [simpl in *; lia|done].
  - by rewrite Hs.
Qed.

Lemma logFile_scan_entries pieces sc :
  Forall (λ e, String.length (cp_commit e) = 40 ∧ cp_path e ≠ "") (ls_result sc) →
  (ls_state sc = PATH → String.length (ls_commit sc) = 40) →
  Forall (λ e, String.length (cp_commit e) = 40 ∧ cp_path e ≠ "")
    (ls_result (foldl logFile_line sc pieces)).
Proof.
  revert sc. induction pieces as [|line pieces IH]; intros sc Hall Hc; [done|].
  cbn [foldl]. destruct (logFile_line_entries sc line Hall Hc). by apply IH.
Qed.

Lemma logFile_log_lines e c res :
  String.length (cp_commit e) = 40 → cp_path e ≠ "" →
  foldl logFile_line (mkLogScan COMMIT c res) (log_lines e)
  = mkLogScan COMMIT (cp_commit e) (res ++ [e]).
Proof.
  destruct e as [h p]. cbn [cp_commit cp_path]. intros Hh Hp.
  assert (0 < String.length p) by (destruct p; [done|simpl; lia]).
  unfold log_lines. cbn [cp_commit cp_path foldl].
  unfold logFile_line. cbn [ls_state ls_result ls_commit].
  rewrite (bool_decide_eq_true_2 (String.length h = 40)) by done.
  cbn [ls_state ls_result ls_commit].
  rewrite (bool_decide_eq_true_2 (0 < String.length p)) by done.
  cbn [ls_state ls_result ls_commit]. done.
Qed.

Lemma logFile_log_open e c res :
  String.length (cp_commit e) = 40 → cp_path e ≠ "" →
  foldl logFile_line (mkLogScan COMMIT c res) [cp_commit e; cp_path e]
  = mkLogScan NEWLINE (cp_commit e) (res ++ [e]).
Proof.
  destruct e as [h p]. cbn [cp_commit cp_path]. intros Hh Hp.
  assert (0 < String.length p) by (destruct p; [done|simpl; lia]).
  cbn [foldl]. unfold logFile_line. cbn [ls_state ls_result ls_commit].
  rewrite (bool_decide_eq_true_2 (String.length h = 40)) by done.
  cbn [ls_state ls_result ls_commit].
  rewrite (bool_decide_eq_true_2 (0 < String.length p)) by done.
  done.
Qed.

Lemma logFile_scan_log_lines es c res :
  Forall (λ e, String.length (cp_commit e) = 40 ∧ cp_path e ≠ "") es →
  ∃ c', foldl logFile_line (mkLogScan COMMIT c res) (mjoin (log_lines <$> es))
        = mkLogScan COMMIT c' (res ++ es).
Proof.
  intros Hes. revert c res.
  induction Hes as [|e es [Hh Hp] _ IH]; intros c res.
  { exists c. cbn. by rewrite app_nil_r. }
  rewrite fmap_cons.
  change (mjoin (log_lines e :: (log_lines <$> es)))
    with (log_lines e ++ mjoin (log_lines <$> es)).
  rewrite foldl_app, (logFile_log_lines e c res Hh Hp).
  destruct (IH (cp_commit e) (res ++ [e])) as [c' ->]. exists c'.
  by rewrite <-app_assoc.
Qed.

(** ** Building a LineLog from the history *)

Section GitBuild.
Context (dmp_diff : string → string → list (Z * list string)).
Context (Hdiff : diff_sound dmp_diff).
Context (fetch : CommitPath → option (string * CommitInfo)) (clock : CommitPath → Z).

Lemma buildLineLog_cons e history :
  buildLineLog dmp_diff fetch clock (e :: history)
  = build_step dmp_diff fetch clock (buildLineLog dmp_diff fetch clock history) e.
Proof. unfold buildLineLog. by rewrite reverse_cons, foldl_app. Qed.

Lemma buildLineLog_built history :
  ∃ h, built dmp_diff (buildLineLog dmp_diff fetch clock history) h
    ∧ content (buildLineLog dmp_diff fetch clock history)
      = default "" (fst <$> head (omap fetch history))
    ∧ (maxRev (buildLineLog dmp_diff fetch clock history)
       ≤ Z.of_nat (length (omap fetch history)))%Z.
Proof.
  induction history as [|e history (h & Hb & Hct & Hmax)].
  { exists {[ 0%Z := "" ]}. split_and!; [constructor|done|done]. }
  rewrite buildLineLog_cons. unfold build_step. cbn [omap list_omap].
  destruct (fetch e) as [[text ci]|] eqn:He.
  - destruct (built_recordText dmp_diff Hdiff _ h text (Some (ci_timestamp ci * 1000)%Z)
                (Some (path_info ci (cp_path e))) (clock e) Hb) as (st' & r & Hrec & Hb').
    rewrite Hrec. cbn [fst]. exists (<[r := text]> h). split_and!; [done| |].
    + cbn. by eapply recordText_content.
    + destruct (recordText_inv dmp_diff Hdiff _ h text (Some (ci_timestamp ci * 1000)%Z)
                  (Some (path_info ci (cp_path e))) (clock e)
                  (built_inv dmp_diff Hdiff _ _ Hb)) as (st'' & r' & Hrec' & _ & Hm & Hr & _).
      rewrite Hrec in Hrec'. injection Hrec' as <- <-. cbn [length]. lia.
  - by exists h.
Qed.

End GitBuild.

(** * Further properties of the code *)

(** X1. The lines [splitLines] returns, joined, are the text.  No line is
    empty, and every line ends with its only newline, except that the last
    line may have no newline at all. *)
Theorem splitLines_lines s :
  join (splitLines s) = s
  ∧ Forall (λ l, l ≠ "") (splitLines s)
  ∧ ∀ i l, splitLines s !! i = Some l →
      full_line l ∨ (S i = length (splitLines s) ∧ has_nl l = false).
Proof.
  split; [apply splitLines_join|].
  destruct (splitLines_loop_shape (String.length s) s) as (ls & tail & Hs & Hls & Htail);
    [done|].
  fold (splitLines s) in Hs. rewrite Hs. split.
  - apply Forall_app. split.
    + eapply Forall_impl; [done|]. intros l (body & -> & _). by destruct body.
    + case_decide; by repeat constructor.
  - intros i l [Hl|[Hi Hl]]%lookup_app_Some.
    + left. by eapply (Forall_lookup_1 _ _ _ _ Hls).
    + case_decide; [done|]. destruct (i - length ls) as [|k] eqn:Hk; [|done].
      injection Hl as ->. right. rewrite length_app. simpl. split; [lia|done].
Qed.

(** X2. A text put together from full lines, followed by a rest without
    newline, splits into these lines, and the rest when it is not empty. *)
Theorem splitLines_of_lines ls tail :
  Forall full_line ls → has_nl tail = false →
  splitLines (join ls +:+ tail) = ls ++ (if decide (tail = "") then [] else [tail]).
Proof. intros Hls Htail. by apply splitLines_loop_lines. Qed.

(** Two full lines and a rest. *)
Lemma splitLines_of_lines_witness :
  splitLines (join [text_of ["a"]; text_of ["b"]] +:+ "c")
  = [text_of ["a"]; text_of ["b"]] ++ (if decide ("c" = "") then [] else ["c"]).
Proof.
  apply (splitLines_of_lines [text_of ["a"]; text_of ["b"]] "c").
  - repeat constructor; by eexists (String _ "").
  - reflexivity.
Defined.

(** X3. Whatever the program, when [execute] returns it leaves the LineLog
    as it was, and the lines returned end with the entry of an [END]
    instruction, with data [""] and revision 0; every entry before it
    carries the data and revision of the [LINE] instruction at its [pc].
    The flag [deleted] of an entry is false without [present], and tells
    that the [pc] is not in [present] otherwise. *)
Theorem execute_returns_lines startRev endRev present st st' ls :
  execute startRev endRev present st = (st', Ok ls) →
  st' = st
  ∧ ∃ front z,
      ls = front ++ [LineInfo.mk "" 0%Z z (deleted_of present z)]
      ∧ code st !! z = Some END
      ∧ Forall (λ l, code st !! LineInfo.pc l
                     = Some (LINE (LineInfo.rev l) (LineInfo.data l))) front
      ∧ Forall (λ l, LineInfo.deleted l
                     = match present with
                       | None => false
                       | Some p => negb (bool_decide (LineInfo.pc l ∈ p))
                       end) ls.
Proof.
  rewrite execute_unfold. intros [= <- Hex]. split; [done|].
  apply execute_loop_Ok in Hex as (vs & Hrun & _ & ->).
  destruct (emit_run_shape _ _ _ (deleted_of present) _ _ Hrun)
    as (front & z & Hem & Hz & Hfront).
  exists front, z. split_and!; [done..| |].
  - eapply Forall_impl; [done|]. intros l (r & d & Hl & ->). done.
  - apply Forall_forall. intros l (x & _ & Hx)%elem_of_emit.
    rewrite (emit_line_deleted _ _ _ _ Hx), (emit_line_pc _ _ _ _ Hx).
    by destruct present.
Qed.

(** A range execution over the example history. *)
Lemma execute_returns_lines_witness :
  let ls := lines_of (execute 1%Z 2%Z (Some {[ 2 ]}) example_log) in
  ∃ front z,
    ls = front ++ [LineInfo.mk "" 0%Z z (deleted_of (Some {[ 2 ]}) z)]
    ∧ code example_log !! z = Some END
    ∧ Forall (λ l, code example_log !! LineInfo.pc l
                   = Some (LINE (LineInfo.rev l) (LineInfo.data l))) front
    ∧ Forall (λ l, LineInfo.deleted l = negb (bool_decide (LineInfo.pc l ∈ ({[ 2 ]} : gset nat)))) ls.
Proof.
  cbv zeta.
  refine (proj2 (execute_returns_lines 1%Z 2%Z (Some {[ 2 ]}) example_log example_log
                   (lines_of (execute 1%Z 2%Z (Some {[ 2 ]}) example_log)) _)).
  by vm_compute.
Defined.

(** X4. Whatever the program, an execution that reaches [END] at all does
    so within [length code] rounds, so [execute] returns its lines: the
    patience of [2 * length code] rounds only runs out on a program that
    loops for the two revisions. *)
Theorem execute_patience_suffices startRev endRev present st vs :
  run (code st) startRev endRev 0 vs →
  length vs ≤ length (code st)
  ∧ NoDup vs
  ∧ execute startRev endRev present st
    = (st, Ok (emit (code st) (deleted_of present) vs)).
Proof.
  intros Hrun. pose proof (any_run_length _ _ _ _ _ Hrun) as Hlen.
  split_and!; [done|by eapply any_run_NoDup|].
  rewrite execute_unfold. f_equal. apply execute_loop_run; [done|lia].
Qed.

(** The example history over revisions 1 to 2: the run follows five jumps
    and two lines to the [END], and visits each of the eight instructions
    of the program once. *)
Lemma execute_patience_suffices_witness :
  length [0; 1; 2; 3; 5; 6; 7; 4] ≤ length (code example_log)
  ∧ NoDup [0; 1; 2; 3; 5; 6; 7; 4]
  ∧ execute 1%Z 2%Z None example_log
    = (example_log,
       Ok (emit (code example_log) (deleted_of None) [0; 1; 2; 3; 5; 6; 7; 4])).
Proof.
  apply (execute_patience_suffices 1%Z 2%Z None example_log [0; 1; 2; 3; 5; 6; 7; 4]).
  apply (run_step _ _ _ 0 (J 1) 1); [reflexivity..|].
  apply (run_step _ _ _ 1 (JL 1%Z 4) 2); [reflexivity..|].
  apply (run_step _ _ _ 2 (LINE 1%Z (text_of ["a"])) 3); [reflexivity..|].
  apply (run_step _ _ _ 3 (J 5) 5); [reflexivity..|].
  apply (run_step _ _ _ 5 (JGE 2%Z 4) 6); [reflexivity..|].
  apply (run_step _ _ _ 6 (LINE 1%Z (text_of ["b"])) 7); [reflexivity..|].
  apply (run_step _ _ _ 7 (J 4) 4); [reflexivity..|].
  apply run_end. reflexivity.
Defined.

(** X5. Revisions at or above the largest revision of the program's jumps
    all show the same: [execute] returns the same for any two pairs of
    such revisions. *)
Theorem execute_beyond_last_revision st startRev endRev startRev' endRev' present :
  (code_max_rev (code st) ≤ startRev)%Z → (code_max_rev (code st) ≤ endRev)%Z →
  (code_max_rev (code st) ≤ startRev')%Z → (code_max_rev (code st) ≤ endRev')%Z →
  execute startRev' endRev' present st = execute startRev endRev present st.
Proof.
  intros ????. rewrite !execute_unfold. f_equal.
  by apply (execute_loop_saturated _ (code_max_rev (code st))); [apply code_max_rev_le|..].
Qed.

(** Revisions 2 and beyond of the example history. *)
Lemma execute_beyond_last_revision_witness :
  execute 5%Z 7%Z None example_log = execute 2%Z 2%Z None example_log.
Proof.
  apply (execute_beyond_last_revision example_log 2%Z 2%Z 5%Z 7%Z None);
    by vm_compute.
Defined.

(** X6. [checkOut] records the revision before it executes the program.
    So the same [checkOut(rev)] made again returns at once and changes
    nothing, even when the first call threw and left [lines] and [content]
    as they were. *)
Theorem checkOut_again rev st st1 o :
  checkOut rev None st = (st1, o) → checkOut rev None st1 = (st1, Ok tt).
Proof.
  intros Hco. apply checkOut_cached.
  pose proof (checkOut_same_history rev None st) as (_ & _ & _ & Hm).
  destruct (checkOut_lastCheckoutRev rev None st) as [Hl|(Heq & Hl & _)];
    rewrite Hco in *; cbn [fst] in *.
  - by rewrite Hm, Hl.
  - injection Heq as ->. by rewrite Hl.
Qed.

(** On a program that loops the first call throws, the second returns. *)
Lemma checkOut_again_witness :
  (checkOut 0%Z None looping_log).2 = Throw timeout_msg
  ∧ checkOut 0%Z None (checkOut 0%Z None looping_log).1
    = ((checkOut 0%Z None looping_log).1, Ok tt).
Proof.
  split; [reflexivity|].
  apply (checkOut_again 0%Z looping_log (checkOut 0%Z None looping_log).1
           (checkOut 0%Z None looping_log).2).
  reflexivity.
Defined.

(** X7. Whatever the LineLog, a [checkOut] that returns and was not served
    from the cache leaves [lastCheckoutRev] at the revision asked, cut at
    [maxRev], [content] as the data of [lines] joined, and [lines] ending
    with the entry of an [END] instruction, with data [""] and revision 0. *)
Theorem checkOut_refreshes rev start st st' :
  checkOut rev start st = (st', Ok tt) →
  start ≠ None ∨ Z.min rev (maxRev st) ≠ lastCheckoutRev st →
  lastCheckoutRev st' = Z.min rev (maxRev st)
  ∧ content st' = reconstructContent st'
  ∧ ∃ front z d, lines st' = front ++ [LineInfo.mk "" 0%Z z d]
                 ∧ code st' !! z = Some END.
Proof.
  rewrite checkOut_unfold. unfold checkOut_result. cbv zeta. intros Hco Hfresh.
  assert (bool_decide (Z.min rev (maxRev st) = lastCheckoutRev st)
          && bool_decide (start = None) = false) as Hguard.
  { destruct Hfresh; [rewrite (bool_decide_eq_false_2 (start = None)) by done
                     |rewrite (bool_decide_eq_false_2 (_ = lastCheckoutRev st)) by done];
      by rewrite ?andb_false_r. }
  rewrite Hguard in Hco.
  destruct (execute_loop (code st) _ _ (deleted_of None) _ _) as [ls|e] eqn:Hex; [|done].
  apply execute_loop_Ok in Hex as (vs & Hrun & Hlen & ->).
  destruct start as [s|].
  - destruct (execute_loop (code st) s _ _ _ _) as [ls2|e] eqn:Hex2; [|done].
    injection Hco as <-. fields. unfold reconstructContent. fields.
    split_and!; [done..|].
    apply execute_loop_Ok in Hex2 as (vr & Hrun2 & _ & ->).
    destruct (emit_run_shape _ _ _
                (deleted_of (Some (list_to_set
                   (LineInfo.pc <$> emit (code st) (deleted_of None) vs)))) _ _ Hrun2)
      as (front & z & Hem & Hz & _).
    by eexists front, z, _.
  - injection Hco as <-. fields. unfold reconstructContent. fields.
    split_and!; [done..|].
    destruct (emit_run_shape _ _ _ (deleted_of None) _ _ Hrun) as (front & z & Hem & Hz & _).
    by eexists front, z, _.
Qed.

(** Revision 1 of the example history, checked out from revision 2. *)
Lemma checkOut_refreshes_witness :
  let st' := (checkOut 1%Z None example_log).1 in
  lastCheckoutRev st' = Z.min 1 (maxRev example_log)
  ∧ content st' = reconstructContent st'
  ∧ ∃ front z d, lines st' = front ++ [LineInfo.mk "" 0%Z z d]
                 ∧ code st' !! z = Some END.
Proof.
  cbv zeta.
  apply (checkOut_refreshes 1%Z None example_log (checkOut 1%Z None example_log).1).
  - by vm_compute.
  - right. by vm_compute.
Defined.

(** X8. Whatever the LineLog, a range view that starts at the revision it
    ends at is the plain view of that revision: [checkOut(rev, rev)], when
    it returns, leaves the lines [execute(rev, rev)] returns, none of them
    flagged deleted. *)
Theorem checkOut_empty_range rev st st' :
  (rev ≤ maxRev st)%Z →
  checkOut rev (Some rev) st = (st', Ok tt) →
  execute rev rev None st = (st, Ok (lines st'))
  ∧ Forall (λ l, LineInfo.deleted l = false) (lines st').
Proof.
  intros Hle. rewrite checkOut_unfold, execute_unfold. unfold checkOut_result. cbv zeta.
  rewrite Z.min_l by done.
  rewrite (bool_decide_eq_false_2 (Some rev = None)), andb_false_r by done.
  destruct (execute_loop (code st) rev rev (deleted_of None) _ _) as [ls|e] eqn:Hex;
    [|done].
  apply execute_loop_Ok in Hex as (vs & Hrun & Hlen & ->).
  rewrite (execute_loop_run _ _ _ _ _ _ _ Hrun Hlen).
  intros Heq. apply (f_equal fst) in Heq. cbn [fst] in Heq. rewrite <-Heq. fields.
  assert (emit (code st)
            (deleted_of (Some (list_to_set
               (LineInfo.pc <$> emit (code st) (deleted_of None) vs)))) vs
          = emit (code st) (deleted_of None) vs) as ->.
  { rewrite (emit_deleted _ (deleted_of (Some _))).
    rewrite <-(list_fmap_id (emit (code st) (deleted_of None) vs)) at 2.
    apply list_fmap_ext. intros i l Hl. destruct l as [d r p del].
    apply list_elem_of_lookup_2 in Hl.
    pose proof Hl as (x & _ & Hx)%elem_of_emit.
    pose proof (emit_line_deleted _ _ _ _ Hx) as Hdel. cbn in Hdel. subst del.
    cbn. rewrite bool_decide_eq_true_2; [done|].
    rewrite elem_of_list_to_set, list_elem_of_fmap. by exists (LineInfo.mk d r p false). }
  split; [done|].
  apply Forall_forall. intros l (x & _ & Hx)%elem_of_emit.
  by rewrite (emit_line_deleted _ _ _ _ Hx).
Qed.

(** Revision 1 of the example history. *)
Lemma checkOut_empty_range_witness :
  let st' := (checkOut 1%Z (Some 1%Z) example_log).1 in
  execute 1%Z 1%Z None example_log = (example_log, Ok (lines st'))
  ∧ Forall (λ l, LineInfo.deleted l = false) (lines st').
Proof.
  cbv zeta.
  apply (checkOut_empty_range 1%Z example_log (checkOut 1%Z (Some 1%Z) example_log).1).
  - by vm_compute.
  - by vm_compute.
Defined.

(** X9. [editChunk] rejects a chunk that ends before it starts and a chunk
    that ends beyond [lines], and fails on reading the line at [a1] when
    [a1] is [lines.length]: nothing can be inserted after the last entry.
    In the three cases the LineLog is left as it was. *)
Theorem editChunk_rejects a1 a2 rev newLines st :
  (a2 < a1 →
   editChunk a1 a2 rev newLines st = (st, Throw "illegal chunk (a1 < a2)"))
  ∧ (a1 ≤ a2 → length (lines st) < a2 →
     editChunk a1 a2 rev newLines st
     = (st, Throw "out of bound a2 (forgot checkOut?)"))
  ∧ (a1 ≤ a2 → a2 ≤ length (lines st) → length (lines st) ≤ a1 →
     editChunk a1 a2 rev newLines st = (st, Throw type_error)).
Proof.
  rewrite editChunk_unfold. unfold editChunk_outcome. split_and!.
  - intros. by rewrite bool_decide_eq_false_2 by lia.
  - intros. rewrite bool_decide_eq_true_2 by lia.
    by rewrite bool_decide_eq_false_2 by lia.
  - intros. rewrite !bool_decide_eq_true_2 by lia. cbn [negb].
    by rewrite lookup_ge_None_2 by lia.
Qed.

(** X10. A call of [editChunk] that returns has only appended to the
    program and redirected the instruction of the line at [a1] to what it
    appended: every other instruction is where it was.  The data of [lines]
    are spliced as asked, [lastCheckoutRev] is the revision of the call,
    [maxRev] is raised to it, and [tsMap], [extraMap] and [content] are
    untouched. *)
Theorem editChunk_returns a1 a2 rev newLines st st' :
  editChunk a1 a2 rev newLines st = (st', Ok tt) →
  a1 ≤ a2 ∧ a2 ≤ length (lines st)
  ∧ (∃ l1, lines st !! a1 = Some l1
       ∧ code st' !! LineInfo.pc l1 = Some (J (length (code st)))
       ∧ ∀ pc i, code st !! pc = Some i → pc ≠ LineInfo.pc l1 → code st' !! pc = Some i)
  ∧ length (code st) < length (code st')
  ∧ LineInfo.data <$> lines st'
    = take a1 (LineInfo.data <$> lines st) ++ newLines
        ++ drop a2 (LineInfo.data <$> lines st)
  ∧ lastCheckoutRev st' = rev ∧ maxRev st' = Z.max (maxRev st) rev
  ∧ tsMap st' = tsMap st ∧ extraMap st' = extraMap st ∧ content st' = content st.
Proof.
  intros Hed.
  destruct (editChunk_Ok _ _ _ _ _ _ Hed) as (H12 & H2 & l1 & orig & Hl1 & Horig & ->).
  unfold editChunk_result. fields. split_and!; try done.
  - exists l1. split_and!; [done| |].
    + by apply edited_code_redirected.
    + intros pc i Hpc Hne. by apply edited_code_kept.
  - apply edited_code_grows.
  - rewrite !fmap_app, inserted_data, fmap_take, fmap_drop, list_fmap_insert.
    rewrite (list_insert_id (LineInfo.data <$> lines st)); [done|].
    by rewrite list_lookup_fmap, Hl1.
  - case_bool_decide; lia.
Qed.

(** The first line recorded in a new LineLog. *)
Lemma editChunk_returns_witness :
  let st := new_LineLog.1 in
  let st' := (editChunk 0 0 1%Z [text_of ["x"]] st).1 in
  0 ≤ 0 ∧ 0 ≤ length (lines st)
  ∧ (∃ l1, lines st !! 0 = Some l1
       ∧ code st' !! LineInfo.pc l1 = Some (J (length (code st)))
       ∧ ∀ pc i, code st !! pc = Some i → pc ≠ LineInfo.pc l1 → code st' !! pc = Some i)
  ∧ length (code st) < length (code st')
  ∧ LineInfo.data <$> lines st'
    = take 0 (LineInfo.data <$> lines st) ++ [text_of ["x"]]
        ++ drop 0 (LineInfo.data <$> lines st)
  ∧ lastCheckoutRev st' = 1%Z ∧ maxRev st' = Z.max (maxRev st) 1
  ∧ tsMap st' = tsMap st ∧ extraMap st' = extraMap st ∧ content st' = content st.
Proof.
  cbv zeta.
  apply (editChunk_returns 0 0 1%Z [text_of ["x"]] new_LineLog.1
           (editChunk 0 0 1%Z [text_of ["x"]] new_LineLog.1).1).
  by vm_compute.
Defined.

(** X11. Whatever the LineLog and the differ, a call of [recordText] that
    returns leaves [content] as the text given, and returns [maxRev] as it
    was or one more.  It never lowers [maxRev] nor shortens the program.
    When the text differs from the content, the timestamp given, or the
    time of the call when it is missing or 0, is stored under the revision
    returned; when it does not differ nothing changes. *)
Theorem recordText_returns dmp_diff text timestamp extra now st st' r :
  recordText dmp_diff text timestamp extra now st = (st', Ok r) →
  content st' = text
  ∧ (r = maxRev st ∨ r = (maxRev st + 1)%Z)
  ∧ (maxRev st ≤ maxRev st' ≤ r)%Z
  ∧ (diffLines dmp_diff (content st) text ≠ [] → maxRev st' = r)
  ∧ length (code st) ≤ length (code st')
  ∧ (content st ≠ text → tsMap st' = <[r := ts_or_now timestamp now]> (tsMap st))
  ∧ (content st = text → st' = st).
Proof.
  intros Hrec. split; [by eapply recordText_content|].
  destruct (recordText_Ok _ _ _ _ _ _ _ _ Hrec)
    as [(Hct & -> & ->)|(Hne & st1 & Hco & Hpath)].
  { split_and!; try done; try lia; by left. }
  pose proof (checkOut_same_history (maxRev st) None st) as (Hc & Hts & _ & Hm).
  rewrite Hco in Hc, Hts, Hm. cbn [fst] in *.
  destruct Hpath as [(-> & a1 & a2 & b1 & b2 & l1 & r1 & d & _ & _ & _ & _ & _ & _ & Hp & ->)
                    |(-> & st2 & Hed & ->)].
  - unfold trivial_result. fields. rewrite Hm, Hts, Hc, length_insert.
    split_and!; try done; try lia; by left.
  - destruct (editChunks_Ok _ _ _ _ _ Hed) as (Hts2 & _ & _ & Hlen & Hmax & Hnz & _ & _).
    assert (tsMap (annotated (maxRev st + 1) (ts_or_now timestamp now) extra st1)
            = <[(maxRev st + 1)%Z := ts_or_now timestamp now]> (tsMap st)
            ∧ code (annotated (maxRev st + 1) (ts_or_now timestamp now) extra st1)
              = code st
            ∧ maxRev (annotated (maxRev st + 1) (ts_or_now timestamp now) extra st1)
              = maxRev st) as (Hta & Hca & Hma).
    { unfold annotated. destruct extra; fields; by rewrite Hts, Hc, Hm. }
    rewrite Hta in Hts2. rewrite Hca in Hlen. rewrite Hma in Hmax. fields.
    split_and!; try done; try lia; try (by right).
    intros Hblocks. destruct Hnz as (? & _); [|lia].
      intros Hrev. apply Hblocks. apply (f_equal reverse) in Hrev.
      by rewrite reverse_involutive in Hrev.
Qed.

(** The second text of the example history. *)
Lemma recordText_returns_witness :
  content example_log = text_of ["a"]
  ∧ (2%Z = maxRev example_log1 ∨ 2%Z = (maxRev example_log1 + 1)%Z)
  ∧ (maxRev example_log1 ≤ maxRev example_log ≤ 2)%Z
  ∧ (diffLines ref_diff (content example_log1) (text_of ["a"]) ≠ []
     → maxRev example_log = 2%Z)
  ∧ length (code example_log1) ≤ length (code example_log)
  ∧ (content example_log1 ≠ text_of ["a"]
     → tsMap example_log = <[2%Z := ts_or_now (Some 20%Z) 0]> (tsMap example_log1))
  ∧ (content example_log1 = text_of ["a"] → example_log = example_log1).
Proof.
  apply (recordText_returns ref_diff (text_of ["a"]) (Some 20%Z) None 0%Z
           example_log1 example_log 2%Z).
  by vm_compute.
Defined.

(** X12. Whatever the LineLog, a call of [recordText] that returns a new
    revision has stored the [extra] given under it, and left [extraMap] as
    it was when none was given; a call that returns [maxRev] as it was,
    for a text that is the content or for a trivial update, leaves
    [extraMap] as it was, whatever [extra] it was given. *)
Theorem recordText_extra dmp_diff text timestamp extra now st st' r :
  recordText dmp_diff text timestamp extra now st = (st', Ok r) →
  (r = (maxRev st + 1)%Z →
   extraMap st' = match extra with
                  | Some e => <[r := e]> (extraMap st)
                  | None => extraMap st
                  end)
  ∧ (r = maxRev st → extraMap st' = extraMap st).
Proof.
  intros Hrec.
  destruct (recordText_Ok _ _ _ _ _ _ _ _ Hrec)
    as [(Hct & -> & ->)|(Hne & st1 & Hco & Hpath)].
  { split; [lia|done]. }
  pose proof (checkOut_same_history (maxRev st) None st) as (_ & _ & Hex & _).
  rewrite Hco in Hex. cbn [fst] in *.
  destruct Hpath as [(-> & a1 & a2 & b1 & b2 & l1 & r1 & d & _ & _ & _ & _ & _ & _ & Hp & ->)
                    |(-> & st2 & Hed & ->)].
  - unfold trivial_result. fields. split; [lia|done].
  - destruct (editChunks_Ok _ _ _ _ _ Hed) as (_ & Hex2 & _).
    fields. rewrite Hex2. split; [|lia]. intros _.
    unfold annotated. destruct extra; fields; by rewrite Hex.
Qed.

(** The second text of the example history, had an [extra] come with it. *)
Lemma recordText_extra_witness :
  let res := recordText ref_diff (text_of ["a"]) (Some 20%Z) (Some [("k", JNum 1)]) 0%Z
               example_log1 in
  (2%Z = (maxRev example_log1 + 1)%Z →
   extraMap res.1 = <[2%Z := [("k", JNum 1)]]> (extraMap example_log1))
  ∧ (2%Z = maxRev example_log1 → extraMap res.1 = extraMap example_log1).
Proof.
  cbv zeta.
  apply (recordText_extra ref_diff (text_of ["a"]) (Some 20%Z) (Some [("k", JNum 1)]) 0%Z
           example_log1
           (recordText ref_diff (text_of ["a"]) (Some 20%Z) (Some [("k", JNum 1)]) 0%Z
              example_log1).1 2%Z).
  by vm_compute.
Defined.

(** X13. If the revision of every [LINE] of the program has a timestamp,
    it is still so after a call of [recordText] that returns, whatever the
    LineLog and the differ, and after any [checkOut]. *)
Theorem lines_stay_stamped dmp_diff st :
  stamped st →
  (∀ text timestamp extra now st' r,
     recordText dmp_diff text timestamp extra now st = (st', Ok r) → stamped st')
  ∧ (∀ rev start, stamped (checkOut rev start st).1).
Proof.
  intros Hst. split.
  - intros. by eapply recordText_stamped.
  - intros rev start. pose proof (checkOut_same_history rev start st) as (Hc & Hts & _).
    unfold stamped. by rewrite Hc, Hts.
Qed.

(** The example history after its first text. *)
Lemma lines_stay_stamped_witness :
  (∀ text timestamp extra now st' r,
     recordText ref_diff text timestamp extra now example_log1 = (st', Ok r) → stamped st')
  ∧ (∀ rev start, stamped (checkOut rev start example_log1).1).
Proof.
  apply (lines_stay_stamped ref_diff example_log1).
  apply (recordText_stamped ref_diff (text_of ["a"; "b"]) (Some 10%Z) None 0%Z
           new_LineLog.1 example_log1 1%Z).
  - intros [|pc] r d Hpc; [done|]. by destruct pc.
  - by vm_compute.
Defined.

(** X14. In a LineLog reached from a new one by calls of [recordText] and
    of [checkOut] with one argument, each [recordText] made while [maxRev]
    is checked out: [content] is the data of [lines] joined, which the
    source asserts in a comment; [lines] ends with the entry of an [END]
    instruction and holds lines of the program before it, none flagged
    deleted; [maxRev] is the largest revision of a jump of the program;
    and the lines of [content] are the data of [lines], entry by entry,
    unless a negative revision was checked out. *)
Theorem reached_invariants dmp_diff st h :
  diff_sound dmp_diff → reached dmp_diff st h →
  content st = reconstructContent st
  ∧ (∃ front z, lines st = front ++ [LineInfo.mk "" 0%Z z false]
       ∧ code st !! z = Some END
       ∧ Forall (λ l, code st !! LineInfo.pc l
                      = Some (LINE (LineInfo.rev l) (LineInfo.data l))
                      ∧ LineInfo.deleted l = false) front)
  ∧ maxRev st = code_max_rev (code st)
  ∧ (lastCheckoutRev st ≤ maxRev st)%Z
  ∧ ((0 ≤ lastCheckoutRev st)%Z →
     LineInfo.data <$> lines st = splitLines (content st) ++ [""]).
Proof.
  intros Hdiff Hr. destruct (reached_view dmp_diff Hdiff _ _ Hr) as (st0 & Hb & Hview).
  pose proof (built_inv dmp_diff Hdiff _ _ Hb) as Hinv.
  destruct Hview as ((Hc & Hts & Hex & Hm) & Hle & (vs & Hrun & Hls) & Hct).
  split_and!; [done| | |done|].
  - destruct (emit_run_shape _ _ _ (deleted_of None) _ _ Hrun)
      as (front & z & Hem & Hz & Hfront).
    exists front, z. rewrite Hls. split_and!; [done..|].
    eapply Forall_impl; [done|]. by intros l (r & d & Hl & ->).
  - by rewrite Hm, Hc, (inv_max _ _ Hinv).
  - intros H0.
    destruct (proj2 (built_revisions dmp_diff Hdiff st0 h (lastCheckoutRev st) Hb))
      as [t Ht]; [lia|].
    destruct (inv_hist _ _ Hinv _ _ Ht) as [_ (vs' & Hrun' & Hdata)].
    rewrite Hc in Hrun, Hls.
    rewrite (run_det _ _ _ _ _ _ Hrun' Hrun), <-Hls in Hdata.
    by rewrite Hct, Hdata, join_lines.
Qed.

(** The example history with revision 1 checked out. *)
Lemma reached_invariants_witness :
  content example_view = reconstructContent example_view
  ∧ (∃ front z, lines example_view = front ++ [LineInfo.mk "" 0%Z z false]
       ∧ code example_view !! z = Some END
       ∧ Forall (λ l, code example_view !! LineInfo.pc l
                      = Some (LINE (LineInfo.rev l) (LineInfo.data l))
                      ∧ LineInfo.deleted l = false) front)
  ∧ maxRev example_view = code_max_rev (code example_view)
  ∧ (lastCheckoutRev example_view ≤ maxRev example_view)%Z
  ∧ ((0 ≤ lastCheckoutRev example_view)%Z →
     LineInfo.data <$> lines example_view = splitLines (content example_view) ++ [""]).
Proof.
  exact (reached_invariants ref_diff example_view example_history
           ref_diff_sound reached_example).
Defined.

(** X15. In such a LineLog the revisions recorded are the integers from 0
    to [maxRev], and each of them can be checked out and shows the text
    recorded under it. *)
Theorem reached_revisions dmp_diff st h :
  diff_sound dmp_diff → reached dmp_diff st h →
  (∀ r, is_Some (h !! r) ↔ (0 ≤ r ≤ maxRev st)%Z)
  ∧ (∀ r, (0 ≤ r ≤ maxRev st)%Z →
       ∃ t st', h !! r = Some t ∧ checkOut r None st = (st', Ok tt) ∧ content st' = t).
Proof.
  intros Hdiff Hr. destruct (reached_view dmp_diff Hdiff _ _ Hr) as (st0 & Hb & Hview).
  pose proof (built_inv dmp_diff Hdiff _ _ Hb) as Hinv.
  pose proof Hview as ((_ & _ & _ & Hm) & _).
  assert (∀ r, is_Some (h !! r) ↔ (0 ≤ r ≤ maxRev st)%Z) as Hdom.
  { intros r. rewrite Hm. by apply (built_revisions dmp_diff Hdiff). }
  split; [done|]. intros r Hle. destruct (proj2 (Hdom r) Hle) as [t Ht].
  destruct (view_of_checkOut_recorded st0 st h r t Hinv Hview Ht) as (st' & ? & ? & _).
  by exists t, st'.
Qed.

(** The revisions of the example history. *)
Lemma reached_revisions_witness :
  (∀ r, is_Some (example_history !! r) ↔ (0 ≤ r ≤ maxRev example_view)%Z)
  ∧ (∀ r, (0 ≤ r ≤ maxRev example_view)%Z →
       ∃ t st', example_history !! r = Some t
                ∧ checkOut r None example_view = (st', Ok tt) ∧ content st' = t).
Proof.
  exact (reached_revisions ref_diff example_view example_history
           ref_diff_sound reached_example).
Defined.

(** X16. On such a LineLog no method throws: [checkOut] returns whatever
    its arguments, [execute] returns whatever the revisions and the set
    [present], and [recordText], called while [maxRev] is checked out,
    returns for every text and leaves a LineLog of the same kind. *)
Theorem reached_never_throws dmp_diff st h :
  diff_sound dmp_diff → reached dmp_diff st h →
  (∀ rev start, ∃ st', checkOut rev start st = (st', Ok tt))
  ∧ (∀ startRev endRev present, ∃ ls,
       execute startRev endRev present st = (st, Ok ls))
  ∧ (lastCheckoutRev st = maxRev st →
     ∀ text timestamp extra now, ∃ st' r,
       recordText dmp_diff text timestamp extra now st = (st', Ok r)
       ∧ reached dmp_diff st' (<[r := text]> h)).
Proof.
  intros Hdiff Hr. destruct (reached_view dmp_diff Hdiff _ _ Hr) as (st0 & Hb & Hview).
  pose proof (built_inv dmp_diff Hdiff _ _ Hb) as Hinv.
  pose proof Hview as ((Hc & _) & _).
  split_and!.
  - intros rev start. by eapply reached_checkOut_Ok.
  - intros s e present.
    destruct (inv_execute_loop st0 h s e (deleted_of present) Hinv) as (vs & _ & _ & Hex).
    eexists. by rewrite execute_unfold, Hc, Hex.
  - intros Hlast text timestamp extra now.
    destruct (recordText_inv dmp_diff Hdiff st0 h text timestamp extra now Hinv)
      as (st' & r & Hrec & _).
    rewrite <-(view_of_head st0 st h Hinv Hview Hlast) in Hrec.
    exists st', r. split; [done|].
    exact (reached_recordText dmp_diff st h text timestamp extra now st' r Hr Hlast Hrec).
Qed.

(** The example history with revision 1 checked out. *)
Lemma reached_never_throws_witness :
  (∀ rev start, ∃ st', checkOut rev start example_view = (st', Ok tt))
  ∧ (∀ startRev endRev present, ∃ ls,
       execute startRev endRev present example_view = (example_view, Ok ls))
  ∧ (lastCheckoutRev example_view = maxRev example_view →
     ∀ text timestamp extra now, ∃ st' r,
       recordText ref_diff text timestamp extra now example_view = (st', Ok r)
       ∧ reached ref_diff st' (<[r := text]> example_history)).
Proof.
  exact (reached_never_throws ref_diff example_view example_history
           ref_diff_sound reached_example).
Defined.

(** X17. On such a LineLog, and after any [checkOut] of it, ranges
    included, [getLineTimestamp] never returns [undefined]: every line
    before the last entry has a revision with a timestamp. *)
Theorem reached_timestamps dmp_diff st h :
  diff_sound dmp_diff → reached dmp_diff st h →
  ∀ rev start i,
    is_Some (getLineTimestamp i st)
    ∧ is_Some (getLineTimestamp i (checkOut rev start st).1).
Proof.
  intros Hdiff Hr.
  assert (∀ st, reached dmp_diff st h → stamped st
            ∧ ∀ i, is_Some (getLineTimestamp i st)) as Hone.
  { clear st Hr. intros st Hr.
    destruct (reached_view dmp_diff Hdiff _ _ Hr) as (st0 & Hb & Hview).
    destruct Hview as ((Hc & Hts & _) & _ & (vs & Hrun & Hls) & _).
    assert (stamped st) as Hst.
    { unfold stamped. rewrite Hc, Hts. by eapply built_stamped. }
    split; [done|]. intros i.
    destruct (emit_run_shape _ _ _ (deleted_of None) _ _ Hrun)
      as (front & z & Hem & _ & Hfront).
    eapply (stamped_timestamp st front); [done|by rewrite Hls|].
    eapply Forall_impl; [done|]. by intros l (r & d & Hl & ->). }
  intros rev start i. destruct (Hone st Hr) as [Hst Hts]. split; [done|].
  destruct (reached_checkOut_Ok dmp_diff Hdiff st h rev start Hr) as [st' Hco].
  rewrite Hco. cbn [fst].
  assert (start ≠ None ∨ Z.min rev (maxRev st) ≠ lastCheckoutRev st →
          is_Some (getLineTimestamp i st')) as Hfresh.
  { intros Hfresh.
    destruct (checkOut_fresh_lines _ _ _ _ Hco Hfresh) as (front & z & Hls & Hfront).
    eapply (stamped_timestamp st' front z); [|done..].
    pose proof (checkOut_same_history rev start st) as (Hc & Hts' & _).
    rewrite Hco in Hc, Hts'. cbn [fst] in *. unfold stamped. by rewrite Hc, Hts'. }
  destruct start as [s|]; [apply Hfresh; by left|].
  destruct (decide (Z.min rev (maxRev st) = lastCheckoutRev st)) as [Heq|Hne].
  - rewrite checkOut_cached in Hco by done. by injection Hco as <-.
  - apply Hfresh. by right.
Qed.

(** The range view of revisions 1 to 2 of the example history. *)
Lemma reached_timestamps_witness :
  is_Some (getLineTimestamp 0 example_view)
  ∧ is_Some (getLineTimestamp 0 (checkOut 2%Z (Some 1%Z) example_view).1).
Proof.
  exact (reached_timestamps ref_diff example_view example_history
           ref_diff_sound reached_example 2%Z (Some 1%Z) 0).
Defined.

(** X18. [import] adopts the parsed program and maps and the largest
    revision of the program, whether or not the [checkOut] that follows
    returns.  It does not reset [lastCheckoutRev]: imported into a LineLog
    whose [lastCheckoutRev] is the new [maxRev], the [checkOut] is served
    from the cache, and [lines] and [content] stay those of the LineLog
    before the import. *)
Theorem import_adopts {Buffer : Type} (parse_gunzip : Buffer → option Parsed) buf obj s :
  parse_gunzip buf = Some obj →
  code (import Buffer parse_gunzip buf s).1 = p_code obj
  ∧ tsMap (import Buffer parse_gunzip buf s).1 = default ∅ (p_tsMap obj)
  ∧ extraMap (import Buffer parse_gunzip buf s).1 = default ∅ (p_extraMap obj)
  ∧ maxRev (import Buffer parse_gunzip buf s).1 = code_max_rev (p_code obj)
  ∧ (lastCheckoutRev s = code_max_rev (p_code obj) →
     import Buffer parse_gunzip buf s
     = (mkLineLog (p_code obj) (default ∅ (p_tsMap obj)) (default ∅ (p_extraMap obj))
          (code_max_rev (p_code obj)) (lastCheckoutRev s) (lines s) (content s), Ok tt)).
Proof.
  intros Hparse. rewrite (import_unfold _ _ _ _ Hparse).
  destruct (checkOut_same_history (code_max_rev (p_code obj)) None
              (mkLineLog (p_code obj) (default ∅ (p_tsMap obj)) (default ∅ (p_extraMap obj))
                 (code_max_rev (p_code obj)) (lastCheckoutRev s) (lines s) (content s)))
    as (Hc & Ht & He & Hm).
  split_and!; [done..|].
  intros Hlast. apply checkOut_cached. fields. rewrite Hlast. lia.
Qed.

(** The export of a new LineLog imported into the example history checked
    out at revision 0: the lines of that check-out stay. *)
Lemma import_adopts_witness :
  let buf := mkExported [END] ∅ ∅ in
  let obj := mkParsed [END] (Some ∅) (Some ∅) in
  let s := (checkOut 0%Z None example_log).1 in
  code (import Exported ref_parse_gunzip buf s).1 = [END]
  ∧ tsMap (import Exported ref_parse_gunzip buf s).1 = ∅
  ∧ extraMap (import Exported ref_parse_gunzip buf s).1 = ∅
  ∧ maxRev (import Exported ref_parse_gunzip buf s).1 = 0%Z
  ∧ (lastCheckoutRev s = 0%Z →
     import Exported ref_parse_gunzip buf s
     = (mkLineLog [END] ∅ ∅ 0%Z (lastCheckoutRev s) (lines s) (content s), Ok tt)).
Proof.
  cbv zeta.
  apply (import_adopts ref_parse_gunzip (mkExported [END] ∅ ∅)
           (mkParsed [END] (Some ∅) (Some ∅)) (checkOut 0%Z None example_log).1).
  reflexivity.
Defined.

(** X19. [export] leaves the LineLog as it is, and what it returns does
    not depend on what is checked out: it is the same before and after any
    [checkOut]. *)
Theorem export_ignores_views {Buffer : Type} (gzip_stringify : Exported → Buffer)
    st rev start :
  (export Buffer gzip_stringify st).1 = st
  ∧ (export Buffer gzip_stringify (checkOut rev start st).1).2
    = (export Buffer gzip_stringify st).2.
Proof.
  unfold export. rewrite !bind_get. split; [done|]. cbn.
  pose proof (checkOut_same_history rev start st) as (-> & -> & -> & _). done.
Qed.

(** X20. With a differ that spells the lines of both texts, the blocks of
    [diffLines] lie inside the two line lists, none is empty on both
    sides, and they come one after the other on both sides; there is no
    block only if the texts are the same. *)
Theorem diffLines_blocks dmp_diff a b :
  diff_sound dmp_diff →
  Forall (λ '(a1, a2, b1, b2),
            a1 ≤ a2 ∧ a2 ≤ length (splitLines a)
            ∧ b1 ≤ b2 ∧ b2 ≤ length (splitLines b)
            ∧ (a1 < a2 ∨ b1 < b2)) (diffLines dmp_diff a b)
  ∧ StronglySorted block_before (diffLines dmp_diff a b)
  ∧ (diffLines dmp_diff a b = [] → a = b).
Proof.
  intros Hdiff. pose proof (diffLines_aligned dmp_diff a b Hdiff) as Hal.
  destruct (aligned_geometry _ _ _ _ _ Hal) as [Hall Hsort]. split_and!.
  - eapply Forall_impl; [done|]. intros [[[a1 a2] b1] b2]. lia.
  - done.
  - intros Hnil. destruct (decide (a = b)) as [|Hne]; [done|].
    by destruct (diffLines_nonempty dmp_diff a b Hdiff Hne).
Qed.

(** The reference differ on two texts. *)
Lemma diffLines_blocks_witness :
  let a := text_of ["c"; "d"; "e"] in
  let b := text_of ["d"; "e"; "f"] in
  Forall (λ '(a1, a2, b1, b2),
            a1 ≤ a2 ∧ a2 ≤ length (splitLines a)
            ∧ b1 ≤ b2 ∧ b2 ≤ length (splitLines b)
            ∧ (a1 < a2 ∨ b1 < b2)) (diffLines ref_diff a b)
  ∧ StronglySorted block_before (diffLines ref_diff a b)
  ∧ (diffLines ref_diff a b = [] → a = b).
Proof.
  exact (diffLines_blocks ref_diff (text_of ["c"; "d"; "e"]) (text_of ["d"; "e"; "f"])
           ref_diff_sound).
Defined.

(** X21. With such a differ the blocks of [diffLines] are a patch: the
    splices [recordText] makes, from the last block to the first, turn the
    lines of the first text into the lines of the second. *)
Theorem diffLines_patch dmp_diff a b :
  diff_sound dmp_diff →
  splice_blocks (splitLines a) (splitLines b) (diffLines dmp_diff a b) = splitLines b.
Proof.
  intros Hdiff. pose proof (diffLines_aligned dmp_diff a b Hdiff) as Hal.
  apply (aligned_splice 0 0 _ _ _ [] (splitLines b) Hal); done.
Qed.

(** The reference differ on two texts. *)
Lemma diffLines_patch_witness :
  splice_blocks (splitLines (text_of ["c"; "d"; "e"])) (splitLines (text_of ["d"; "e"; "f"]))
    (diffLines ref_diff (text_of ["c"; "d"; "e"]) (text_of ["d"; "e"; "f"]))
  = splitLines (text_of ["d"; "e"; "f"]).
Proof.
  exact (diffLines_patch ref_diff (text_of ["c"; "d"; "e"]) (text_of ["d"; "e"; "f"])
           ref_diff_sound).
Defined.

(** X22. Every entry that the scan of [logFile] returns has a commit of
    40 characters and a path that is not empty, whatever [git log]
    printed. *)
Theorem logFile_entries pieces :
  Forall (λ e, String.length (cp_commit e) = 40 ∧ cp_path e ≠ "") (logFile_scan pieces).
Proof. by apply logFile_scan_entries. Qed.

(** X23. [logFile] reads back what [git log --format=format:%H --name-only]
    prints: from the lines hash, path, empty line of each commit it returns
    the commits and paths in the order printed, with or without the empty
    line after the last commit. *)
Theorem logFile_reads_log es e :
  Forall (λ e, String.length (cp_commit e) = 40 ∧ cp_path e ≠ "") (es ++ [e]) →
  logFile_scan (mjoin (log_lines <$> es ++ [e])) = es ++ [e]
  ∧ logFile_scan (mjoin (log_lines <$> es) ++ [cp_commit e; cp_path e]) = es ++ [e].
Proof.
  intros Hall. unfold logFile_scan. split.
  - by destruct (logFile_scan_log_lines (es ++ [e]) "" [] Hall) as [c' ->].
  - apply Forall_app in Hall as [Hes He]. apply Forall_singleton in He as [Hh Hp].
    rewrite foldl_app. destruct (logFile_scan_log_lines es "" [] Hes) as [c' ->].
    by rewrite (logFile_log_open e c' _ Hh Hp).
Qed.

(** Two commits of one file. *)
Lemma logFile_reads_log_witness :
  let es := [mkCommitPath hash_b "f"] in
  let e := mkCommitPath hash_a "f" in
  logFile_scan (mjoin (log_lines <$> es ++ [e])) = es ++ [e]
  ∧ logFile_scan (mjoin (log_lines <$> es) ++ [cp_commit e; cp_path e]) = es ++ [e].
Proof.
  cbv zeta.
  apply (logFile_reads_log [mkCommitPath hash_b "f"] (mkCommitPath hash_a "f")).
  repeat constructor; done.
Defined.

(** X24. [buildLineLogFromGitHistory] returns a LineLog built by recording
    texts only, whatever the reader returns or rejects: its content is the
    text of the newest entry of the history that could be read (the empty
    text if there is none), and it holds at most one revision for each
    entry read. *)
Theorem buildLineLog_history dmp_diff fetch clock history :
  diff_sound dmp_diff →
  ∃ h, built dmp_diff (buildLineLog dmp_diff fetch clock history) h
    ∧ content (buildLineLog dmp_diff fetch clock history)
      = default "" (fst <$> head (omap fetch history))
    ∧ (maxRev (buildLineLog dmp_diff fetch clock history)
       ≤ Z.of_nat (length (omap fetch history)))%Z.
Proof. intros Hdiff. by apply buildLineLog_built. Qed.

(** A history of three commits, the newest first, of which the oldest
    cannot be read. *)
Lemma buildLineLog_history_witness :
  let history := [mkCommitPath hash_b "f"; mkCommitPath hash_a "f"; mkCommitPath "c" "f"] in
  ∃ h, built ref_diff (buildLineLog ref_diff example_fetch (λ _, 5%Z) history) h
    ∧ content (buildLineLog ref_diff example_fetch (λ _, 5%Z) history)
      = default "" (fst <$> head (omap example_fetch history))
    ∧ (maxRev (buildLineLog ref_diff example_fetch (λ _, 5%Z) history)
       ≤ Z.of_nat (length (omap example_fetch history)))%Z.
Proof.
  cbv zeta.
  apply (buildLineLog_history ref_diff example_fetch (λ _, 5%Z)
           [mkCommitPath hash_b "f"; mkCommitPath hash_a "f"; mkCommitPath "c" "f"]).
  exact ref_diff_sound.
Defined.
